(** * A shallow embedding of the TOML encoder (encode.go)

    The encoder walks a Go value through package reflect and prints a TOML
    document into a buffered writer.  The development follows the source
    function by function.

    - The library functions the encoder calls (strings, strconv, fmt, sort)
      are modelled first, then the values of package reflect as an
      inductive type with the accessors the encoder uses.
    - The encoder is a record threaded through a state and error monad: a
      method returns, panics with a value, or runs out of the fuel that
      bounds the recursion of the model.  [TotalFacts.Encode_finishes] shows
      that fuel above twice the depth of the value is enough.
    - The properties come after all the definitions: facts on byte strings
      and on the library models, then, for each part of the encoder, its
      lemmas and the theorems on number literals, key-value lines, multiline
      strings, arrays, the modifier, maps and embedded fields.
    - Further theorems follow on the escaping of quoted strings, array
      literals, the value given to [Encode], the classification, table
      headers, the growth of the output, nil entries, the fields of a struct,
      text marshalers, percent signs, the end of lines, and on two cases the
      encoder misses: text marshalers that are not structs, and maps whose
      key type is a defined string type. *)

From Stdlib Require Import ZArith NArith Lia Bool List.
From Stdlib Require Import Strings.String Strings.Ascii.
From Stdlib Require Import Numbers.DecimalString Init.Decimal.
From Stdlib Require Import Sorting.Sorted Sorting.Permutation.
Import ListNotations.

Set Warnings "-register-all".

Open Scope list_scope.
Open Scope string_scope.

(** ** Byte strings

    A Go string is a sequence of bytes; it is a [string] of 8-bit [ascii]
    here. *)

Module Bytes.

Definition tab : ascii := "009"%char.
Definition lf : ascii := "010"%char.
Definition cr : ascii := "013"%char.
Definition dquote : ascii := "034"%char.
Definition backslash : ascii := "092"%char.
Definition dot : ascii := "."%char.

Definition str (c : ascii) : string := String c EmptyString.

Fixpoint occurs (c : ascii) (s : string) : bool :=
  match s with
  | EmptyString => false
  | String d r => if Ascii.eqb c d then true else occurs c r
  end.

Fixpoint count (c : ascii) (s : string) : nat :=
  match s with
  | EmptyString => 0
  | String d r => (if Ascii.eqb c d then 1 else 0) + count c r
  end.

Fixpoint flat_map (f : ascii -> string) (s : string) : string :=
  match s with
  | EmptyString => EmptyString
  | String c r => f c ++ flat_map f r
  end.

Fixpoint repeat (s : string) (n : nat) : string :=
  match n with
  | O => EmptyString
  | S k => s ++ repeat s k
  end.

Fixpoint take (n : nat) (s : string) : string :=
  match n, s with
  | S k, String c r => String c (take k r)
  | _, _ => EmptyString
  end.

Definition nth (n : nat) (s : string) : option ascii := String.get n s.

(** A property of all the bytes of a string. *)
Fixpoint all (p : ascii -> bool) (s : string) : bool :=
  match s with
  | EmptyString => true
  | String c r => (p c && all p r)%bool
  end.

Definition is_digit (c : ascii) : bool :=
  (Ascii.leb "0" c && Ascii.leb c "9")%bool.

Definition byte_in (lo hi : N) (c : ascii) : bool :=
  (N.leb lo (N_of_ascii c) && N.leb (N_of_ascii c) hi)%bool.

End Bytes.

(** ** The Go library functions the encoder calls *)

Module strings.

(** [strings.Contains]. *)
Fixpoint Contains (s substr : string) : bool :=
  if String.prefix substr s then true
  else match s with
       | EmptyString => false
       | String _ r => Contains r substr
       end.

(** [strings.Repeat] for a count that is not negative. *)
Definition Repeat (s : string) (count : nat) : string := Bytes.repeat s count.

(** [strings.Join]. *)
Definition Join (elems : list string) (sep : string) : string :=
  String.concat sep elems.

(** A [strings.Replacer] all of whose old strings are single bytes is a
    byte-to-string table applied to every byte of the argument in turn;
    [pairs] lists the (old, new) arguments of [strings.NewReplacer] and the
    first pair for a byte wins. *)
Fixpoint lookup (pairs : list (ascii * string)) (c : ascii) : string :=
  match pairs with
  | [] => Bytes.str c
  | (old, new) :: rest => if Ascii.eqb c old then new else lookup rest c
  end.

Definition Replace (pairs : list (ascii * string)) (s : string) : string :=
  Bytes.flat_map (lookup pairs) s.

End strings.

Module strconv.

(** [strconv.FormatInt(i, 10)] and [strconv.FormatUint(i, 10)]. *)
Definition FormatInt (i : Z) : string := NilZero.string_of_int (Z.to_int i).
Definition FormatUint (i : N) : string := NilZero.string_of_uint (N.to_uint i).

Definition FormatBool (b : bool) : string := if b then "true" else "false".

(** A floating-point number is represented by what [strconv]'s
    shortest-digits conversion makes of it: not a number, an infinity, or a
    sign, the shortest digit string [d] that identifies the number and the
    position [dp] of the decimal point in it (the value is
    [0.d * 10^dp]; zero has no digits and [dp = 0]).  The conversion
    from the bits is the library's; the encoder only prints. *)
Inductive float : Type :=
| NaN
| Inf (neg : bool)
| Finite (neg : bool) (d : Decimal.uint) (dp : Z).

Definition digits (d : Decimal.uint) : string := NilEmpty.string_of_uint d.

(** The fraction digits of [fmtF]: [prec] digits from position [dp],
    zero where the digit string has none. *)
Fixpoint fraction (d : string) (dp : Z) (prec : nat) : string :=
  match prec with
  | O => EmptyString
  | S k =>
      let ch :=
        if (0 <=? dp)%Z then
          match Bytes.nth (Z.to_nat dp) d with
          | Some c => c
          | None => "0"%char
          end
        else "0"%char in
      String ch (fraction d (dp + 1) k)
  end.

(** [fmtF]: the format -ddddddd.ddddd. *)
Definition fmtF (neg : bool) (d : string) (dp : Z) (prec : nat) : string :=
  let nd := String.length d in
  (if neg then "-" else "") ++
  (if (0 <? dp)%Z then
     let m := Nat.min nd (Z.to_nat dp) in
     Bytes.take m d ++ Bytes.repeat "0" (Z.to_nat dp - m)
   else "0") ++
  (match prec with
   | O => ""
   | S _ => "." ++ fraction d dp prec
   end).

(** [strconv.FormatFloat(f, 'f', -1, bitSize)]: with precision -1 the
    number of fraction digits is [max (nd - dp) 0]. *)
Definition FormatFloat (f : float) : string :=
  match f with
  | NaN => "NaN"
  | Inf neg => if neg then "-Inf" else "+Inf"
  | Finite neg d dp =>
      let ds := digits d in
      let prec := Z.to_nat (Z.max (Z.of_nat (String.length ds) - dp) 0) in
      fmtF neg ds dp prec
  end.

End strconv.

(** ** Package fmt: a format printed with no operands

    [enc.wf(format)] is [fmt.Fprintf(enc.w, format)].  When the call has
    operands the format is a constant of the source and the result is written
    out at the call.  When it has none the format may be data, and the
    printer still interprets it: text up to a percent sign is copied, and a
    verb finds no operand.  [Sprintf0] follows [doPrintf] for an empty
    operand list. *)

Module fmt.

Definition percent : ascii := "%"%char.

Definition is_flag (c : ascii) : bool :=
  (Ascii.eqb c "#" || Ascii.eqb c "0" || Ascii.eqb c "+" ||
   Ascii.eqb c "-" || Ascii.eqb c " ")%bool.

Fixpoint skip_flags (s : string) : string :=
  match s with
  | String c r => if is_flag c then skip_flags r else s
  | EmptyString => s
  end.

(** [parsenum] on the text [s] whose end is the end of the range: the
    number read so far is [num]; the result is whether a number was read
    and the text after it.  A number above a million gives up and jumps to
    the end of the range. *)
Fixpoint parsenum_from (num : N) (isnum : bool) (s : string) : bool * string :=
  match s with
  | String c r =>
      if Bytes.is_digit c then
        if (1000000 <? num)%N then (false, EmptyString)
        else parsenum_from (num * 10 + (N_of_ascii c - 48))%N true r
      else (isnum, s)
  | EmptyString => (isnum, s)
  end.

Definition parsenum (s : string) : bool * string := parsenum_from 0 false s.

(** The text before the first closing bracket and the text after it. *)
Fixpoint split_bracket (s : string) : option (string * string) :=
  match s with
  | EmptyString => None
  | String c r =>
      if Ascii.eqb c "]" then Some (EmptyString, r)
      else match split_bracket r with
           | Some (a, b) => Some (String c a, b)
           | None => None
           end
  end.

(** [parseArgNumber] on a text that starts with an opening bracket: whether
    an index was read, and the text after what was consumed. *)
Definition parseArgNumber (s : string) : bool * string :=
  match s with
  | String _ r =>
      if Nat.ltb (String.length s) 3 then (false, r)
      else match split_bracket r with
           | Some (inside, after) =>
               match parsenum inside with
               | (true, EmptyString) => (true, after)
               | _ => (false, after)
               end
           | None => (false, r)
           end
  | EmptyString => (false, s)
  end.

(** [argNumber] with no operands: an index can never be in range, so a
    bracket always spoils [goodArgNum].  The result is the text after the
    index, [afterIndex] and the new [goodArgNum]. *)
Definition argNumber (good : bool) (s : string) : string * bool * bool :=
  match s with
  | String "[" _ => let '(ok, r) := parseArgNumber s in (r, ok, false)
  | _ => (s, false, good)
  end.

Definition badWidthString : string := "%!(BADWIDTH)".
Definition badPrecString : string := "%!(BADPREC)".
Definition noVerbString : string := "%!(NOVERB)".
Definition missingString : string := "(MISSING)".
Definition badIndexString : string := "(BADINDEX)".
Definition runeError : string :=
  String (ascii_of_N 239)
    (String (ascii_of_N 191) (String (ascii_of_N 189) "")).

(** [utf8.DecodeRuneInString] followed by [writeRune]: the bytes that print
    the first rune of [s], and the text after that rune.  A byte sequence
    that is not the encoding of a rune is one byte wide and prints the
    replacement rune. *)
Definition decode_rune (c : ascii) (r : string) : string * string :=
  let cont := Bytes.byte_in 128 191 in
  let bad := (runeError, r) in
  let n := N_of_ascii c in
  if (n <? 128)%N then (Bytes.str c, r)
  else
    let '(sz, lo, hi) :=
      if Bytes.byte_in 194 223 c then (2, 128, 191)%N
      else if (n =? 224)%N then (3, 160, 191)%N
      else if (n =? 237)%N then (3, 128, 159)%N
      else if Bytes.byte_in 225 239 c then (3, 128, 191)%N
      else if (n =? 240)%N then (4, 144, 191)%N
      else if Bytes.byte_in 241 243 c then (4, 128, 191)%N
      else if (n =? 244)%N then (4, 128, 143)%N
      else (0, 0, 0)%N in
    match sz with
    | 2%N =>
        match r with
        | String b1 r1 =>
            if Bytes.byte_in lo hi b1
            then (String c (Bytes.str b1), r1) else bad
        | _ => bad
        end
    | 3%N =>
        match r with
        | String b1 (String b2 r2) =>
            if (Bytes.byte_in lo hi b1 && cont b2)%bool
            then (String c (String b1 (Bytes.str b2)), r2) else bad
        | _ => bad
        end
    | 4%N =>
        match r with
        | String b1 (String b2 (String b3 r3)) =>
            if (Bytes.byte_in lo hi b1 && cont b2 && cont b3)%bool
            then (String c (String b1 (String b2 (Bytes.str b3))), r3) else bad
        | _ => bad
        end
    | _ => bad
    end.

(** One verb, from the text after its percent sign: what is printed for it
    and the text that is left ([None]: the format ended inside the verb). *)
Definition verb (s : string) : string * option string :=
  let s := skip_flags s in
  let '(s, afterIndex, good) := argNumber true s in
  (* width *)
  let '(out, s, afterIndex, good) :=
    match s with
    | String "*" r => (badWidthString, r, false, good)
    | _ =>
        let '(widPresent, r) := parsenum s in
        (EmptyString, r, afterIndex,
         (good && negb (afterIndex && widPresent))%bool)
    end in
  (* precision *)
  let '(out, s, afterIndex, good) :=
    match s with
    | String "." r =>
        let good := (good && negb afterIndex)%bool in
        let '(r, afterIndex, good) := argNumber good r in
        match r with
        | String "*" r' => (out ++ badPrecString, r', false, good)
        | _ => let '(_, r') := parsenum r in (out, r', afterIndex, good)
        end
    | _ => (out, s, afterIndex, good)
    end in
  let '(s, afterIndex, good) :=
    if afterIndex then (s, afterIndex, good) else argNumber good s in
  match s with
  | EmptyString => (out ++ noVerbString, None)
  | String c r =>
      let '(v, rest) := decode_rune c r in
      if Ascii.eqb c percent then (out ++ Bytes.str percent, Some rest)
      else if good then (out ++ "%!" ++ v ++ missingString, Some rest)
      else (out ++ "%!" ++ v ++ badIndexString, Some rest)
  end.

Fixpoint doPrintf (fuel : nat) (format : string) : string :=
  match fuel, format with
  | _, EmptyString => EmptyString
  | O, _ => EmptyString
  | S k, String c r =>
      if Ascii.eqb c percent then
        match verb r with
        | (out, Some rest) => out ++ doPrintf k rest
        | (out, None) => out
        end
      else String c (doPrintf k r)
  end.

(** Every step of [doPrintf] consumes at least one byte, so the length of
    the format is fuel enough. *)
Definition Sprintf0 (format : string) : string :=
  doPrintf (String.length format) format.

End fmt.

(** ** Errors

    The error values of the package (the package-level variables of
    encode.go), the error a [MarshalText] method returned, and an error
    built from a message. *)

Inductive error : Type :=
| errArrayMixedElementTypes
| errArrayNilElement
| errNonString
| errAnonNonStruct
| errArrayNoTable
| errNoKey
| errAnything
| errMarshalText (msg : string)
| errorf (msg : string).

(** [err.Error()]. *)
Definition Error (err : error) : string :=
  match err with
  | errArrayMixedElementTypes => "can't encode array with mixed element types"
  | errArrayNilElement => "can't encode array with nil element"
  | errNonString => "can't encode a map with non-string key type"
  | errAnonNonStruct => "can't encode an anonymous field that is not a struct"
  | errArrayNoTable => "TOML array element can't contain a table"
  | errNoKey => "top-level values must be a Go map or struct"
  | errAnything => ""
  | errMarshalText msg => msg
  | errorf msg => msg
  end.

(** ** Package reflect: the values the encoder walks *)

Module reflect.

Inductive Kind : Type :=
| Invalid | Bool
| Int | Int8 | Int16 | Int32 | Int64
| Uint | Uint8 | Uint16 | Uint32 | Uint64 | Uintptr
| Float32 | Float64 | Complex64 | Complex128
| Array | Chan | Func | Interface | Map | Ptr | Slice
| String | Struct | UnsafePointer.

Definition Kind_eqb (a b : Kind) : bool :=
  match a, b with
  | Invalid, Invalid | Bool, Bool | Int, Int | Int8, Int8 | Int16, Int16
  | Int32, Int32 | Int64, Int64 | Uint, Uint | Uint8, Uint8
  | Uint16, Uint16 | Uint32, Uint32 | Uint64, Uint64 | Uintptr, Uintptr
  | Float32, Float32 | Float64, Float64 | Complex64, Complex64
  | Complex128, Complex128 | Array, Array | Chan, Chan | Func, Func
  | Interface, Interface | Map, Map | Ptr, Ptr | Slice, Slice
  | String, String | Struct, Struct | UnsafePointer, UnsafePointer => true
  | _, _ => false
  end.

(** [Kind.String]. *)
Definition Kind_String (k : Kind) : string :=
  match k with
  | Invalid => "invalid" | Bool => "bool"
  | Int => "int" | Int8 => "int8" | Int16 => "int16" | Int32 => "int32"
  | Int64 => "int64"
  | Uint => "uint" | Uint8 => "uint8" | Uint16 => "uint16"
  | Uint32 => "uint32" | Uint64 => "uint64" | Uintptr => "uintptr"
  | Float32 => "float32" | Float64 => "float64"
  | Complex64 => "complex64" | Complex128 => "complex128"
  | Array => "array" | Chan => "chan" | Func => "func"
  | Interface => "interface" | Map => "map" | Ptr => "ptr"
  | Slice => "slice" | String => "string" | Struct => "struct"
  | UnsafePointer => "unsafe.Pointer"
  end.

End reflect.

Abbreviation Kind := reflect.Kind.

Inductive int_kind := KInt | KInt8 | KInt16 | KInt32 | KInt64.
Inductive uint_kind := KUint | KUint8 | KUint16 | KUint32 | KUint64.
Inductive float_kind := KFloat32 | KFloat64.
(** The kinds the encoder has no case for. *)
Inductive other_kind :=
| KUintptr | KComplex64 | KComplex128 | KChan | KFunc | KUnsafePointer.

(** A struct field as [reflect.StructField] describes it; [Tag] is the
    struct tag as the list of its key-value pairs. *)
Record StructField : Type := mkField {
  Name : string;
  PkgPath : string;
  Anonymous : bool;
  Tag : list (string * string)
}.

(** [StructTag.Get]. *)
Fixpoint Tag_Get (tag : list (string * string)) (key : string) : string :=
  match tag with
  | [] => ""
  | (k, v) :: rest => if String.eqb k key then v else Tag_Get rest key
  end.

(** The key type of a map, as far as the encoder can tell key types apart:
    the type [string] itself, a defined type whose kind is String
    ([type Name string], with the name that [Type.String] prints), or a type
    of another kind.  The keys of a map of the first two are strings. *)
Inductive key_type : Type :=
| StringKey
| NamedKey (name : string)
| OtherKey.

(** A [reflect.Value].  A nil interface, pointer, slice or map holds [None].
    A map is the list of its entries in storage order, with the key type of
    the map; the entries of a map have distinct keys.  Two constructors
    stand for what the dynamic type of a value decides: [VTime] is a
    [time.Time], carrying what
    [v.In(UTC).Format("2006-01-02T15:04:05Z")] prints for it, and
    [VMarshaler text v] is a value [v] whose type implements
    [TextMarshaler], carrying what its [MarshalText] returns.  The values
    are finite trees: a value that holds itself through a pointer or a map,
    on which the encoder does not return, is not among them. *)
Inductive value : Type :=
| Zero
| VBool (b : bool)
| VInt (k : int_kind) (i : Z)
| VUint (k : uint_kind) (u : N)
| VFloat (k : float_kind) (f : strconv.float)
| VString (s : string)
| VArray (elems : list value)
| VSlice (elems : option (list value))
| VInterface (elem : option value)
| VPtr (elem : option value)
| VMap (keys : key_type) (entries : option (list (string * value)))
| VStruct (fields : list (StructField * value))
| VTime (utc : string)
| VMarshaler (text : string + error) (v : value)
| VOther (k : other_kind).

Definition Kind_of_int (k : int_kind) : Kind :=
  match k with
  | KInt => reflect.Int
  | KInt8 => reflect.Int8
  | KInt16 => reflect.Int16
  | KInt32 => reflect.Int32
  | KInt64 => reflect.Int64
  end.

Definition Kind_of_uint (k : uint_kind) : Kind :=
  match k with
  | KUint => reflect.Uint
  | KUint8 => reflect.Uint8
  | KUint16 => reflect.Uint16
  | KUint32 => reflect.Uint32
  | KUint64 => reflect.Uint64
  end.

Definition Kind_of_float (k : float_kind) : Kind :=
  match k with
  | KFloat32 => reflect.Float32
  | KFloat64 => reflect.Float64
  end.

Definition Kind_of_other (k : other_kind) : Kind :=
  match k with
  | KUintptr => reflect.Uintptr
  | KComplex64 => reflect.Complex64
  | KComplex128 => reflect.Complex128
  | KChan => reflect.Chan
  | KFunc => reflect.Func
  | KUnsafePointer => reflect.UnsafePointer
  end.

(** [Value.Kind]. *)
Fixpoint Kind_of (rv : value) : Kind :=
  match rv with
  | Zero => reflect.Invalid
  | VBool _ => reflect.Bool
  | VInt k _ => Kind_of_int k
  | VUint k _ => Kind_of_uint k
  | VFloat k _ => Kind_of_float k
  | VString _ => reflect.String
  | VArray _ => reflect.Array
  | VSlice _ => reflect.Slice
  | VInterface _ => reflect.Interface
  | VPtr _ => reflect.Ptr
  | VMap _ _ => reflect.Map
  | VStruct _ => reflect.Struct
  | VTime _ => reflect.Struct
  | VMarshaler _ v => Kind_of v
  | VOther k => Kind_of_other k
  end.

(** The value under the marks of the dynamic type. *)
Fixpoint plain (rv : value) : value :=
  match rv with
  | VMarshaler _ v => plain v
  | _ => rv
  end.

Definition IsValid (rv : value) : bool :=
  match plain rv with Zero => false | _ => true end.

(** [Value.IsNil], called on interfaces, maps, pointers and slices only. *)
Definition IsNil (rv : value) : bool :=
  match plain rv with
  | VSlice None | VInterface None | VPtr None | VMap _ None => true
  | _ => false
  end.

(** [Value.Elem] of an interface or a pointer; of a nil one it is the zero
    Value. *)
Definition Elem (rv : value) : value :=
  match plain rv with
  | VInterface (Some v) | VPtr (Some v) => v
  | _ => Zero
  end.

(** The elements [rv.Index(0)], ..., [rv.Index(rv.Len()-1)] of an array or
    a slice.  The encoder indexes arrays and slices only, below their
    length. *)
Definition Elems (rv : value) : list value :=
  match plain rv with
  | VArray l | VSlice (Some l) => l
  | _ => []
  end.

(** [Value.Len]; it panics on a value that has no length. *)
Definition Len (rv : value) : option nat :=
  match plain rv with
  | VArray l | VSlice (Some l) => Some (List.length l)
  | VSlice None | VMap _ None => Some 0
  | VMap _ (Some m) => Some (List.length m)
  | VString s => Some (String.length s)
  | _ => None
  end.

Definition Index (rv : value) (i : nat) : value := List.nth i (Elems rv) Zero.

(** [Value.String]: the string of a String value, and a description of the
    value otherwise. *)
Definition String_of (rv : value) : string :=
  match plain rv with
  | VString s => s
  | Zero => "<invalid Value>"
  | v => "<" ++ reflect.Kind_String (Kind_of v) ++ " Value>"
  end.

Definition Bool_of (rv : value) : bool :=
  match plain rv with VBool b => b | _ => false end.
Definition Int_of (rv : value) : Z :=
  match plain rv with VInt _ i => i | _ => 0%Z end.
Definition Uint_of (rv : value) : N :=
  match plain rv with VUint _ u => u | _ => 0%N end.
Definition Float_of (rv : value) : strconv.float :=
  match plain rv with
  | VFloat _ f => f
  | _ => strconv.Finite false Nil 0
  end.

(** The entries of a map, [rv.MapKeys()] in storage order and
    [rv.MapIndex(key)]. *)
Definition MapEntries (rv : value) : list (string * value) :=
  match plain rv with
  | VMap _ (Some m) => m
  | _ => []
  end.

Definition MapKeys (rv : value) : list string := List.map fst (MapEntries rv).

Fixpoint assoc (m : list (string * value)) (key : string) : value :=
  match m with
  | [] => Zero
  | (k, v) :: rest => if String.eqb k key then v else assoc rest key
  end.

Definition MapIndex (rv : value) (key : string) : value :=
  assoc (MapEntries rv) key.

(** [rv.Type().Key().Kind() == reflect.String] for a map. *)
Definition MapKeyIsString (rv : value) : bool :=
  match plain rv with
  | VMap StringKey _ | VMap (NamedKey _) _ => true
  | _ => false
  end.

(** The fields of a struct, with their values.  A [time.Time] has
    unexported fields only, which the encoder skips. *)
Definition Fields (rv : value) : list (StructField * value) :=
  match plain rv with
  | VStruct fs => fs
  | _ => []
  end.

(** What the type switches on [rv.Interface()] see.  The interface value of
    an Interface value is the element inside. *)
Inductive dynamic : Type :=
| IsTime (utc : string)
| IsTextMarshaler (text : string + error)
| IsPlain.

Definition Interface_type (rv : value) : dynamic :=
  let look v :=
    match v with
    | VTime utc => IsTime utc
    | VMarshaler text _ => IsTextMarshaler text
    | _ => IsPlain
    end in
  match rv with
  | VInterface (Some v) => look v
  | _ => look rv
  end.


(** ** The TOML types and key paths *)

(** Modelled from the spec: the declaration of [tomlType], its values
    [tomlBool] ... [tomlArrayHash], [typeEqual] and [typeIsHash] are outside
    src/.  The spec's semantic kind is a closed tag over boolean, integer,
    float, string, datetime, array, array-of-tables and table, with "absent"
    for a value that has no kind; array-of-tables is a tag of its own.  The
    absent kind is the nil [tomlType], which is equal to no kind. *)
Inductive tomlBaseType : Type :=
| tomlInteger | tomlFloat | tomlDatetime | tomlString | tomlBool
| tomlArray | tomlHash | tomlArrayHash.

Definition tomlType : Type := option tomlBaseType.

Definition tomlBaseType_eqb (a b : tomlBaseType) : bool :=
  match a, b with
  | tomlInteger, tomlInteger | tomlFloat, tomlFloat
  | tomlDatetime, tomlDatetime | tomlString, tomlString
  | tomlBool, tomlBool | tomlArray, tomlArray | tomlHash, tomlHash
  | tomlArrayHash, tomlArrayHash => true
  | _, _ => false
  end.

Definition typeEqual (t1 t2 : tomlType) : bool :=
  match t1, t2 with
  | Some a, Some b => tomlBaseType_eqb a b
  | _, _ => false
  end.

Definition typeIsHash (t : tomlType) : bool :=
  (typeEqual t (Some tomlHash) || typeEqual t (Some tomlArrayHash))%bool.

(** Modelled from the spec: the type [Key] with its methods [String] and
    [add] is declared outside src/.  A key path is the sequence of its
    segments from the root; the header of a table shows the dotted path, and
    appending a segment makes a new path. *)
Definition Key : Type := list string.

Definition Key_String (k : Key) : string := strings.Join k ".".

Definition Key_add (k : Key) (piece : string) : Key := (k ++ [piece])%list.

(** Modelled from the spec: the helper [e] that makes an error of a format
    and its operands is declared outside src/; its result is the error with
    the formatted message. *)
Definition e (msg : string) : error := errorf msg.

(** ** Panics and results *)

(** What a function panics with: [encPanic] wraps an error in a
    [tomlEncodeError], which [safeEncode] turns into the result of the call;
    any other panic value leaves [safeEncode] as a panic. *)
Inductive panic : Type :=
| tomlEncodeError (err : error)
| panicError (err : error)
| panicString (msg : string).

(** The result of a function that reads values only. *)
Inductive res (A : Type) : Type :=
| Ret (a : A)
| Throw (p : panic)
| NoFuel.
Arguments Ret {A} a.
Arguments Throw {A} p.
Arguments NoFuel {A}.

Definition res_bind {A B : Type} (m : res A) (f : A -> res B) : res B :=
  match m with
  | Ret a => f a
  | Throw p => Throw p
  | NoFuel => NoFuel
  end.

Declare Scope res_scope.
Delimit Scope res_scope with res.
Notation "x <- m ;; k" := (res_bind m (fun x => k))
  (at level 61, m at next level, right associativity) : res_scope.

Definition encPanicR {A : Type} (err : error) : res A :=
  Throw (tomlEncodeError err).

(** ** Classification: [isNil], [eindirect], [tomlTypeOfGo], [tomlArrayType] *)

Definition isNil (rv : value) : bool :=
  match Kind_of rv with
  | reflect.Interface | reflect.Map | reflect.Ptr | reflect.Slice => IsNil rv
  | _ => false
  end.

(** [eindirect] follows pointers and interfaces down to the value they
    hold; of a nil one that is the zero Value.  It is written by recursion on
    the value; [eindirect_eq] below gives it the shape of the source. *)
Fixpoint eindirect (v : value) : value :=
  match v with
  | VPtr (Some x) | VInterface (Some x) => eindirect x
  | VPtr None | VInterface None => Zero
  | VMarshaler _ x =>
      match Kind_of x with
      | reflect.Ptr | reflect.Interface => eindirect x
      | _ => v
      end
  | _ => v
  end.

(** The loop of [tomlArrayType] over the elements from index 1 on, with the
    classifier of an element as an argument. *)
Fixpoint checkElems (classify : value -> res tomlType) (firstType : tomlType)
    (elems : list value) : res unit :=
  match elems with
  | [] => Ret tt
  | elem :: rest =>
      (elemType <- classify elem ;;
       match elemType with
       | None => encPanicR errArrayNilElement
       | Some _ =>
           if negb (typeEqual firstType elemType)
           then encPanicR errArrayMixedElementTypes
           else checkElems classify firstType rest
       end)%res
  end.

Definition lenPanic {A : Type} (rv : value) : res A :=
  Throw (panicString
           ("reflect: call of reflect.Value.Len on " ++
            reflect.Kind_String (Kind_of rv) ++ " Value")).

Fixpoint tomlTypeOfGo (fuel : nat) (rv : value) {struct fuel} : res tomlType :=
  match fuel with
  | O => NoFuel
  | S fuel' =>
      if (isNil rv || negb (IsValid rv))%bool then Ret None
      else
        match Kind_of rv with
        | reflect.Bool => Ret (Some tomlBool)
        | reflect.Int | reflect.Int8 | reflect.Int16 | reflect.Int32
        | reflect.Int64
        | reflect.Uint | reflect.Uint8 | reflect.Uint16 | reflect.Uint32
        | reflect.Uint64 => Ret (Some tomlInteger)
        | reflect.Float32 | reflect.Float64 => Ret (Some tomlFloat)
        | reflect.Array | reflect.Slice =>
            (t <- tomlArrayType fuel' rv ;;
             if typeEqual (Some tomlHash) t then Ret (Some tomlArrayHash)
             else Ret (Some tomlArray))%res
        | reflect.Ptr | reflect.Interface => tomlTypeOfGo fuel' (Elem rv)
        | reflect.String => Ret (Some tomlString)
        | reflect.Map => Ret (Some tomlHash)
        | reflect.Struct =>
            match Interface_type rv with
            | IsTime _ => Ret (Some tomlDatetime)
            | IsTextMarshaler _ => Ret (Some tomlString)
            | IsPlain => Ret (Some tomlHash)
            end
        | k => Throw (panicString
                        ("unexpected reflect.Kind: " ++ reflect.Kind_String k))
        end
  end

with tomlArrayType (fuel : nat) (rv : value) {struct fuel} : res tomlType :=
  match fuel with
  | O => NoFuel
  | S fuel' =>
      if (isNil rv || negb (IsValid rv))%bool then Ret None
      else
        match Len rv with
        | None => lenPanic rv
        | Some O => Ret None
        | Some (S _) =>
            (firstType <- tomlTypeOfGo fuel' (Index rv 0) ;;
             match firstType with
             | None => encPanicR errArrayNilElement
             | Some _ =>
                 _ <- checkElems (tomlTypeOfGo fuel') firstType
                        (List.tl (Elems rv)) ;;
                 if (typeEqual firstType (Some tomlArray) ||
                     typeEqual firstType (Some tomlArrayHash))%bool
                 then
                   nest <- tomlArrayType fuel' (eindirect (Index rv 0)) ;;
                   if (typeEqual nest (Some tomlHash) ||
                       typeEqual nest (Some tomlArrayHash))%bool
                   then encPanicR errArrayNoTable
                   else Ret firstType
                 else Ret firstType
             end)%res
        end
  end.

(** ** The encoder *)

Definition Modifier : Type := string.

Definition MOD_NONE : Modifier := "".
Definition MOD_MULTILINE_STRING : Modifier := "multiline_string".
Definition MOD_MULTILINE_RAWSTRING : Modifier := "multiline_rawstring".

(** The map [validmodifiers]: the kind a modifier applies to, if it is one. *)
Definition validmodifiers (m : Modifier) : option Kind :=
  if String.eqb m MOD_MULTILINE_STRING then Some reflect.String
  else if String.eqb m MOD_MULTILINE_RAWSTRING then Some reflect.String
  else None.

Definition quotedReplacer : list (ascii * string) :=
  [ (Bytes.tab, String Bytes.backslash "t");
    (Bytes.lf, String Bytes.backslash "n");
    (Bytes.cr, String Bytes.backslash "r");
    (Bytes.dquote, String Bytes.backslash (Bytes.str Bytes.dquote));
    (Bytes.backslash, String Bytes.backslash (Bytes.str Bytes.backslash)) ].

(** The encoder: [w] is what has been written to the buffered writer so far.
    The sink is taken to accept every write, so [wf] never panics and the
    final flush returns no error. *)
Record Encoder : Type := mkEncoder {
  Indent : string;
  hasWritten : bool;
  w : string;
  modifier : Modifier
}.

Definition NewEncoder : Encoder :=
  {| Indent := "  "; hasWritten := false; w := ""; modifier := MOD_NONE |}.

(** A method of the encoder returns, panics (the encoder keeps the state it
    had then) or runs out of the fuel of the model. *)
Inductive outcome (A : Type) : Type :=
| Done (a : A) (enc : Encoder)
| Panicked (p : panic) (enc : Encoder)
| Exhausted.
Arguments Done {A} a enc.
Arguments Panicked {A} p enc.
Arguments Exhausted {A}.

Definition M (A : Type) : Type := Encoder -> outcome A.

Definition ret {A : Type} (a : A) : M A := fun enc => Done a enc.

Definition bind {A B : Type} (m : M A) (f : A -> M B) : M B :=
  fun enc =>
    match m enc with
    | Done a enc' => f a enc'
    | Panicked p enc' => Panicked p enc'
    | Exhausted => Exhausted
    end.

Declare Scope enc_scope.
Delimit Scope enc_scope with enc.
Notation "x <- m ;; k" := (bind m (fun x => k))
  (at level 61, m at next level, right associativity) : enc_scope.
Notation "m ;; k" := (bind m (fun _ => k))
  (at level 61, right associativity) : enc_scope.

Definition lift {A : Type} (r : res A) : M A :=
  fun enc =>
    match r with
    | Ret a => Done a enc
    | Throw p => Panicked p enc
    | NoFuel => Exhausted
    end.

Definition raise {A : Type} (p : panic) : M A := fun enc => Panicked p enc.

Definition encPanic {A : Type} (err : error) : M A :=
  raise (tomlEncodeError err).

Definition get {A : Type} (f : Encoder -> A) : M A :=
  fun enc => Done (f enc) enc.

Definition with_modifier (enc : Encoder) (m : Modifier) : Encoder :=
  {| Indent := Indent enc; hasWritten := hasWritten enc;
     w := w enc; modifier := m |}.

Definition set_modifier (m : Modifier) : M unit :=
  fun enc => Done tt (with_modifier enc m).

(** [wf] with the text that [fmt.Fprintf] makes of the format and its
    operands; [wf0] is [wf] of a format alone. *)
Definition written (enc : Encoder) (text : string) : Encoder :=
  {| Indent := Indent enc; hasWritten := true;
     w := w enc ++ text; modifier := modifier enc |}.

Definition wf (text : string) : M unit :=
  fun enc => Done tt (written enc text).

Definition wf0 (format : string) : M unit := wf (fmt.Sprintf0 format).

Definition newline : M unit :=
  (written <- get hasWritten ;;
   if written then wf0 (Bytes.str Bytes.lf) else ret tt)%enc.

(** [indentStr]; [strings.Repeat] panics on a negative count. *)
Definition indentStr (key : Key) : M string :=
  match key with
  | [] => raise (panicString "strings: negative Repeat count")
  | _ :: rest =>
      (indent <- get Indent ;;
       ret (strings.Repeat indent (List.length rest)))%enc
  end.

Definition floatAddDecimal (fstr : string) : string :=
  if negb (strings.Contains fstr ".") then fstr ++ ".0" else fstr.

(** The loops of [isValidTableName] range over the runes of the name; a byte
    below 128 is a rune of its own wherever it stands in a string, so the
    test of the three ASCII characters is a test on the bytes. *)
Definition isValidTableName (s : string) : bool :=
  if Nat.eqb (String.length s) 0 then false
  else negb (Bytes.occurs "[" s || Bytes.occurs "]" s || Bytes.occurs "." s).

Definition isValidKeyName (s : string) : bool :=
  if Nat.eqb (String.length s) 0 then false else true.

(** The last segment [key[len(key)-1]]. *)
Definition lastSegment (key : Key) : res string :=
  match List.rev key with
  | [] => Throw (panicString "runtime error: index out of range")
  | k :: _ => Ret k
  end.

Definition panicIfInvalidKey (key : Key) (hash : bool) : res unit :=
  if hash then
    if List.forallb isValidTableName key then Ret tt
    else encPanicR
           (e ("Key '" ++ Key_String key ++ "' is not a valid table name. " ++
               "Table names cannot contain '[', ']' or '.'."))
  else
    (k <- lastSegment key ;;
     if isValidKeyName k then Ret tt
     else encPanicR
            (e ("Key '" ++ Key_String key ++ "' is not a name. " ++
                "Key names cannot contain whitespace.")))%res.

Definition writeQuoted (s : string) : M unit :=
  wf (Bytes.str Bytes.dquote ++ strings.Replace quotedReplacer s ++
      Bytes.str Bytes.dquote).

Definition rawMarker : string := "'''".
Definition quotedMarker : string :=
  String Bytes.dquote (String Bytes.dquote (Bytes.str Bytes.dquote)).

Definition writeMultiLineString (s : string) (raw : bool) : M unit :=
  let marker := if raw then rawMarker else quotedMarker in
  (wf0 marker ;;
   (if raw then wf0 (s ++ " ")
    else wf0 (strings.Replace quotedReplacer s)) ;;
   wf0 marker)%enc.

Definition zeroInterfacePanic {A : Type} : M A :=
  raise (panicString "reflect: call of reflect.Value.Interface on zero Value").

(** [eElement] and [eArrayOrSliceElement], with the recursive call as an
    argument. *)
Section Element.

Variable eElement_rec : value -> M unit.

Fixpoint eArrayLoop (elems : list value) : M unit :=
  match elems with
  | [] => ret tt
  | elem :: rest =>
      (eElement_rec elem ;;
       (match rest with
        | [] => ret tt
        | _ :: _ => wf0 ", "
        end) ;;
       eArrayLoop rest)%enc
  end.

Definition eArrayOrSliceElement (rv : value) : M unit :=
  (wf0 "[" ;; eArrayLoop (Elems rv) ;; wf0 "]")%enc.

Definition eElement_body (rv : value) : M unit :=
  if negb (IsValid rv) then zeroInterfacePanic
  else
    match Interface_type rv with
    | IsTime utc => wf0 utc
    | IsTextMarshaler (inr err) => encPanic err
    | IsTextMarshaler (inl s) => writeQuoted s
    | IsPlain =>
        match Kind_of rv with
        | reflect.Bool => wf0 (strconv.FormatBool (Bool_of rv))
        | reflect.Int | reflect.Int8 | reflect.Int16 | reflect.Int32
        | reflect.Int64 =>
            wf0 (strconv.FormatInt (Int_of rv))
        | reflect.Uint | reflect.Uint8 | reflect.Uint16 | reflect.Uint32
        | reflect.Uint64 =>
            wf0 (strconv.FormatUint (Uint_of rv))
        | reflect.Float32 | reflect.Float64 =>
            wf0 (floatAddDecimal (strconv.FormatFloat (Float_of rv)))
        | reflect.Array | reflect.Slice => eArrayOrSliceElement rv
        | reflect.Interface => eElement_rec (Elem rv)
        | reflect.String => writeQuoted (String_of rv)
        | k => raise (panicError
                        (e ("Unexpected primitive type: " ++
                            reflect.Kind_String k)))
        end
    end.

End Element.

Fixpoint eElement (fuel : nat) (rv : value) : M unit :=
  match fuel with
  | O => fun _ => Exhausted
  | S fuel' => eElement_body (eElement fuel') rv
  end.

(** The switch of [keyEqElement] on the modifier of the encoder. *)
Definition modifiedElement (fuel : nat) (val : value) : M unit :=
  (m <- get modifier ;;
   if String.eqb m MOD_MULTILINE_STRING
   then writeMultiLineString (String_of val) false
   else if String.eqb m MOD_MULTILINE_RAWSTRING
   then writeMultiLineString (String_of val) true
   else eElement fuel val)%enc.

Definition keyEqElement (fuel : nat) (key : Key) (val : value) : M unit :=
  match key with
  | [] => encPanic errNoKey
  | _ :: _ =>
      (lift (panicIfInvalidKey key false) ;;
       indent <- indentStr key ;;
       k <- lift (lastSegment key) ;;
       wf (indent ++ k ++ " = ") ;;
       modifiedElement fuel val ;;
       newline ;;
       set_modifier MOD_NONE)%enc
  end.

(** [sort.Strings] puts the strings in increasing order of their bytes.
    Strings that compare equal are identical, so what the sorted slice holds
    does not depend on the algorithm; it is an insertion sort here. *)
Module sort.

Fixpoint insert (x : string) (l : list string) : list string :=
  match l with
  | [] => [x]
  | y :: r => if String.leb x y then x :: l else y :: insert x r
  end.

Fixpoint Strings (l : list string) : list string :=
  match l with
  | [] => []
  | x :: r => insert x (Strings r)
  end.

(** The order of [sort.Strings]: the order of the bytes. *)
Definition le (a b : string) : Prop := String.leb a b = true.

End sort.

(** [Value.Field] together with [Type.Field]: the field and its value. *)
Definition Field (v : value) (i : nat) : res (StructField * value) :=
  match Kind_of v with
  | reflect.Struct =>
      match List.nth_error (Fields v) i with
      | Some fv => Ret fv
      | None => Throw (panicString "reflect: Field index out of range")
      end
  | k => Throw (panicString
                  ("reflect: call of reflect.Value.Field on " ++
                   reflect.Kind_String k ++ " Value"))
  end.

(** [FieldByIndex] of the type and of the value, for an index that is not
    empty: after the first step a pointer to a struct is followed, and a nil
    one panics. *)
Fixpoint FieldByIndex (v : value) (index : list nat)
    : res (StructField * value) :=
  match index with
  | [] => Throw (panicString "reflect: FieldByIndex of an empty index")
  | [x] => Field v x
  | x :: rest =>
      (fv <- Field v x ;;
       let next := snd fv in
       match Kind_of next with
       | reflect.Ptr =>
           if IsNil next
           then Throw (panicString
                  "reflect: indirection through nil pointer to embedded struct")
           else
             match Kind_of (Elem next) with
             | reflect.Struct => FieldByIndex (Elem next) rest
             | _ => FieldByIndex next rest
             end
       | _ => FieldByIndex next rest
       end)%res
  end.

(** [rv.MapIndex(reflect.ValueOf(mapKey))] for the string [mapKey], as
    [writeMapKeys] calls it with a key it has sorted.  [MapIndex] assigns
    the key to the key type of the map, and a [string] is not assignable to
    a defined type, so it panics on a map whose key type is one.  (A map of
    another key kind is refused by [eMap] before.) *)
Definition MapIndexOfString (rv : value) (mapKey : string) : res value :=
  match plain rv with
  | VMap (NamedKey name) _ =>
      Throw (panicString
               ("reflect.Value.MapIndex: value of type string is not " ++
                "assignable to type " ++ name))
  | _ => Ret (MapIndex rv mapKey)
  end.

(** The two lists of field indexes that [eStruct] collects. *)
Definition fieldLists : Type := (list (list nat) * list (list nat))%type.

(** [eMap], [eStruct], [eArrayOfTables], [eTable] and [eMapOrStruct], with the
    recursive call of [encode] as an argument; [fuel] bounds the
    classification of a value and the descent into embedded structs. *)
Section Tables.

Variable fuel : nat.
Variable encode_rec : Key -> value -> M unit.

(** The first loop of [eMap], over [rv.MapKeys()]. *)
Fixpoint splitMapKeys (rv : value) (mapKeys : list string)
    (mapKeysDirect mapKeysSub : list string)
    : res (list string * list string) :=
  match mapKeys with
  | [] => Ret (mapKeysDirect, mapKeysSub)
  | k :: rest =>
      (t <- tomlTypeOfGo fuel (MapIndex rv k) ;;
       if typeIsHash t
       then splitMapKeys rv rest mapKeysDirect (mapKeysSub ++ [k])%list
       else splitMapKeys rv rest (mapKeysDirect ++ [k])%list mapKeysSub)%res
  end.

(** The loop of [writeMapKeys] over the sorted keys. *)
Fixpoint writeMapKeysLoop (key : Key) (rv : value) (mapKeys : list string)
    : M unit :=
  match mapKeys with
  | [] => ret tt
  | mapKey :: rest =>
      ((mrv <- lift (MapIndexOfString rv mapKey) ;;
        if isNil mrv then ret tt
        else encode_rec (Key_add key mapKey) mrv) ;;
       writeMapKeysLoop key rv rest)%enc
  end.

Definition writeMapKeys (key : Key) (rv : value) (mapKeys : list string)
    : M unit :=
  writeMapKeysLoop key rv (sort.Strings mapKeys).

Definition eMap (key : Key) (rv : value) : M unit :=
  if negb (MapKeyIsString rv) then encPanic errNonString
  else
    (ks <- lift (splitMapKeys rv (MapKeys rv) [] []) ;;
     writeMapKeys key rv (fst ks) ;;
     writeMapKeys key rv (snd ks))%enc.

(** The loop of [addFields] over the fields from index [i] on;
    [f.Index] of the field [rt.Field(i)] is the one-element slice of [i],
    so the slices appended to are never shared. *)
Fixpoint addFieldsLoop
    (addFields_rec : value -> list nat -> fieldLists -> res fieldLists)
    (fields : list (StructField * value)) (i : nat) (start : list nat)
    (acc : fieldLists) : res fieldLists :=
  match fields with
  | [] => Ret acc
  | (f, frv) :: rest =>
      if negb (String.eqb (PkgPath f) "")
      then addFieldsLoop addFields_rec rest (S i) start acc
      else if Anonymous f then
        let frv := eindirect frv in
        if negb (IsValid frv)
        then Throw (panicString
                      "reflect: call of reflect.Value.Type on zero Value")
        else if negb (reflect.Kind_eqb (Kind_of frv) reflect.Struct)
        then encPanicR errAnonNonStruct
        else
          (acc' <- addFields_rec frv [i] acc ;;
           addFieldsLoop addFields_rec rest (S i) start acc')%res
      else
        (t <- tomlTypeOfGo fuel frv ;;
         if typeIsHash t
         then addFieldsLoop addFields_rec rest (S i) start
                (fst acc, (snd acc ++ [start ++ [i]])%list)
         else addFieldsLoop addFields_rec rest (S i) start
                ((fst acc ++ [start ++ [i]])%list, snd acc))%res
  end.

Fixpoint addFields (depth : nat) (rv : value) (start : list nat)
    (acc : fieldLists) : res fieldLists :=
  match depth with
  | O => NoFuel
  | S depth' => addFieldsLoop (addFields depth') (Fields rv) 0 start acc
  end.

(** The modifier that [writeFields] sets for a field. *)
Definition fieldModifier (sft : StructField) (sf : value) : Modifier :=
  let keyModifier := Tag_Get (Tag sft) "modifier" in
  match validmodifiers keyModifier with
  | Some kind =>
      if reflect.Kind_eqb (Kind_of sf) kind then keyModifier else MOD_NONE
  | None => MOD_NONE
  end.

Definition writeField (key : Key) (rv : value) (fieldIndex : list nat)
    : M unit :=
  (field <- lift (FieldByIndex rv fieldIndex) ;;
   let sft := fst field in
   let sf := snd field in
   if isNil sf then ret tt
   else
     let keyName := Tag_Get (Tag sft) "toml" in
     if String.eqb keyName "-" then ret tt
     else
       let keyName := if String.eqb keyName "" then Name sft else keyName in
       set_modifier (fieldModifier sft sf) ;;
       encode_rec (Key_add key keyName) sf)%enc.

Fixpoint writeFields (key : Key) (rv : value) (fields : list (list nat))
    : M unit :=
  match fields with
  | [] => ret tt
  | fieldIndex :: rest =>
      (writeField key rv fieldIndex ;; writeFields key rv rest)%enc
  end.

Definition eStruct (key : Key) (rv : value) : M unit :=
  (fs <- lift (addFields fuel rv [] ([], [])) ;;
   writeFields key rv (fst fs) ;;
   writeFields key rv (snd fs))%enc.

Definition eMapOrStruct (key : Key) (rv : value) : M unit :=
  let rv := eindirect rv in
  match Kind_of rv with
  | reflect.Map => eMap key rv
  | reflect.Struct => eStruct key rv
  | k => raise (panicString
                  ("eTable: unhandled reflect.Value Kind: " ++
                   reflect.Kind_String k))
  end.

Definition eTable (key : Key) (rv : value) : M unit :=
  ((if Nat.eqb (List.length key) 1 then newline else ret tt) ;;
   (if Nat.ltb 0 (List.length key) then
      lift (panicIfInvalidKey key true) ;;
      indent <- indentStr key ;;
      wf (indent ++ "[" ++ Key_String key ++ "]") ;;
      newline
    else ret tt) ;;
   eMapOrStruct key rv)%enc.

Fixpoint eArrayOfTablesLoop (key : Key) (elems : list value) : M unit :=
  match elems with
  | [] => ret tt
  | trv :: rest =>
      ((if isNil trv then ret tt
        else
          newline ;;
          indent <- indentStr key ;;
          wf (indent ++ "[[" ++ Key_String key ++ "]]") ;;
          newline ;;
          eMapOrStruct key trv) ;;
       eArrayOfTablesLoop key rest)%enc
  end.

Definition eArrayOfTables (key : Key) (rv : value) : M unit :=
  if Nat.eqb (List.length key) 0 then encPanic errNoKey
  else
    (lift (panicIfInvalidKey key true) ;;
     eArrayOfTablesLoop key (Elems rv))%enc.

Definition encode_body (key : Key) (rv : value) : M unit :=
  if negb (IsValid rv) then zeroInterfacePanic
  else
    match Interface_type rv with
    | IsTime _ | IsTextMarshaler _ => keyEqElement fuel key rv
    | IsPlain =>
        match Kind_of rv with
        | reflect.Int | reflect.Int8 | reflect.Int16 | reflect.Int32
        | reflect.Int64
        | reflect.Uint | reflect.Uint8 | reflect.Uint16 | reflect.Uint32
        | reflect.Uint64
        | reflect.Float32 | reflect.Float64 | reflect.String
        | reflect.Bool => keyEqElement fuel key rv
        | reflect.Array | reflect.Slice =>
            (t <- lift (tomlTypeOfGo fuel rv) ;;
             if typeEqual (Some tomlArrayHash) t
             then eArrayOfTables key rv
             else keyEqElement fuel key rv)%enc
        | reflect.Interface =>
            if IsNil rv then ret tt else encode_rec key (Elem rv)
        | reflect.Map =>
            if IsNil rv then ret tt else eTable key rv
        | reflect.Ptr =>
            if IsNil rv then ret tt else encode_rec key (Elem rv)
        | reflect.Struct => eTable key rv
        | k => raise (panicError
                        (e ("Unsupported type for key '" ++ Key_String key ++
                            "': " ++ reflect.Kind_String k)))
        end
    end.

End Tables.

Fixpoint encode (fuel : nat) (key : Key) (rv : value) : M unit :=
  match fuel with
  | O => fun _ => Exhausted
  | S fuel' => encode_body fuel' (encode fuel') key rv
  end.

(** [safeEncode] recovers a [tomlEncodeError] and returns its error; any
    other panic goes on. *)
Definition safeEncode (fuel : nat) (key : Key) (rv : value)
    : M (option error) :=
  fun enc =>
    match encode fuel key rv enc with
    | Done _ enc' => Done None enc'
    | Panicked (tomlEncodeError err) enc' => Done (Some err) enc'
    | Panicked p enc' => Panicked p enc'
    | Exhausted => Exhausted
    end.

(** [Encode] of the value [reflect.ValueOf(v)]; the result is the error
    returned, [None] for nil. *)
Definition Encode (fuel : nat) (v : value) : M (option error) :=
  (err <- safeEncode fuel [] (eindirect v) ;;
   match err with
   | Some err => ret (Some err)
   | None => ret None
   end)%enc.

(** The document an encoder has written when [Encode] returned nil. *)
Definition document (r : outcome (option error)) : option string :=
  match r with
  | Done None enc => Some (w enc)
  | _ => None
  end.

(** The error [Encode] returned. *)
Definition failure (r : outcome (option error)) : option error :=
  match r with
  | Done err _ => err
  | _ => None
  end.

(** ** The values of the scenarios

    The values are built as a Go program writes them with
    [map[string]interface{}] and [[]interface{}]: every element and every
    entry is an interface that holds the value. *)

Module Scenario.

Definition iface (v : value) : value := VInterface (Some v).
Definition table (m : list (string * value)) : value := VMap StringKey (Some m).
Definition slice (l : list value) : value := VSlice (Some l).
Definition int (i : Z) : value := VInt KInt i.

(** [{"arr": [{"x": 1}, {"x": 2}]}] *)
Definition arr_of_tables : value :=
  table [("arr", iface (slice [iface (table [("x", iface (int 1))]);
                               iface (table [("x", iface (int 2))])]))].

(** The same value with the static types
    [map[string][]map[string]int]. *)
Definition arr_of_tables_typed : value :=
  table [("arr", slice [table [("x", int 1)]; table [("x", int 2)]])].

(** [[[1,2],[{"x":1}]]] *)
Definition ints_then_tables : value :=
  slice [iface (slice [iface (int 1); iface (int 2)]);
         iface (slice [iface (table [("x", iface (int 1))])])].

(** [[[{"x":1}]]] *)
Definition nested_tables : value :=
  slice [iface (slice [iface (table [("x", iface (int 1))])])].

Definition lf : string := Bytes.str Bytes.lf.

End Scenario.

(** ** What a method does to the modifier of the encoder *)

(** The method leaves the modifier as it found it. *)
Definition preserves {A : Type} (m : M A) : Prop :=
  forall (enc : Encoder) (a : A) (enc' : Encoder),
    m enc = Done a enc' -> modifier enc' = modifier enc.

(** The method, started without a modifier, ends without one. *)
Definition keeps {A : Type} (m : M A) : Prop :=
  forall (enc : Encoder) (a : A) (enc' : Encoder),
    modifier enc = MOD_NONE -> m enc = Done a enc' -> modifier enc' = MOD_NONE.

(** The method ends without a modifier, however it was started. *)
Definition resets {A : Type} (m : M A) : Prop :=
  forall (enc : Encoder) (a : A) (enc' : Encoder),
    m enc = Done a enc' -> modifier enc' = MOD_NONE.

(** An encoding function for entries keeps the modifier within the entry:
    started without a modifier, or on a String value (the only kind a
    modifier is set for), it ends without a modifier. *)
Definition scoped (encode_fn : Key -> value -> M unit) : Prop :=
  forall (key : Key) (rv : value) (enc : Encoder) (a : unit) (enc' : Encoder),
    modifier enc = MOD_NONE \/ Kind_of rv = reflect.String ->
    encode_fn key rv enc = Done a enc' ->
    modifier enc' = MOD_NONE.

(** ** The two lists of keys that [eMap] collects *)

(** Whether [eMap] puts the key in [mapKeysSub]: the type of the value is a
    table or an array of tables. *)
Definition subKey (fuel : nat) (rv : value) (k : string) : bool :=
  match tomlTypeOfGo fuel (MapIndex rv k) with
  | Ret t => typeIsHash t
  | _ => false
  end.

(** ** Embedded fields *)

(** A field that is not embedded. *)
Definition plainField (fv : StructField * value) : Prop :=
  Anonymous (fst fv) = false.

(** Two results of the same kind: both return, related values, or both panic
    with the same value, or both are out of fuel. *)
Definition res_rel {A : Type} (R : A -> A -> Prop) (x y : res A) : Prop :=
  match x, y with
  | Ret a, Ret b => R a b
  | Throw p, Throw q => p = q
  | NoFuel, NoFuel => True
  | _, _ => False
  end.

(** ** The fuel of the classification *)

(** How deep the values nest inside a value. *)
Fixpoint depth (v : value) : nat :=
  let depths :=
    fix depths (l : list value) : nat :=
      match l with
      | [] => 0
      | x :: r => Nat.max (depth x) (depths r)
      end in
  let depthsOf :=
    fun (A : Type) =>
      fix depthsOf (l : list (A * value)) : nat :=
        match l with
        | [] => 0
        | p :: r => Nat.max (depth (snd p)) (depthsOf r)
        end in
  match v with
  | VArray l => S (depths l)
  | VSlice o => S (match o with Some l => depths l | None => 0 end)
  | VInterface o | VPtr o =>
      S (match o with Some x => depth x | None => 0 end)
  | VMap _ o => S (match o with Some m => depthsOf string m | None => 0 end)
  | VStruct fs => S (depthsOf StructField fs)
  | VMarshaler _ x => depth x
  | _ => 0
  end.

(** The method does not run out of fuel. *)
Definition finishes {A : Type} (m : M A) : Prop :=
  forall enc : Encoder, m enc <> Exhausted.

(** The value is an array or a slice. *)
Definition arrayKind (rv : value) : Prop :=
  Kind_of rv = reflect.Array \/ Kind_of rv = reflect.Slice.

(** ** Reading a quoted literal back *)

(** The byte that the second byte of an escape stands for. *)
Definition unescape (d : ascii) : ascii :=
  if Ascii.eqb d "t" then Bytes.tab
  else if Ascii.eqb d "n" then Bytes.lf
  else if Ascii.eqb d "r" then Bytes.cr
  else d.

(** The text of which [s] is the escaped form: a backslash and the byte
    after it stand for one byte. *)
Fixpoint unquote (s : string) : string :=
  match s with
  | EmptyString => EmptyString
  | String c r =>
      if Ascii.eqb c Bytes.backslash then
        match r with
        | String d r' => String (unescape d) (unquote r')
        | EmptyString => Bytes.str c
        end
      else String c (unquote r)
  end.

(** ** What a method does to the output *)

(** The encoder [enc'] has the indentation of [enc], has written what [enc]
    had written and possibly more, and has written something if [enc]
    had. *)
Definition extends (enc enc' : Encoder) : Prop :=
  Indent enc' = Indent enc /\
  (exists text, w enc' = w enc ++ text) /\
  (hasWritten enc = true -> hasWritten enc' = true).

(** The method only appends to the output, whether it returns or panics. *)
Definition appends {A : Type} (m : M A) : Prop :=
  forall enc : Encoder,
    match m enc with
    | Done _ enc' | Panicked _ enc' => extends enc enc'
    | Exhausted => True
    end.

(** The method leaves the output as it was, or leaves it with a line feed
    at its end. *)
Definition terminated {A : Type} (m : M A) : Prop :=
  forall (enc : Encoder) (a : A) (enc' : Encoder),
    m enc = Done a enc' ->
    w enc' = w enc \/
    exists text, w enc' = w enc ++ text ++ Bytes.str Bytes.lf.

(** ** Two structs whose fields are written alike *)

(** [writeField] does the same for the index path [x] into the struct
    [rootL] as for the index path [y] into the struct [rootR]. *)
Definition fieldAlike (rec : Key -> value -> M unit) (key : Key)
    (rootL rootR : value) (x y : list nat) : Prop :=
  forall enc : Encoder,
    writeField rec key rootL x enc = writeField rec key rootR y enc.

(** [writeFields] does the same for the two lists of index paths. *)
Definition fieldsAlike (rec : Key -> value -> M unit) (key : Key)
    (rootL rootR : value) (a b : list (list nat)) : Prop :=
  forall enc : Encoder,
    writeFields rec key rootL a enc = writeFields rec key rootR b enc.

Definition listsAlike (rec : Key -> value -> M unit) (key : Key)
    (rootL rootR : value) (a b : fieldLists) : Prop :=
  fieldsAlike rec key rootL rootR (fst a) (fst b) /\
  fieldsAlike rec key rootL rootR (snd a) (snd b).

(** ** The kinds of the values *)

(** The kinds that [encode] writes as a key-value line without looking into
    the value. *)
Definition leafKind (k : Kind) : bool :=
  match k with
  | reflect.Bool
  | reflect.Int | reflect.Int8 | reflect.Int16 | reflect.Int32
  | reflect.Int64
  | reflect.Uint | reflect.Uint8 | reflect.Uint16 | reflect.Uint32
  | reflect.Uint64
  | reflect.Float32 | reflect.Float64 | reflect.String => true
  | _ => false
  end.

(** ** What [encode] makes of an entry *)

(** The five things [encode] does with a value under a key: it writes
    nothing (a nil pointer, interface or map), it writes a key-value line
    with [keyEqElement], a table with [eTable], an array of tables with
    [eArrayOfTables], or it panics before it writes. *)
Inductive form : Type := Nothing | Line | Table | Tables | Refused.

(** The switch of [encode] with the names of the branches in place of the
    calls; [None] when the fuel does not reach the value under the pointers
    and interfaces.  [does] below ties it to [encode]. *)
Fixpoint writtenAs (fuel : nat) (rv : value) : option form :=
  match fuel with
  | O => None
  | S fuel' =>
      if negb (IsValid rv) then Some Refused
      else
        match Interface_type rv with
        | IsTime _ | IsTextMarshaler _ => Some Line
        | IsPlain =>
            match Kind_of rv with
            | reflect.Int | reflect.Int8 | reflect.Int16 | reflect.Int32
            | reflect.Int64
            | reflect.Uint | reflect.Uint8 | reflect.Uint16 | reflect.Uint32
            | reflect.Uint64
            | reflect.Float32 | reflect.Float64 | reflect.String
            | reflect.Bool => Some Line
            | reflect.Array | reflect.Slice =>
                match tomlTypeOfGo fuel' rv with
                | Ret t =>
                    Some (if typeEqual (Some tomlArrayHash) t then Tables
                          else Line)
                | Throw _ => Some Refused
                | NoFuel => None
                end
            | reflect.Interface | reflect.Ptr =>
                if IsNil rv then Some Nothing else writtenAs fuel' (Elem rv)
            | reflect.Map => if IsNil rv then Some Nothing else Some Table
            | reflect.Struct => Some Table
            | _ => Some Refused
            end
        end
  end.

(** [encode] does with the value what the form names: it returns and
    leaves the encoder as it was, it is a call of [keyEqElement], of [eTable]
    or of [eArrayOfTables] on the key path (with the value under the
    pointers and interfaces), or it panics and leaves the encoder as it
    was. *)
Definition does (s : form) (fuel : nat) (key : Key) (rv : value) : Prop :=
  match s with
  | Nothing => forall enc, encode fuel key rv enc = Done tt enc
  | Line =>
      exists f v, forall enc,
        encode fuel key rv enc = keyEqElement f key v enc
  | Table =>
      exists f v, forall enc,
        encode fuel key rv enc = eTable f (encode f) key v enc
  | Tables =>
      exists f v, forall enc,
        encode fuel key rv enc = eArrayOfTables f (encode f) key v enc
  | Refused => exists p, forall enc, encode fuel key rv enc = Panicked p enc
  end.

(** The entry is written as a table or as an array of tables. *)
Definition isTable (s : option form) : bool :=
  match s with
  | Some Table | Some Tables => true
  | _ => false
  end.

(** The values that implement [TextMarshaler] are structs, here and under
    the pointers and interfaces of the value.  [tomlTypeOfGo] looks for a
    [TextMarshaler] among the structs only, [encode] in every value. *)
Fixpoint marshalsAsStruct (v : value) : bool :=
  match v with
  | VMarshaler _ x => reflect.Kind_eqb (Kind_of x) reflect.Struct
  | VPtr (Some x) | VInterface (Some x) => marshalsAsStruct x
  | _ => true
  end.

(** ** The entries of a map in the order of the document *)




(** ** The fields of a struct in the order of the document *)

(** The field is given to [encode]: it is exported, its value is not nil
    and its [toml] tag is not [-]. *)
Definition writtenField (fv : StructField * value) : bool :=
  String.eqb (PkgPath (fst fv)) "" && negb (isNil (snd fv)) &&
  negb (String.eqb (Tag_Get (Tag (fst fv)) "toml") "-").

(** The key of a field: its [toml] tag, or its name when it has none. *)
Definition fieldKey (f : StructField) : string :=
  if String.eqb (Tag_Get (Tag f) "toml") "" then Name f
  else Tag_Get (Tag f) "toml".

(** The written fields that are not tables, in the order of the list, and
    those that are. *)
Definition lineFields (fuel : nat) (fields : list (StructField * value))
    : list (StructField * value) :=
  List.filter
    (fun fv => writtenField fv && negb (isTable (writtenAs fuel (snd fv))))
    fields.

Definition tableFields (fuel : nat) (fields : list (StructField * value))
    : list (StructField * value) :=
  List.filter
    (fun fv => writtenField fv && isTable (writtenAs fuel (snd fv)))
    fields.

(** The fields, one after the other, each given to [rec] under the key path
    of the struct with the key of the field added, after its modifier is
    set. *)
Fixpoint emitFields (rec : Key -> value -> M unit) (key : Key)
    (fields : list (StructField * value)) : M unit :=
  match fields with
  | [] => ret tt
  | fv :: rest =>
      ((set_modifier (fieldModifier (fst fv) (snd fv)) ;;
        rec (Key_add key (fieldKey (fst fv))) (snd fv)) ;;
       emitFields rec key rest)%enc
  end.

(** ** Embedded structs, one level deep *)

(** An exported field is not embedded. *)
Definition notEmbedded (fv : StructField * value) : Prop :=
  PkgPath (fst fv) = "" -> Anonymous (fst fv) = false.

(** The fields that stand for a field when embedded structs are written out:
    for an exported embedded field whose value is a struct or a pointer to a
    struct, the fields of that struct; for any other field, the field. *)
Definition spliceField (fv : StructField * value)
    : list (StructField * value) :=
  if String.eqb (PkgPath (fst fv)) "" && Anonymous (fst fv)
  then
    match snd fv with
    | VStruct gs | VPtr (Some (VStruct gs)) => gs
    | _ => [fv]
    end
  else [fv].

Definition splice (fields : list (StructField * value))
    : list (StructField * value) :=
  List.flat_map spliceField fields.


(** * Properties *)

(** ** Byte strings *)

Module BytesFacts.

Lemma append_assoc (a b c : string) : (a ++ b) ++ c = a ++ (b ++ c).
Proof. induction a as [|x a IH]; simpl; [reflexivity | now rewrite IH]. Qed.

Lemma append_nil_r (a : string) : a ++ "" = a.
Proof. induction a as [|x a IH]; simpl; [reflexivity | now rewrite IH]. Qed.

Lemma length_append (a b : string) :
  String.length (a ++ b) = String.length a + String.length b.
Proof. induction a as [|x a IH]; simpl; [reflexivity | now rewrite IH]. Qed.

Lemma append_inv_head (a b c : string) : a ++ b = a ++ c -> b = c.
Proof.
  induction a as [|x a IH]; simpl; intros H; [assumption|].
  injection H as H. now apply IH.
Qed.

Lemma append_inv_tail (a b c : string) : a ++ c = b ++ c -> a = b.
Proof.
  revert b. induction a as [|x a IH]; intros [|y b] H; simpl in H.
  - reflexivity.
  - apply (f_equal String.length) in H. simpl in H.
    rewrite length_append in H. lia.
  - apply (f_equal String.length) in H. simpl in H.
    rewrite length_append in H. lia.
  - injection H as -> H. f_equal. now apply IH.
Qed.

Lemma occurs_append (c : ascii) (a b : string) :
  Bytes.occurs c (a ++ b) = (Bytes.occurs c a || Bytes.occurs c b)%bool.
Proof.
  induction a as [|x a IH]; simpl; [reflexivity|].
  destruct (Ascii.eqb c x); [reflexivity | exact IH].
Qed.

Lemma count_append (c : ascii) (a b : string) :
  Bytes.count c (a ++ b) = Bytes.count c a + Bytes.count c b.
Proof. induction a as [|x a IH]; simpl; [reflexivity | rewrite IH; lia]. Qed.

Lemma count_occurs (c : ascii) (s : string) :
  Bytes.occurs c s = false <-> Bytes.count c s = 0.
Proof.
  induction s as [|x s IH]; simpl; [tauto|].
  destruct (Ascii.eqb c x); simpl; [split; [discriminate | lia] | exact IH].
Qed.

Lemma occurs_repeat (c : ascii) (s : string) (n : nat) :
  Bytes.occurs c s = false -> Bytes.occurs c (Bytes.repeat s n) = false.
Proof.
  intros H. induction n as [|n IH]; simpl; [reflexivity|].
  now rewrite occurs_append, H, IH.
Qed.

Lemma all_append (p : ascii -> bool) (a b : string) :
  Bytes.all p (a ++ b) = (Bytes.all p a && Bytes.all p b)%bool.
Proof.
  induction a as [|x a IH]; simpl; [reflexivity|].
  now rewrite IH, andb_assoc.
Qed.

Lemma all_occurs (p : ascii -> bool) (c : ascii) (s : string) :
  p c = false -> Bytes.all p s = true -> Bytes.occurs c s = false.
Proof.
  intros Hc. induction s as [|x s IH]; simpl; [reflexivity|].
  intros H. apply andb_true_iff in H as [Hx Hs].
  destruct (Ascii.eqb_spec c x) as [->|_]; [congruence | now apply IH].
Qed.

Lemma all_take (p : ascii -> bool) (n : nat) (s : string) :
  Bytes.all p s = true -> Bytes.all p (Bytes.take n s) = true.
Proof.
  revert s. induction n as [|n IH]; intros [|x s]; simpl; try reflexivity.
  intros H. apply andb_true_iff in H as [Hx Hs].
  now rewrite Hx, IH.
Qed.

Lemma all_repeat (p : ascii -> bool) (s : string) (n : nat) :
  Bytes.all p s = true -> Bytes.all p (Bytes.repeat s n) = true.
Proof.
  intros H. induction n as [|n IH]; simpl; [reflexivity|].
  now rewrite all_append, H, IH.
Qed.

Lemma all_get (p : ascii -> bool) (n : nat) (s : string) (c : ascii) :
  Bytes.all p s = true -> String.get n s = Some c -> p c = true.
Proof.
  revert n. induction s as [|x s IH]; intros n H Hg; simpl in *;
    [discriminate|].
  apply andb_true_iff in H as [Hx Hs].
  destruct n as [|n]; [injection Hg as <-; exact Hx | eauto].
Qed.

Lemma all_digits (d : Decimal.uint) :
  Bytes.all Bytes.is_digit (NilEmpty.string_of_uint d) = true.
Proof. induction d; simpl; try rewrite IHd; reflexivity. Qed.

Lemma all_digits_NilZero (d : Decimal.uint) :
  Bytes.all Bytes.is_digit (NilZero.string_of_uint d) = true.
Proof.
  unfold NilZero.string_of_uint.
  destruct d; try reflexivity; exact (all_digits _).
Qed.

End BytesFacts.

(** ** A format without a percent sign prints as it is *)

Module fmtFacts.

Import BytesFacts.

Lemma doPrintf_plain (format : string) (fuel : nat) :
  String.length format <= fuel ->
  Bytes.occurs fmt.percent format = false ->
  fmt.doPrintf fuel format = format.
Proof.
  revert fuel. induction format as [|c r IH]; intros fuel Hlen Hocc.
  - destruct fuel; reflexivity.
  - destruct fuel as [|fuel]; simpl in Hlen; [lia|].
    cbn [Bytes.occurs] in Hocc. cbn [fmt.doPrintf].
    rewrite Ascii.eqb_sym.
    destruct (Ascii.eqb fmt.percent c) eqn:E; [discriminate Hocc|].
    rewrite IH; [reflexivity | lia | exact Hocc].
Qed.

Lemma Sprintf0_plain (format : string) :
  Bytes.occurs fmt.percent format = false -> fmt.Sprintf0 format = format.
Proof. intros H. apply doPrintf_plain; [apply le_n | exact H]. Qed.

Lemma digits_plain (s : string) :
  Bytes.all Bytes.is_digit s = true -> Bytes.occurs fmt.percent s = false.
Proof. apply all_occurs. reflexivity. Qed.

End fmtFacts.

(** ** Numbers: the literals of floats and integers *)

Module NumberFacts.

Import BytesFacts.

Lemma Contains_dot (s : string) :
  strings.Contains s "." = Bytes.occurs Bytes.dot s.
Proof.
  induction s as [|c s IH]; [reflexivity|].
  cbn [strings.Contains String.prefix Bytes.occurs].
  change "."%char with Bytes.dot.
  destruct (ascii_dec Bytes.dot c) as [<-|Hne].
  - rewrite Ascii.eqb_refl. destruct s; reflexivity.
  - apply Ascii.eqb_neq in Hne. rewrite Hne. exact IH.
Qed.

Lemma digits_no_dot (s : string) :
  Bytes.all Bytes.is_digit s = true -> Bytes.count Bytes.dot s = 0.
Proof.
  intros H. apply count_occurs. revert H. apply all_occurs. reflexivity.
Qed.

Lemma fraction_digits (d : string) (prec : nat) (dp : Z) :
  Bytes.all Bytes.is_digit d = true ->
  Bytes.all Bytes.is_digit (strconv.fraction d dp prec) = true.
Proof.
  intros Hd. revert dp. induction prec as [|prec IH]; intros dp; [reflexivity|].
  cbn [strconv.fraction Bytes.all]. rewrite IH, andb_true_r.
  destruct (0 <=? dp)%Z; [|reflexivity].
  unfold Bytes.nth.
  destruct (String.get (Z.to_nat dp) d) as [c|] eqn:Hg; [|reflexivity].
  exact (all_get _ _ _ _ Hd Hg).
Qed.

(** The integer part of [fmtF] is made of digits. *)
Lemma integer_part_digits (d : string) (dp : Z) :
  Bytes.all Bytes.is_digit d = true ->
  Bytes.all Bytes.is_digit
    (if (0 <? dp)%Z
     then Bytes.take (Nat.min (String.length d) (Z.to_nat dp)) d ++
          Bytes.repeat "0"
            (Z.to_nat dp - Nat.min (String.length d) (Z.to_nat dp))
     else "0") = true.
Proof.
  intros Hd. destruct (0 <? dp)%Z; [|reflexivity].
  rewrite all_append, all_take, all_repeat; auto.
Qed.

Lemma sign_no_dot (neg : bool) :
  Bytes.count Bytes.dot (if neg then "-" else "") = 0.
Proof. destruct neg; reflexivity. Qed.

Lemma sign_plain (neg : bool) (c : ascii) :
  Bytes.is_digit c = false -> c <> "-"%char ->
  Bytes.occurs c (if neg then "-" else "") = false.
Proof.
  intros _ Hc. destruct neg; [|reflexivity].
  cbn [Bytes.occurs]. apply Ascii.eqb_neq in Hc. now rewrite Hc.
Qed.

(** [fmtF] prints a decimal point exactly when it prints a fraction. *)
Lemma fmtF_dots (neg : bool) (d : string) (dp : Z) (prec : nat) :
  Bytes.all Bytes.is_digit d = true ->
  Bytes.count Bytes.dot (strconv.fmtF neg d dp prec) =
  match prec with O => 0 | S _ => 1 end.
Proof.
  intros Hd. unfold strconv.fmtF.
  rewrite !count_append, sign_no_dot.
  rewrite (digits_no_dot _ (integer_part_digits d dp Hd)).
  destruct prec as [|prec]; [reflexivity|].
  rewrite count_append, (digits_no_dot _ (fraction_digits d (S prec) dp Hd)).
  reflexivity.
Qed.

Lemma fmtF_plain (neg : bool) (d : string) (dp : Z) (prec : nat) :
  Bytes.all Bytes.is_digit d = true ->
  Bytes.occurs fmt.percent (strconv.fmtF neg d dp prec) = false.
Proof.
  intros Hd. unfold strconv.fmtF.
  rewrite !occurs_append.
  rewrite (fmtFacts.digits_plain _ (integer_part_digits d dp Hd)).
  rewrite sign_plain by (reflexivity || discriminate).
  destruct prec as [|prec]; [reflexivity|].
  rewrite occurs_append.
  rewrite (fmtFacts.digits_plain _ (fraction_digits d (S prec) dp Hd)).
  reflexivity.
Qed.

Lemma FormatFloat_dots (f : strconv.float) :
  Bytes.count Bytes.dot (strconv.FormatFloat f) <= 1.
Proof.
  destruct f as [|neg|neg d dp]; cbn [strconv.FormatFloat].
  - cbn. lia.
  - destruct neg; cbn; lia.
  - rewrite fmtF_dots by apply all_digits.
    destruct (Z.to_nat _); lia.
Qed.

Lemma FormatFloat_plain (f : strconv.float) :
  Bytes.occurs fmt.percent (strconv.FormatFloat f) = false.
Proof.
  destruct f as [|neg|neg d dp]; cbn [strconv.FormatFloat].
  - reflexivity.
  - destruct neg; reflexivity.
  - apply fmtF_plain, all_digits.
Qed.

Lemma floatAddDecimal_dots (fstr : string) :
  Bytes.count Bytes.dot fstr <= 1 ->
  Bytes.count Bytes.dot (floatAddDecimal fstr) = 1.
Proof.
  intros H. unfold floatAddDecimal. rewrite Contains_dot.
  destruct (Bytes.occurs Bytes.dot fstr) eqn:Hocc; cbn [negb].
  - destruct (Bytes.count Bytes.dot fstr) as [|[|n]] eqn:Hc; [|reflexivity|lia].
    apply count_occurs in Hc. congruence.
  - apply count_occurs in Hocc. rewrite count_append, Hocc. reflexivity.
Qed.

Lemma floatAddDecimal_plain (fstr : string) :
  Bytes.occurs fmt.percent fstr = false ->
  Bytes.occurs fmt.percent (floatAddDecimal fstr) = false.
Proof.
  intros H. unfold floatAddDecimal.
  destruct (negb _); [|exact H].
  rewrite occurs_append, H. reflexivity.
Qed.

Lemma FormatUint_digits (u : N) :
  Bytes.all Bytes.is_digit (strconv.FormatUint u) = true.
Proof. apply all_digits_NilZero. Qed.

Lemma FormatInt_dots (i : Z) : Bytes.count Bytes.dot (strconv.FormatInt i) = 0.
Proof.
  unfold strconv.FormatInt, NilZero.string_of_int.
  destruct (Z.to_int i) as [d|d]; cbn [Bytes.count];
    rewrite ?(digits_no_dot _ (all_digits_NilZero d)); reflexivity.
Qed.

Lemma FormatInt_plain (i : Z) :
  Bytes.occurs fmt.percent (strconv.FormatInt i) = false.
Proof.
  unfold strconv.FormatInt, NilZero.string_of_int.
  destruct (Z.to_int i) as [d|d]; cbn [Bytes.occurs];
    rewrite ?(fmtFacts.digits_plain _ (all_digits_NilZero d)); reflexivity.
Qed.

Lemma eElement_float (fuel : nat) (k : float_kind) (f : strconv.float)
    (enc : Encoder) :
  eElement (S fuel) (VFloat k f) enc =
    Done tt (written enc (floatAddDecimal (strconv.FormatFloat f))).
Proof.
  cbn [eElement]. unfold eElement_body.
  pose proof (fmtFacts.Sprintf0_plain _
                (floatAddDecimal_plain _ (FormatFloat_plain f))) as Hp.
  destruct k; cbn; unfold wf0, wf; rewrite Hp; reflexivity.
Qed.

Lemma eElement_int (fuel : nat) (k : int_kind) (i : Z) (enc : Encoder) :
  eElement (S fuel) (VInt k i) enc =
    Done tt (written enc (strconv.FormatInt i)).
Proof.
  cbn [eElement]. unfold eElement_body.
  destruct k; cbn; unfold wf0, wf;
    rewrite (fmtFacts.Sprintf0_plain _ (FormatInt_plain i)); reflexivity.
Qed.

Lemma eElement_uint (fuel : nat) (k : uint_kind) (u : N) (enc : Encoder) :
  eElement (S fuel) (VUint k u) enc =
    Done tt (written enc (strconv.FormatUint u)).
Proof.
  cbn [eElement]. unfold eElement_body.
  destruct k; cbn; unfold wf0, wf;
    rewrite (fmtFacts.Sprintf0_plain _
               (fmtFacts.digits_plain _ (FormatUint_digits u)));
    reflexivity.
Qed.

End NumberFacts.

(** C8.  The literal [eElement] writes for a float is the minimal decimal
    form that [strconv.FormatFloat] gives, with ".0" appended when that form
    has no decimal point, and it contains exactly one '.'; the literal
    written for a signed or an unsigned integer is its base-10 form and
    contains no '.'. *)
Theorem number_literals_decimal_point :
  (forall (fuel : nat) (k : float_kind) (f : strconv.float) (enc : Encoder),
      let fstr := strconv.FormatFloat f in
      let literal := floatAddDecimal fstr in
      eElement (S fuel) (VFloat k f) enc = Done tt (written enc literal) /\
      literal = (if Bytes.occurs Bytes.dot fstr then fstr else fstr ++ ".0") /\
      Bytes.count Bytes.dot literal = 1) /\
  (forall (fuel : nat) (k : int_kind) (i : Z) (enc : Encoder),
      eElement (S fuel) (VInt k i) enc =
        Done tt (written enc (strconv.FormatInt i)) /\
      Bytes.count Bytes.dot (strconv.FormatInt i) = 0) /\
  (forall (fuel : nat) (k : uint_kind) (u : N) (enc : Encoder),
      eElement (S fuel) (VUint k u) enc =
        Done tt (written enc (strconv.FormatUint u)) /\
      Bytes.count Bytes.dot (strconv.FormatUint u) = 0).
Proof.
  split; [|split].
  - intros fuel k f enc fstr literal. split; [|split].
    + apply NumberFacts.eElement_float.
    + unfold literal, floatAddDecimal. rewrite NumberFacts.Contains_dot.
      destruct (Bytes.occurs Bytes.dot fstr); reflexivity.
    + apply NumberFacts.floatAddDecimal_dots, NumberFacts.FormatFloat_dots.
  - intros fuel k i enc.
    split; [apply NumberFacts.eElement_int | apply NumberFacts.FormatInt_dots].
  - intros fuel k u enc. split; [apply NumberFacts.eElement_uint|].
    apply NumberFacts.digits_no_dot, NumberFacts.FormatUint_digits.
Qed.

(** ** Key-value lines *)

Module LineFacts.

Import BytesFacts.

Lemma written_written (enc : Encoder) (a b : string) :
  written (written enc a) b = written enc (a ++ b).
Proof. unfold written; cbn. now rewrite append_assoc. Qed.

Lemma newline_written (enc : Encoder) (a : string) :
  newline (written enc a) = Done tt (written enc (a ++ Bytes.str Bytes.lf)).
Proof.
  unfold newline, bind, get.
  change (hasWritten (written enc a)) with true. cbv iota.
  unfold wf0, wf.
  change (fmt.Sprintf0 (Bytes.str Bytes.lf)) with (Bytes.str Bytes.lf).
  now rewrite written_written.
Qed.

Lemma lastSegment_snoc (key : Key) (k : string) :
  lastSegment (key ++ [k])%list = Ret k.
Proof. unfold lastSegment. now rewrite List.rev_app_distr. Qed.

Lemma isValidKeyName_iff (k : string) : isValidKeyName k = true <-> k <> "".
Proof. destruct k; cbn; split; congruence. Qed.

Lemma panicIfInvalidKey_leaf (key : Key) (k : string) :
  k <> "" -> panicIfInvalidKey (key ++ [k])%list false = Ret tt.
Proof.
  intros Hk. unfold panicIfInvalidKey. rewrite lastSegment_snoc.
  cbn [res_bind]. apply isValidKeyName_iff in Hk. now rewrite Hk.
Qed.

Lemma indentStr_snoc (key : Key) (k : string) (enc : Encoder) :
  indentStr (key ++ [k])%list enc =
    Done (strings.Repeat (Indent enc) (List.length key)) enc.
Proof.
  unfold indentStr.
  destruct key as [|x key]; cbn; [reflexivity|].
  rewrite List.length_app. cbn. now rewrite Nat.add_1_r.
Qed.

(** A key whose last segment is not empty passes the validation of
    [keyEqElement], which then writes the indentation and that segment. *)
Lemma keyEqElement_snoc (fuel : nat) (key : Key) (k : string) (val : value)
    (enc : Encoder) :
  k <> "" ->
  keyEqElement fuel (key ++ [k])%list val enc =
    (wf (strings.Repeat (Indent enc) (List.length key) ++ k ++ " = ") ;;
     modifiedElement fuel val ;;
     newline ;;
     set_modifier MOD_NONE)%enc enc.
Proof.
  intros Hk. unfold keyEqElement.
  destruct (key ++ [k])%list as [|x rest] eqn:E.
  - now destruct key.
  - rewrite <- E. unfold bind at 1.
    rewrite (panicIfInvalidKey_leaf key k Hk). cbn [lift].
    unfold bind at 1. rewrite indentStr_snoc.
    unfold bind at 1. rewrite lastSegment_snoc. cbn [lift].
    reflexivity.
Qed.

Lemma quotedMarker_plain : fmt.Sprintf0 quotedMarker = quotedMarker.
Proof. reflexivity. Qed.

Lemma rawMarker_plain : fmt.Sprintf0 rawMarker = rawMarker.
Proof. reflexivity. Qed.

(** The replacer leaves no line feed and brings in no percent sign. *)
Lemma lookup_quoted (c : ascii) :
  Bytes.occurs Bytes.lf (strings.lookup quotedReplacer c) = false /\
  (c <> fmt.percent ->
   Bytes.occurs fmt.percent (strings.lookup quotedReplacer c) = false).
Proof.
  unfold quotedReplacer. cbn [strings.lookup].
  destruct (Ascii.eqb_spec c Bytes.tab); [split; reflexivity|].
  destruct (Ascii.eqb_spec c Bytes.lf); [split; reflexivity|].
  destruct (Ascii.eqb_spec c Bytes.cr); [split; reflexivity|].
  destruct (Ascii.eqb_spec c Bytes.dquote); [split; reflexivity|].
  destruct (Ascii.eqb_spec c Bytes.backslash); [split; reflexivity|].
  unfold Bytes.str. cbn [Bytes.occurs]. split.
  - rewrite Ascii.eqb_sym.
    destruct (Ascii.eqb_spec c Bytes.lf); [contradiction | reflexivity].
  - intros Hc. rewrite Ascii.eqb_sym.
    destruct (Ascii.eqb_spec c fmt.percent); [contradiction | reflexivity].
Qed.

Lemma Replace_quoted_no_lf (s : string) :
  Bytes.occurs Bytes.lf (strings.Replace quotedReplacer s) = false.
Proof.
  unfold strings.Replace. induction s as [|c s IH]; [reflexivity|].
  cbn [Bytes.flat_map]. rewrite occurs_append, IH.
  now rewrite (proj1 (lookup_quoted c)).
Qed.

Lemma Replace_quoted_plain (s : string) :
  Bytes.occurs fmt.percent s = false ->
  Bytes.occurs fmt.percent (strings.Replace quotedReplacer s) = false.
Proof.
  unfold strings.Replace. induction s as [|c s IH]; [reflexivity|].
  cbn [Bytes.flat_map Bytes.occurs]. intros H.
  destruct (Ascii.eqb_spec fmt.percent c) as [|Hc]; [discriminate|].
  rewrite occurs_append, (IH H).
  rewrite (proj2 (lookup_quoted c)) by congruence. reflexivity.
Qed.

End LineFacts.

(** C10.  The validation of a leaf key ([hash = false]) looks at the last
    segment only and rejects it only when it is empty: a key whose last
    segment [k] is not empty passes whatever bytes [k] and the segments
    before it hold, [keyEqElement] then writes the indentation, [k] as it is
    and " = " before the value (for an integer: the whole line), and the
    empty segment is refused; the test for '[', ']' and '.' is made on the
    segments of a table path ([hash = true]), all of which must pass
    [isValidTableName]. *)
Theorem leaf_key_rejects_only_empty (fuel : nat) (key : Key) (k : string)
    (val : value) (enc : Encoder) :
  k <> "" ->
  panicIfInvalidKey (key ++ [k])%list false = Ret tt /\
  keyEqElement fuel (key ++ [k])%list val enc =
    (wf (strings.Repeat (Indent enc) (List.length key) ++ k ++ " = ") ;;
     modifiedElement fuel val ;;
     newline ;;
     set_modifier MOD_NONE)%enc enc /\
  (forall (ik : int_kind) (i : Z),
      modifier enc = MOD_NONE ->
      keyEqElement (S fuel) (key ++ [k])%list (VInt ik i) enc =
        Done tt
          (with_modifier
             (written enc
                (strings.Repeat (Indent enc) (List.length key) ++ k ++ " = " ++
                 strconv.FormatInt i ++ Bytes.str Bytes.lf))
             MOD_NONE)) /\
  panicIfInvalidKey (key ++ [""])%list false =
    encPanicR
      (e ("Key '" ++ Key_String (key ++ [""])%list ++ "' is not a name. " ++
          "Key names cannot contain whitespace.")) /\
  (forall table : Key,
      panicIfInvalidKey table true = Ret tt <->
      Forall (fun s => s <> "" /\ Bytes.occurs "[" s = false /\
                       Bytes.occurs "]" s = false /\
                       Bytes.occurs "." s = false) table).
Proof.
  intros Hk. split; [|split; [|split; [|split]]].
  - exact (LineFacts.panicIfInvalidKey_leaf key k Hk).
  - exact (LineFacts.keyEqElement_snoc fuel key k val enc Hk).
  - intros ik i Hm.
    rewrite (LineFacts.keyEqElement_snoc (S fuel) key k _ enc Hk).
    unfold bind at 1. unfold wf at 1.
    unfold bind at 1. unfold modifiedElement, bind at 1, get.
    change (modifier (written enc ?a)) with (modifier enc). rewrite Hm.
    cbn [String.eqb MOD_NONE MOD_MULTILINE_STRING MOD_MULTILINE_RAWSTRING].
    rewrite NumberFacts.eElement_int.
    rewrite LineFacts.written_written.
    unfold bind at 1. rewrite LineFacts.newline_written.
    cbn [set_modifier]. unfold set_modifier.
    now rewrite !BytesFacts.append_assoc.
  - unfold panicIfInvalidKey. rewrite LineFacts.lastSegment_snoc. reflexivity.
  - intros table. unfold panicIfInvalidKey.
    induction table as [|s table IH]; cbn [List.forallb].
    + split; [constructor | reflexivity].
    + unfold isValidTableName at 1.
      destruct s as [|c s]; cbn [String.length Nat.eqb andb].
      * split; [discriminate|]. intros H. inversion H as [|? ? [Hs _] _].
        now contradiction Hs.
      * destruct (Bytes.occurs "[" (String c s)) eqn:E1;
        destruct (Bytes.occurs "]" (String c s)) eqn:E2;
        destruct (Bytes.occurs "." (String c s)) eqn:E3;
        cbn [orb negb andb];
        try (split; [discriminate|]; intros H;
             inversion H as [|? ? (_ & H1 & H2 & H3) _]; congruence).
        destruct (List.forallb isValidTableName table) eqn:Et.
        -- split; [|reflexivity]. intros _. constructor.
           ++ repeat split; congruence.
           ++ now apply IH.
        -- split; [discriminate|]. intros H.
           inversion H as [|? ? _ Ht]. apply IH in Ht. discriminate.
Qed.

Lemma leaf_key_rejects_only_empty_witness :
  "a key [with] dots. and spaces" <> "" /\
  panicIfInvalidKey ["x.y"; "a key [with] dots. and spaces"] false = Ret tt.
Proof.
  split; [discriminate|].
  apply (leaf_key_rejects_only_empty 1 ["x.y"] "a key [with] dots. and spaces"
           (VInt KInt 1) NewEncoder).
  discriminate.
Defined.

Module MultilineFacts.

Import BytesFacts LineFacts.

(** [writeMultiLineString] on a string that holds no percent sign: the
    marker, the body and the marker again. *)
Lemma writeMultiLineString_plain (s : string) (raw : bool) (enc : Encoder) :
  Bytes.occurs fmt.percent s = false ->
  writeMultiLineString s raw enc =
    Done tt
      (written enc
         (if raw then rawMarker ++ (s ++ " ") ++ rawMarker
          else quotedMarker ++ strings.Replace quotedReplacer s ++
               quotedMarker)).
Proof.
  intros Hs. unfold writeMultiLineString, bind, wf0, wf.
  destruct raw.
  - rewrite rawMarker_plain.
    rewrite (fmtFacts.Sprintf0_plain (s ++ " "))
      by (rewrite occurs_append, Hs; reflexivity).
    now rewrite !written_written.
  - rewrite quotedMarker_plain.
    rewrite (fmtFacts.Sprintf0_plain _ (Replace_quoted_plain s Hs)).
    now rewrite !written_written.
Qed.

(** The line [keyEqElement] writes when a multiline modifier is active. *)
Lemma keyEqElement_multiline (fuel : nat) (key : Key) (k : string)
    (val : value) (enc : Encoder) (raw : bool) :
  k <> "" ->
  modifier enc =
    (if raw then MOD_MULTILINE_RAWSTRING else MOD_MULTILINE_STRING) ->
  Bytes.occurs fmt.percent (String_of val) = false ->
  keyEqElement fuel (key ++ [k])%list val enc =
    Done tt
      (with_modifier
         (written enc
            (strings.Repeat (Indent enc) (List.length key) ++ k ++ " = " ++
             (if raw then rawMarker ++ (String_of val ++ " ") ++ rawMarker
              else quotedMarker ++
                   strings.Replace quotedReplacer (String_of val) ++
                   quotedMarker) ++
             Bytes.str Bytes.lf))
         MOD_NONE).
Proof.
  intros Hk Hm Hs. rewrite (keyEqElement_snoc fuel key k val enc Hk).
  unfold bind at 1. unfold wf at 1.
  unfold bind at 1. unfold modifiedElement, bind at 1, get.
  change (modifier (written enc ?a)) with (modifier enc). rewrite Hm.
  destruct raw.
  - change (String.eqb MOD_MULTILINE_RAWSTRING MOD_MULTILINE_STRING) with false.
    change (String.eqb MOD_MULTILINE_RAWSTRING MOD_MULTILINE_RAWSTRING)
      with true.
    cbv iota.
    rewrite (writeMultiLineString_plain _ true _ Hs), written_written.
    unfold bind at 1. rewrite newline_written. unfold set_modifier.
    now rewrite !append_assoc.
  - change (String.eqb MOD_MULTILINE_STRING MOD_MULTILINE_STRING) with true.
    cbv iota.
    rewrite (writeMultiLineString_plain _ false _ Hs), written_written.
    unfold bind at 1. rewrite newline_written. unfold set_modifier.
    now rewrite !append_assoc.
Qed.

End MultilineFacts.

(** C1, as the encoder has it.  A string entry written with the
    multiline-quoted modifier active, whose string holds no percent sign, is
    a block between two triple double quotes whose contents are the string
    escaped as [writeQuoted] escapes a single-line string, the line feed
    included: the block holds no line feed, a line feed of the string being
    written as a backslash and the letter n. *)
Theorem multiline_quoted_block_escapes_newline (fuel : nat) (key : Key)
    (k : string) (val : value) (enc : Encoder) :
  k <> "" ->
  Kind_of val = reflect.String ->
  modifier enc = MOD_MULTILINE_STRING ->
  Bytes.occurs fmt.percent (String_of val) = false ->
  let body := strings.Replace quotedReplacer (String_of val) in
  keyEqElement fuel (key ++ [k])%list val enc =
    Done tt
      (with_modifier
         (written enc
            (strings.Repeat (Indent enc) (List.length key) ++ k ++ " = " ++
             (quotedMarker ++ body ++ quotedMarker) ++ Bytes.str Bytes.lf))
         MOD_NONE) /\
  writeQuoted (String_of val) enc =
    Done tt
      (written enc
         (Bytes.str Bytes.dquote ++ body ++ Bytes.str Bytes.dquote)) /\
  Bytes.occurs Bytes.lf body = false /\
  strings.lookup quotedReplacer Bytes.lf = String Bytes.backslash "n".
Proof.
  intros Hk _ Hm Hs body. split; [|split; [|split]].
  - exact (MultilineFacts.keyEqElement_multiline fuel key k val enc false
             Hk Hm Hs).
  - reflexivity.
  - apply LineFacts.Replace_quoted_no_lf.
  - reflexivity.
Qed.

Lemma multiline_quoted_block_escapes_newline_witness :
  keyEqElement 0 ["S"] (VString (String "a" (String Bytes.lf "b")))
    (with_modifier NewEncoder MOD_MULTILINE_STRING) =
  Done tt
    (with_modifier
       (written (with_modifier NewEncoder MOD_MULTILINE_STRING)
          ("S = " ++
           (quotedMarker ++ ("a" ++ String Bytes.backslash "nb") ++
            quotedMarker) ++
           Bytes.str Bytes.lf))
       MOD_NONE).
Proof.
  apply (multiline_quoted_block_escapes_newline 0 [] "S"
           (VString (String "a" (String Bytes.lf "b")))
           (with_modifier NewEncoder MOD_MULTILINE_STRING));
    [discriminate | reflexivity | reflexivity | reflexivity].
Defined.

(** C2, as the encoder has it.  A string entry written with the
    multiline-raw modifier active, whose string holds no percent sign, is a
    block between two triple single quotes whose contents are the bytes of
    the string, not escaped, followed by one space. *)
Theorem multiline_raw_block_appends_space (fuel : nat) (key : Key)
    (k : string) (val : value) (enc : Encoder) :
  k <> "" ->
  Kind_of val = reflect.String ->
  modifier enc = MOD_MULTILINE_RAWSTRING ->
  Bytes.occurs fmt.percent (String_of val) = false ->
  keyEqElement fuel (key ++ [k])%list val enc =
    Done tt
      (with_modifier
         (written enc
            (strings.Repeat (Indent enc) (List.length key) ++ k ++ " = " ++
             (rawMarker ++ (String_of val ++ " ") ++ rawMarker) ++
             Bytes.str Bytes.lf))
         MOD_NONE).
Proof.
  intros Hk _ Hm Hs.
  exact (MultilineFacts.keyEqElement_multiline fuel key k val enc true
           Hk Hm Hs).
Qed.

Lemma multiline_raw_block_appends_space_witness :
  keyEqElement 0 ["S"] (VString "abc")
    (with_modifier NewEncoder MOD_MULTILINE_RAWSTRING) =
  Done tt
    (with_modifier
       (written (with_modifier NewEncoder MOD_MULTILINE_RAWSTRING)
          ("S = " ++ (rawMarker ++ ("abc" ++ " ") ++ rawMarker) ++
           Bytes.str Bytes.lf))
       MOD_NONE).
Proof.
  apply (multiline_raw_block_appends_space 0 [] "S" (VString "abc")
           (with_modifier NewEncoder MOD_MULTILINE_RAWSTRING));
    [discriminate | reflexivity | reflexivity | reflexivity].
Defined.

(** C1 fails on the encoder: the struct with the one field
    [S string `modifier:"multiline_string"`] holding the three bytes a,
    line feed, b is encoded with the escape sequence between the markers,
    and the block holds no line feed. *)
Lemma multiline_quoted_newline_counterexample :
  Bytes.occurs Bytes.lf (String "a" (String Bytes.lf "b")) = true /\
  document
    (Encode 3
       (VStruct
          [(mkField "S" "" false [("modifier", MOD_MULTILINE_STRING)],
            VString (String "a" (String Bytes.lf "b")))])
       NewEncoder) =
  Some ("S = " ++ quotedMarker ++ ("a" ++ String Bytes.backslash "nb") ++
        quotedMarker ++ Bytes.str Bytes.lf) /\
  Bytes.occurs Bytes.lf ("a" ++ String Bytes.backslash "nb") = false.
Proof. repeat split; vm_compute; reflexivity. Qed.

(** C2 fails on the encoder: the struct with the one field
    [S string `modifier:"multiline_rawstring"`] holding abc is encoded with
    four bytes between the markers, the string and a space. *)
Lemma multiline_raw_space_counterexample :
  document
    (Encode 3
       (VStruct
          [(mkField "S" "" false [("modifier", MOD_MULTILINE_RAWSTRING)],
            VString "abc")])
       NewEncoder) =
  Some ("S = " ++ rawMarker ++ "abc " ++ rawMarker ++ Bytes.str Bytes.lf) /\
  "abc " <> "abc".
Proof. split; [vm_compute; reflexivity | discriminate]. Qed.

(** C3 fails on the encoder: a fresh encoder has written nothing when the
    first header comes, so no line feed goes before it. *)
Lemma array_of_tables_counterexample :
  document (Encode 7 Scenario.arr_of_tables NewEncoder) =
    Some ("[[arr]]" ++ Scenario.lf ++ "  x = 1" ++ Scenario.lf ++ Scenario.lf ++
          "[[arr]]" ++ Scenario.lf ++ "  x = 2" ++ Scenario.lf) /\
  document (Encode 7 Scenario.arr_of_tables NewEncoder) <>
    Some (Scenario.lf ++
          "[[arr]]" ++ Scenario.lf ++ "  x = 1" ++ Scenario.lf ++ Scenario.lf ++
          "[[arr]]" ++ Scenario.lf ++ "  x = 2" ++ Scenario.lf).
Proof. split; [vm_compute; reflexivity | vm_compute; discriminate]. Qed.

(** C3, as the encoder has it.  Encoding the map
    [{"arr": [{"x": 1}, {"x": 2}]}] with a fresh encoder and the indentation
    of two spaces returns no error and writes exactly
    "[[arr]]\n  x = 1\n\n[[arr]]\n  x = 2\n": the document starts with the
    first header, and a blank line separates the second header from the
    first table.  This holds for the value built of interfaces and for the
    value of static type [map[string][]map[string]int], whatever fuel above
    7 the model is given. *)
Theorem array_of_tables_document (k : nat) :
  Indent NewEncoder = "  " /\
  document (Encode (7 + k) Scenario.arr_of_tables NewEncoder) =
    Some ("[[arr]]" ++ Scenario.lf ++ "  x = 1" ++ Scenario.lf ++ Scenario.lf ++
          "[[arr]]" ++ Scenario.lf ++ "  x = 2" ++ Scenario.lf) /\
  document (Encode (7 + k) Scenario.arr_of_tables_typed NewEncoder) =
    Some ("[[arr]]" ++ Scenario.lf ++ "  x = 1" ++ Scenario.lf ++ Scenario.lf ++
          "[[arr]]" ++ Scenario.lf ++ "  x = 2" ++ Scenario.lf).
Proof. repeat split; vm_compute; reflexivity. Qed.

(** C4 fails on the encoder: the error of the array
    [[[1,2],[{"x":1}]]] inside a map is the one for mixed element types. *)
Lemma ints_then_tables_counterexample :
  failure
    (Encode 9
       (Scenario.table [("a", Scenario.iface Scenario.ints_then_tables)])
       NewEncoder) = Some errArrayMixedElementTypes /\
  errArrayMixedElementTypes <> errArrayNoTable.
Proof. split; [vm_compute; reflexivity | discriminate]. Qed.

(** C4, as the encoder has it.  Encoding a map that holds the array
    [[[1,2],[{"x":1}]]] fails with the error for mixed element types
    ("can't encode array with mixed element types"): the first element is an
    array and the second is an array of tables, and [tomlArrayType] compares
    the kinds of the elements before it looks into a nested array.  The
    array [[[{"x":1}]]], all of whose elements are arrays of tables, fails
    with the error for a table inside an array element.  Nothing is written
    in either case. *)
Theorem ints_then_tables_error (k : nat) :
  tomlTypeOfGo (5 + k) (Index Scenario.ints_then_tables 0) =
    Ret (Some tomlArray) /\
  tomlTypeOfGo (5 + k) (Index Scenario.ints_then_tables 1) =
    Ret (Some tomlArrayHash) /\
  tomlArrayType (6 + k) Scenario.ints_then_tables =
    Throw (tomlEncodeError errArrayMixedElementTypes) /\
  Encode (9 + k)
    (Scenario.table [("a", Scenario.iface Scenario.ints_then_tables)])
    NewEncoder = Done (Some errArrayMixedElementTypes) NewEncoder /\
  Error errArrayMixedElementTypes =
    "can't encode array with mixed element types" /\
  Encode (9 + k)
    (Scenario.table [("a", Scenario.iface Scenario.nested_tables)])
    NewEncoder = Done (Some errArrayNoTable) NewEncoder /\
  Error errArrayNoTable = "TOML array element can't contain a table".
Proof. repeat split; vm_compute; reflexivity. Qed.

(** ** Arrays: the scan of [tomlArrayType] *)

Module ArrayFacts.

Lemma Kind_of_plain (rv : value) : Kind_of (plain rv) = Kind_of rv.
Proof. induction rv; cbn; auto. Qed.

Lemma plain_idem (rv : value) : plain (plain rv) = plain rv.
Proof. induction rv; cbn; auto. Qed.

Lemma plain_not_marshaler (rv : value) (text : string + error) (v : value) :
  plain rv <> VMarshaler text v.
Proof. induction rv; cbn; auto; discriminate. Qed.

(** An array, or a slice that is not nil, is valid and has the length of the
    list of its elements. *)
Lemma array_like (rv : value) :
  Kind_of rv = reflect.Array \/ Kind_of rv = reflect.Slice ->
  isNil rv = false ->
  IsValid rv = true /\ Len rv = Some (List.length (Elems rv)).
Proof.
  intros Hk Hn. unfold isNil in Hn. unfold IsValid, Len, Elems.
  unfold IsNil in Hn. rewrite <- Kind_of_plain in Hk, Hn.
  pose proof (plain_not_marshaler rv) as Hm.
  destruct (plain rv) as [| | | | | | l | [l|] | | | | | | |[]];
    cbn in Hk, Hn |- *; try (destruct Hk; discriminate); auto;
    try discriminate.
  - destruct k; destruct Hk; discriminate.
  - destruct k; destruct Hk; discriminate.
  - destruct k; destruct Hk; discriminate.
  - exfalso. eapply Hm. reflexivity.
Qed.

Lemma tomlBaseType_eqb_eq (a b : tomlBaseType) :
  tomlBaseType_eqb a b = true <-> a = b.
Proof. destruct a, b; cbn; split; congruence. Qed.

Lemma typeEqual_same (t : tomlBaseType) : typeEqual (Some t) (Some t) = true.
Proof. cbn. now apply tomlBaseType_eqb_eq. Qed.

Lemma typeEqual_differ (t t0 : tomlBaseType) :
  t <> t0 -> typeEqual (Some t0) (Some t) = false.
Proof.
  intros H. cbn. destruct (tomlBaseType_eqb t0 t) eqn:E; [|reflexivity].
  apply tomlBaseType_eqb_eq in E. congruence.
Qed.

(** The loop over the elements stops at the first element that is not of the
    first type. *)
Lemma checkElems_stops (classify : value -> res tomlType) (t0 : tomlBaseType)
    (pre post : list value) (ei : value) :
  Forall (fun x => classify x = Ret (Some t0)) pre ->
  checkElems classify (Some t0) (pre ++ ei :: post) =
    match classify ei with
    | Ret None => encPanicR errArrayNilElement
    | Ret (Some t) =>
        if negb (typeEqual (Some t0) (Some t))
        then encPanicR errArrayMixedElementTypes
        else checkElems classify (Some t0) post
    | Throw p => Throw p
    | NoFuel => NoFuel
    end.
Proof.
  induction 1 as [|x pre Hx _ IH]; cbn [checkElems List.app].
  - destruct (classify ei) as [[t|]| |]; reflexivity.
  - rewrite Hx. cbn [res_bind]. rewrite typeEqual_same. exact IH.
Qed.

(** One step of [tomlArrayType] on an array that is not empty. *)
Lemma tomlArrayType_step (fuel : nat) (rv e0 : value) (rest : list value) :
  Kind_of rv = reflect.Array \/ Kind_of rv = reflect.Slice ->
  isNil rv = false ->
  Elems rv = e0 :: rest ->
  tomlArrayType (S fuel) rv =
    (firstType <- tomlTypeOfGo fuel e0 ;;
     match firstType with
     | None => encPanicR errArrayNilElement
     | Some _ =>
         _ <- checkElems (tomlTypeOfGo fuel) firstType rest ;;
         if (typeEqual firstType (Some tomlArray) ||
             typeEqual firstType (Some tomlArrayHash))%bool
         then
           nest <- tomlArrayType fuel (eindirect e0) ;;
           if (typeEqual nest (Some tomlHash) ||
               typeEqual nest (Some tomlArrayHash))%bool
           then encPanicR errArrayNoTable
           else Ret firstType
         else Ret firstType
     end)%res.
Proof.
  intros Hk Hn He. destruct (array_like rv Hk Hn) as [Hv Hl].
  cbn [tomlArrayType]. rewrite Hn, Hv, Hl. unfold Index. rewrite He.
  reflexivity.
Qed.

End ArrayFacts.

(** C6.  [tomlArrayType] on an array that is not empty takes the kind of
    element 0 as the reference and scans the elements from the left: at the
    first index whose element is not of the reference kind it panics, with
    the error for a nil element when the kind of that element is absent
    (element 0 included), with the error for mixed element types when the
    kind differs from that of element 0, and with the panic of the
    classification of that element when that panics. *)
Theorem tomlArrayType_first_offender (fuel : nat) (rv : value) (i : nat)
    (ei : value) :
  Kind_of rv = reflect.Array \/ Kind_of rv = reflect.Slice ->
  isNil rv = false ->
  List.nth_error (Elems rv) i = Some ei ->
  (forall (j : nat) (ej : value),
      j < i -> List.nth_error (Elems rv) j = Some ej ->
      exists t, tomlTypeOfGo fuel ej = Ret (Some t) /\
                tomlTypeOfGo fuel (Index rv 0) = Ret (Some t)) ->
  (tomlTypeOfGo fuel ei = Ret None ->
   tomlArrayType (S fuel) rv = Throw (tomlEncodeError errArrayNilElement)) /\
  (forall t t0 : tomlBaseType,
      tomlTypeOfGo fuel ei = Ret (Some t) ->
      tomlTypeOfGo fuel (Index rv 0) = Ret (Some t0) ->
      t <> t0 ->
      tomlArrayType (S fuel) rv =
        Throw (tomlEncodeError errArrayMixedElementTypes)) /\
  (forall p : panic,
      tomlTypeOfGo fuel ei = Throw p -> tomlArrayType (S fuel) rv = Throw p).
Proof.
  intros Hk Hn Hi Hbefore.
  destruct (Elems rv) as [|e0 rest] eqn:He; [destruct i; discriminate|].
  rewrite (ArrayFacts.tomlArrayType_step fuel rv e0 rest Hk Hn He).
  assert (H0 : Index rv 0 = e0) by (unfold Index; now rewrite He).
  rewrite H0 in *.
  destruct i as [|i].
  - injection Hi as <-. repeat split.
    + intros ->. reflexivity.
    + intros t t0 -> [= ->] Hne. now contradiction Hne.
    + intros p ->. reflexivity.
  - cbn [List.nth_error] in Hi.
    destruct (List.nth_error_split rest i Hi) as (pre & post & -> & Hlen).
    destruct (Hbefore 0 e0 (Nat.lt_0_succ i) eq_refl) as (t0 & Ht0 & _).
    assert (Hpre : Forall (fun x => tomlTypeOfGo fuel x = Ret (Some t0)) pre).
    { apply Forall_forall. intros x Hx.
      destruct (List.In_nth_error _ _ Hx) as [j Hj].
      assert (Hjl : j < List.length pre)
        by (apply List.nth_error_Some; congruence).
      destruct (Hbefore (S j) x) as (t & Ht & Ht').
      - lia.
      - cbn [List.nth_error]. rewrite List.nth_error_app1 by exact Hjl.
        exact Hj.
      - congruence. }
    rewrite Ht0. cbn [res_bind].
    rewrite (ArrayFacts.checkElems_stops _ t0 pre post ei Hpre).
    repeat split.
    + intros ->. reflexivity.
    + intros t t1 -> [= <-] Hne.
      now rewrite (ArrayFacts.typeEqual_differ t t0 Hne).
    + intros p ->. reflexivity.
Qed.

Lemma tomlArrayType_first_offender_witness :
  tomlTypeOfGo 2
    (VInterface (Some (VString "a"))) = Ret (Some tomlString) /\
  tomlArrayType 3
    (VSlice (Some [VInterface (Some (VInt KInt 1));
                   VInterface (Some (VInt KInt 2));
                   VInterface (Some (VString "a"));
                   VInterface None])) =
  Throw (tomlEncodeError errArrayMixedElementTypes).
Proof.
  split; [reflexivity|].
  refine (proj1 (proj2
    (tomlArrayType_first_offender 2
       (VSlice (Some [VInterface (Some (VInt KInt 1));
                      VInterface (Some (VInt KInt 2));
                      VInterface (Some (VString "a"));
                      VInterface None]))
       2 (VInterface (Some (VString "a"))) _ _ _ _))
    tomlString tomlInteger _ _ _).
  - right; reflexivity.
  - reflexivity.
  - reflexivity.
  - intros [|[|j]] ej Hj Hej; [| |lia]; injection Hej as <-;
      exists tomlInteger; split; reflexivity.
  - reflexivity.
  - reflexivity.
  - discriminate.
Defined.

(** ** The modifier of the encoder *)

Module ModifierFacts.

Lemma bind_Done {A B : Type} (m : M A) (f : A -> M B) (enc : Encoder) (b : B)
    (enc' : Encoder) :
  bind m f enc = Done b enc' ->
  exists (a : A) (enc1 : Encoder),
    m enc = Done a enc1 /\ f a enc1 = Done b enc'.
Proof.
  unfold bind. destruct (m enc) as [a enc1| |]; try discriminate.
  intros H. now exists a, enc1.
Qed.

Lemma preserves_keeps {A : Type} (m : M A) : preserves m -> keeps m.
Proof. intros H enc a enc' Hm Hd. rewrite (H _ _ _ Hd). exact Hm. Qed.

Lemma resets_keeps {A : Type} (m : M A) : resets m -> keeps m.
Proof. intros H enc a enc' _ Hd. exact (H _ _ _ Hd). Qed.

Lemma preserves_ret {A : Type} (a : A) : preserves (ret a).
Proof. intros enc b enc' [= _ <-]. reflexivity. Qed.

Lemma preserves_bind {A B : Type} (m : M A) (f : A -> M B) :
  preserves m -> (forall a, preserves (f a)) -> preserves (bind m f).
Proof.
  intros Hm Hf enc b enc' H.
  destruct (bind_Done _ _ _ _ _ H) as (a & enc1 & H1 & H2).
  rewrite (Hf _ _ _ _ H2). exact (Hm _ _ _ H1).
Qed.

Lemma keeps_bind {A B : Type} (m : M A) (f : A -> M B) :
  keeps m -> (forall a, keeps (f a)) -> keeps (bind m f).
Proof.
  intros Hm Hf enc b enc' Hn H.
  destruct (bind_Done _ _ _ _ _ H) as (a & enc1 & H1 & H2).
  exact (Hf _ _ _ _ (Hm _ _ _ Hn H1) H2).
Qed.

Lemma resets_bind {A B : Type} (m : M A) (f : A -> M B) :
  (forall a, resets (f a)) -> resets (bind m f).
Proof.
  intros Hf enc b enc' H.
  destruct (bind_Done _ _ _ _ _ H) as (a & enc1 & _ & H2).
  exact (Hf _ _ _ _ H2).
Qed.

Lemma preserves_lift {A : Type} (r : res A) : preserves (lift r).
Proof.
  intros enc a enc'. destruct r; cbn; intros [= _ <-] || discriminate.
  reflexivity.
Qed.

Lemma preserves_raise {A : Type} (p : panic) : preserves (@raise A p).
Proof. intros enc a enc'. discriminate. Qed.

Lemma preserves_get {A : Type} (f : Encoder -> A) : preserves (get f).
Proof. intros enc a enc' [= _ <-]. reflexivity. Qed.

Lemma preserves_wf (text : string) : preserves (wf text).
Proof. intros enc a enc' [= _ <-]. reflexivity. Qed.

Lemma preserves_wf0 (format : string) : preserves (wf0 format).
Proof. apply preserves_wf. Qed.

Lemma preserves_newline : preserves newline.
Proof.
  apply preserves_bind; [apply preserves_get|].
  intros []; [apply preserves_wf0 | apply preserves_ret].
Qed.

Lemma preserves_indentStr (key : Key) : preserves (indentStr key).
Proof.
  destruct key; [apply preserves_raise|].
  apply preserves_bind; [apply preserves_get | intros; apply preserves_ret].
Qed.

Lemma preserves_writeQuoted (s : string) : preserves (writeQuoted s).
Proof. apply preserves_wf. Qed.

Lemma preserves_writeMultiLineString (s : string) (raw : bool) :
  preserves (writeMultiLineString s raw).
Proof.
  unfold writeMultiLineString.
  apply preserves_bind; [apply preserves_wf0|]. intros _.
  apply preserves_bind; [destruct raw; apply preserves_wf0|]. intros _.
  apply preserves_wf0.
Qed.

Lemma resets_set_modifier : resets (set_modifier MOD_NONE).
Proof. intros enc a enc' [= _ <-]. reflexivity. Qed.

Lemma preserves_encPanic {A : Type} (err : error) : preserves (@encPanic A err).
Proof. apply preserves_raise. Qed.

Lemma preserves_eArrayLoop (rec : value -> M unit) (elems : list value) :
  (forall v, preserves (rec v)) -> preserves (eArrayLoop rec elems).
Proof.
  intros Hrec. induction elems as [|elem rest IH]; cbn [eArrayLoop].
  - apply preserves_ret.
  - apply preserves_bind; [apply Hrec|]. intros _.
    apply preserves_bind;
      [destruct rest; [apply preserves_ret | apply preserves_wf0]|].
    intros _. exact IH.
Qed.

Lemma preserves_eElement_body (rec : value -> M unit) (rv : value) :
  (forall v, preserves (rec v)) -> preserves (eElement_body rec rv).
Proof.
  intros Hrec. unfold eElement_body.
  destruct (negb (IsValid rv)); [apply preserves_raise|].
  destruct (Interface_type rv) as [utc|[s|err]|];
    [apply preserves_wf0 | apply preserves_writeQuoted
     | apply preserves_encPanic |].
  unfold eArrayOrSliceElement.
  destruct (Kind_of rv);
    first [ apply preserves_wf0
          | apply preserves_raise
          | apply preserves_writeQuoted
          | apply Hrec
          | apply preserves_bind; [apply preserves_wf0|]; intros _;
            apply preserves_bind; [|intros _; apply preserves_wf0];
            apply preserves_eArrayLoop; exact Hrec ].
Qed.

Lemma preserves_eElement (fuel : nat) (rv : value) :
  preserves (eElement fuel rv).
Proof.
  revert rv. induction fuel as [|fuel IH]; intros rv; cbn [eElement].
  - intros enc a enc'. discriminate.
  - apply preserves_eElement_body. exact IH.
Qed.

(** [keyEqElement] ends with the modifier set to none. *)
Lemma resets_keyEqElement (fuel : nat) (key : Key) (val : value) :
  resets (keyEqElement fuel key val).
Proof.
  unfold keyEqElement. destruct key as [|x key].
  - intros enc a enc'. discriminate.
  - repeat (apply resets_bind; intros ?).
    apply resets_set_modifier.
Qed.

Lemma fieldModifier_cases (sft : StructField) (sf : value) :
  fieldModifier sft sf = MOD_NONE \/
  (Kind_of sf = reflect.String /\
   (fieldModifier sft sf = MOD_MULTILINE_STRING \/
    fieldModifier sft sf = MOD_MULTILINE_RAWSTRING)).
Proof.
  unfold fieldModifier, validmodifiers.
  destruct (String.eqb_spec (Tag_Get (Tag sft) "modifier") MOD_MULTILINE_STRING)
    as [E1|_].
  - destruct (Kind_of sf); cbn; auto.
  - destruct (String.eqb_spec (Tag_Get (Tag sft) "modifier")
                MOD_MULTILINE_RAWSTRING) as [E2|_]; [|now left].
    destruct (Kind_of sf); cbn; auto.
Qed.

Section Scoped.

Variable fuel : nat.
Variable rec : Key -> value -> M unit.
Hypothesis Hrec : scoped rec.

Lemma keeps_rec (key : Key) (rv : value) : keeps (rec key rv).
Proof. intros enc a enc' Hn. apply Hrec. now left. Qed.

Lemma keeps_writeMapKeysLoop (key : Key) (rv : value) (mapKeys : list string) :
  keeps (writeMapKeysLoop rec key rv mapKeys).
Proof.
  induction mapKeys as [|mapKey rest IH]; cbn [writeMapKeysLoop].
  - apply preserves_keeps, preserves_ret.
  - apply keeps_bind; [|intros _; exact IH].
    apply keeps_bind; [apply preserves_keeps, preserves_lift|]. intros mrv.
    destruct (isNil mrv);
      [apply preserves_keeps, preserves_ret | apply keeps_rec].
Qed.

Lemma keeps_eMap (key : Key) (rv : value) : keeps (eMap fuel rec key rv).
Proof.
  unfold eMap. destruct (negb _); [apply preserves_keeps, preserves_encPanic|].
  apply keeps_bind; [apply preserves_keeps, preserves_lift|]. intros ks.
  apply keeps_bind; [apply keeps_writeMapKeysLoop|]. intros _.
  apply keeps_writeMapKeysLoop.
Qed.

Lemma keeps_writeField (key : Key) (rv : value) (fieldIndex : list nat) :
  keeps (writeField rec key rv fieldIndex).
Proof.
  unfold writeField.
  apply keeps_bind; [apply preserves_keeps, preserves_lift|]. intros [sft sf].
  cbn [fst snd].
  destruct (isNil sf); [apply preserves_keeps, preserves_ret|].
  destruct (String.eqb _ "-"); [apply preserves_keeps, preserves_ret|].
  intros enc a enc' _ H.
  destruct (bind_Done _ _ _ _ _ H) as ([] & enc1 & H1 & H2).
  injection H1 as <-.
  apply (Hrec _ _ _ _ _) with (2 := H2). cbn [modifier with_modifier].
  destruct (fieldModifier_cases sft sf) as [->|[Hk _]]; auto.
Qed.

Lemma keeps_writeFields (key : Key) (rv : value) (fields : list (list nat)) :
  keeps (writeFields rec key rv fields).
Proof.
  induction fields as [|fieldIndex rest IH]; cbn [writeFields].
  - apply preserves_keeps, preserves_ret.
  - apply keeps_bind; [apply keeps_writeField | intros _; exact IH].
Qed.

Lemma keeps_eStruct (key : Key) (rv : value) : keeps (eStruct fuel rec key rv).
Proof.
  unfold eStruct.
  apply keeps_bind; [apply preserves_keeps, preserves_lift|]. intros fs.
  apply keeps_bind; [apply keeps_writeFields|]. intros _.
  apply keeps_writeFields.
Qed.

Lemma keeps_eMapOrStruct (key : Key) (rv : value) :
  keeps (eMapOrStruct fuel rec key rv).
Proof.
  unfold eMapOrStruct.
  destruct (Kind_of (eindirect rv));
    try apply preserves_keeps, preserves_raise.
  - apply keeps_eMap.
  - apply keeps_eStruct.
Qed.

Lemma keeps_eTable (key : Key) (rv : value) : keeps (eTable fuel rec key rv).
Proof.
  unfold eTable.
  apply keeps_bind.
  { destruct (Nat.eqb _ 1); apply preserves_keeps;
      [apply preserves_newline | apply preserves_ret]. }
  intros _. apply keeps_bind; [|intros _; apply keeps_eMapOrStruct].
  destruct (Nat.ltb 0 _); [|apply preserves_keeps, preserves_ret].
  apply preserves_keeps.
  apply preserves_bind; [apply preserves_lift|]. intros _.
  apply preserves_bind; [apply preserves_indentStr|]. intros indent.
  apply preserves_bind; [apply preserves_wf|]. intros _.
  apply preserves_newline.
Qed.

Lemma keeps_eArrayOfTablesLoop (key : Key) (elems : list value) :
  keeps (eArrayOfTablesLoop fuel rec key elems).
Proof.
  induction elems as [|trv rest IH]; cbn [eArrayOfTablesLoop].
  - apply preserves_keeps, preserves_ret.
  - apply keeps_bind; [|intros _; exact IH].
    destruct (isNil trv); [apply preserves_keeps, preserves_ret|].
    apply keeps_bind; [apply preserves_keeps, preserves_newline|]. intros _.
    apply keeps_bind; [apply preserves_keeps, preserves_indentStr|].
    intros indent.
    apply keeps_bind; [apply preserves_keeps, preserves_wf|]. intros _.
    apply keeps_bind; [apply preserves_keeps, preserves_newline|]. intros _.
    apply keeps_eMapOrStruct.
Qed.

Lemma keeps_eArrayOfTables (key : Key) (rv : value) :
  keeps (eArrayOfTables fuel rec key rv).
Proof.
  unfold eArrayOfTables.
  destruct (Nat.eqb _ 0); [apply preserves_keeps, preserves_encPanic|].
  apply keeps_bind; [apply preserves_keeps, preserves_lift|]. intros _.
  apply keeps_eArrayOfTablesLoop.
Qed.

Lemma keeps_keyEqElement (key : Key) (rv : value) :
  keeps (keyEqElement fuel key rv).
Proof. apply resets_keeps, resets_keyEqElement. Qed.

Lemma scoped_encode_body : scoped (encode_body fuel rec).
Proof.
  intros key rv enc a enc' Hs. unfold encode_body.
  destruct (negb (IsValid rv)); [discriminate|].
  destruct (Interface_type rv) as [utc|text|];
    try apply resets_keyEqElement.
  destruct (Kind_of rv) eqn:Hk; try apply resets_keyEqElement;
    try discriminate;
    (destruct Hs as [Hn|Hs]; [revert Hn|discriminate Hs]);
    try (destruct (IsNil rv); [apply preserves_keeps, preserves_ret|]);
    first [ apply keeps_rec
          | apply keeps_eTable
          | apply keeps_bind; [apply preserves_keeps, preserves_lift|];
            intros t; destruct (typeEqual _ t);
            [apply keeps_eArrayOfTables | apply keeps_keyEqElement] ].
Qed.

End Scoped.

Lemma scoped_encode (fuel : nat) : scoped (encode fuel).
Proof.
  induction fuel as [|fuel IH]; cbn [encode].
  - intros key rv enc a enc' _. discriminate.
  - apply scoped_encode_body. exact IH.
Qed.

End ModifierFacts.

(** C9.  The modifier is active for one entry only.  [keyEqElement] ends
    with the modifier set to none, whatever it was, right after the line of
    the entry and its line feed are written.  An encoding that starts
    without a modifier, or on a String value, ends without one, and so does
    the writing of a struct field: a sibling or a descendant entry is encoded
    from a state without a modifier, or with the modifier of its own field,
    and without a modifier the value is written by [eElement].  The modifier
    set for a field whose kind is not String is none, whatever its tag. *)
Theorem modifier_scoped_to_entry :
  (forall (fuel : nat) (key : Key) (val : value) (enc enc' : Encoder),
      keyEqElement fuel key val enc = Done tt enc' ->
      modifier enc' = MOD_NONE) /\
  (forall (fuel : nat) (key : Key) (rv : value) (enc enc' : Encoder),
      modifier enc = MOD_NONE \/ Kind_of rv = reflect.String ->
      encode fuel key rv enc = Done tt enc' ->
      modifier enc' = MOD_NONE) /\
  (forall (fuel : nat) (key : Key) (rv : value) (fieldIndex : list nat)
          (enc enc' : Encoder),
      modifier enc = MOD_NONE ->
      writeField (encode fuel) key rv fieldIndex enc = Done tt enc' ->
      modifier enc' = MOD_NONE) /\
  (forall (sft : StructField) (sf : value),
      Kind_of sf <> reflect.String -> fieldModifier sft sf = MOD_NONE) /\
  (forall (fuel : nat) (val : value) (enc : Encoder),
      modifier enc = MOD_NONE ->
      modifiedElement fuel val enc = eElement fuel val enc).
Proof.
  split; [|split; [|split; [|split]]].
  - intros fuel key val enc enc'.
    apply (ModifierFacts.resets_keyEqElement fuel key val enc tt enc').
  - intros fuel key rv enc enc'.
    apply (ModifierFacts.scoped_encode fuel key rv enc tt enc').
  - intros fuel key rv fieldIndex enc enc'.
    apply (ModifierFacts.keeps_writeField (encode fuel)
             (ModifierFacts.scoped_encode fuel) key rv fieldIndex enc tt enc').
  - intros sft sf Hk.
    destruct (ModifierFacts.fieldModifier_cases sft sf) as [H|[H _]];
      [exact H | contradiction].
  - intros fuel val enc Hm. unfold modifiedElement, bind, get. rewrite Hm.
    reflexivity.
Qed.

Lemma modifier_scoped_to_entry_witness :
  Kind_of (VString "x") = reflect.String /\
  modifier
    (with_modifier
       (written (with_modifier NewEncoder MOD_MULTILINE_RAWSTRING)
          ("k = " ++ rawMarker ++ "x " ++ rawMarker ++ Bytes.str Bytes.lf))
       MOD_NONE) = MOD_NONE.
Proof.
  split; [reflexivity|].
  apply (proj1 (proj2 modifier_scoped_to_entry) 1 ["k"] (VString "x")
           (with_modifier NewEncoder MOD_MULTILINE_RAWSTRING)).
  - right. reflexivity.
  - vm_compute. reflexivity.
Defined.

(** ** Sorted strings *)

Module SortFacts.

Lemma ascii_compare_N (x y : ascii) :
  Ascii.compare x y = N.compare (N_of_ascii x) (N_of_ascii y).
Proof. reflexivity. Qed.

Lemma le_trans (a b c : string) : sort.le a b -> sort.le b c -> sort.le a c.
Proof.
  unfold sort.le, String.leb. revert b c.
  induction a as [|x a IH]; intros [|y b] [|z c]; cbn [String.compare];
    try reflexivity; try discriminate.
  rewrite !ascii_compare_N.
  destruct (N.compare_spec (N_of_ascii x) (N_of_ascii y)) as [Exy|Lxy|Gxy];
    destruct (N.compare_spec (N_of_ascii y) (N_of_ascii z)) as [Eyz|Lyz|Gyz];
    try discriminate; intros Hab Hbc.
  - rewrite Exy, Eyz, N.compare_refl. now apply (IH b c).
  - rewrite Exy. now apply N.compare_lt_iff in Lyz as ->.
  - rewrite <- Eyz. now apply N.compare_lt_iff in Lxy as ->.
  - assert (L : (N_of_ascii x < N_of_ascii z)%N) by lia.
    now apply N.compare_lt_iff in L as ->.
Qed.

Lemma le_antisym (a b : string) : sort.le a b -> sort.le b a -> a = b.
Proof. apply String.leb_antisym. Qed.

Lemma le_total (a b : string) : sort.le a b \/ sort.le b a.
Proof. apply String.leb_total. Qed.

Lemma insert_perm (x : string) (l : list string) :
  Permutation (sort.insert x l) (x :: l).
Proof.
  induction l as [|y l IH]; cbn [sort.insert]; [reflexivity|].
  destruct (String.leb x y); [reflexivity|].
  rewrite IH. apply perm_swap.
Qed.

Lemma Strings_perm (l : list string) : Permutation (sort.Strings l) l.
Proof.
  induction l as [|x l IH]; cbn [sort.Strings]; [reflexivity|].
  rewrite insert_perm. now constructor.
Qed.

Lemma insert_sorted (x : string) (l : list string) :
  StronglySorted sort.le l -> StronglySorted sort.le (sort.insert x l).
Proof.
  induction 1 as [|y l Hl IH Hy]; cbn [sort.insert].
  - repeat constructor.
  - destruct (String.leb x y) eqn:E.
    + constructor; [now constructor|].
      constructor; [exact E|].
      eapply Forall_impl; [|exact Hy]. intros z Hz. exact (le_trans x y z E Hz).
    + constructor; [exact IH|].
      assert (Hyx : sort.le y x)
        by (destruct (le_total x y); [congruence|assumption]).
      eapply Permutation_Forall; [symmetry; apply insert_perm|].
      now constructor.
Qed.

Lemma Strings_sorted (l : list string) :
  StronglySorted sort.le (sort.Strings l).
Proof.
  induction l as [|x l IH]; cbn [sort.Strings];
    [constructor | now apply insert_sorted].
Qed.

(** Two sorted lists with the same elements are the same list. *)
Lemma sorted_unique (l1 l2 : list string) :
  StronglySorted sort.le l1 -> StronglySorted sort.le l2 ->
  Permutation l1 l2 -> l1 = l2.
Proof.
  intros H1. revert l2. induction H1 as [|x l1 Hl1 IH Hx]; intros l2 H2 Hp.
  - now apply Permutation_nil in Hp.
  - destruct H2 as [|y l2 Hl2 Hy].
    + symmetry in Hp. now apply Permutation_nil in Hp.
    + assert (Exy : x = y).
      { assert (Hin1 : In x (y :: l2))
          by (eapply Permutation_in; [exact Hp | now left]).
        assert (Hin2 : In y (x :: l1))
          by (eapply Permutation_in; [symmetry; exact Hp | now left]).
        destruct Hin1 as [->|Hin1]; [reflexivity|].
        destruct Hin2 as [->|Hin2]; [reflexivity|].
        apply le_antisym.
        - exact (proj1 (Forall_forall _ _) Hx y Hin2).
        - exact (proj1 (Forall_forall _ _) Hy x Hin1). }
      subst y. f_equal. apply IH; [exact Hl2|].
      now apply Permutation_cons_inv in Hp.
Qed.

Lemma Strings_perm_eq (l1 l2 : list string) :
  Permutation l1 l2 -> sort.Strings l1 = sort.Strings l2.
Proof.
  intros Hp. apply sorted_unique; try apply Strings_sorted.
  now rewrite !Strings_perm.
Qed.


End SortFacts.

(** ** Maps: the order of the entries *)

Module MapFacts.

Import SortFacts.

Section Order.

Variable fuel : nat.
Variable rv : value.

(** The classification of the value of the key returns. *)
Let classified (k : string) : Prop :=
  exists t, tomlTypeOfGo fuel (MapIndex rv k) = Ret t.

Lemma splitMapKeys_classified (mapKeys direct sub : list string) :
  Forall classified mapKeys ->
  splitMapKeys fuel rv mapKeys direct sub =
    Ret ((direct ++
          List.filter (fun k => negb (subKey fuel rv k)) mapKeys)%list,
         (sub ++ List.filter (subKey fuel rv) mapKeys)%list).
Proof.
  intros H. revert direct sub.
  induction H as [|k rest [t Ht] _ IH]; intros direct sub;
    cbn [splitMapKeys List.filter].
  - now rewrite !List.app_nil_r.
  - assert (Hs : subKey fuel rv k = typeIsHash t)
      by (unfold subKey; now rewrite Ht).
    rewrite Ht, Hs. cbn [res_bind].
    destruct (typeIsHash t); cbn [negb]; rewrite IH, <- List.app_assoc;
      reflexivity.
Qed.

Lemma splitMapKeys_Ret (mapKeys direct sub : list string)
    (r : list string * list string) :
  splitMapKeys fuel rv mapKeys direct sub = Ret r -> Forall classified mapKeys.
Proof.
  revert direct sub. induction mapKeys as [|k rest IH]; intros direct sub;
    cbn [splitMapKeys]; [constructor|].
  destruct (tomlTypeOfGo fuel (MapIndex rv k)) as [t| |] eqn:Ht;
    cbn [res_bind]; try discriminate.
  intros H. constructor; [now exists t|].
  destruct (typeIsHash t); eapply IH; exact H.
Qed.

End Order.


(** [MapIndex] with a string for the key returns the value of the key, or
    it panics: the key type of the map is a defined type. *)
Lemma MapIndexOfString_cases (rv : value) (k : string) :
  MapIndexOfString rv k = Ret (MapIndex rv k) \/
  exists p, MapIndexOfString rv k = Throw p.
Proof.
  unfold MapIndexOfString. destruct (plain rv); auto.
  destruct keys; eauto.
Qed.

Lemma MapIndexOfString_string (m : option (list (string * value)))
    (k : string) :
  MapIndexOfString (VMap StringKey m) k = Ret (MapIndex (VMap StringKey m) k).
Proof. reflexivity. Qed.

(** A step of the loop of [writeMapKeys] when [MapIndex] returns. *)
Lemma writeMapKeysLoop_cons (rec : Key -> value -> M unit) (key : Key)
    (rv : value) (k : string) (rest : list string) (enc : Encoder) :
  MapIndexOfString rv k = Ret (MapIndex rv k) ->
  writeMapKeysLoop rec key rv (k :: rest) enc =
    ((if isNil (MapIndex rv k) then ret tt
      else rec (Key_add key k) (MapIndex rv k)) ;;
     writeMapKeysLoop rec key rv rest)%enc enc.
Proof. intros H. cbn [writeMapKeysLoop]. now rewrite H. Qed.

Lemma bind_assoc {A B C : Type} (m : M A) (f : A -> M B) (g : B -> M C)
    (enc : Encoder) :
  bind (bind m f) g enc = bind m (fun a => bind (f a) g) enc.
Proof. unfold bind. destruct (m enc); reflexivity. Qed.

Lemma bind_ext {A B : Type} (m : M A) (f g : A -> M B) (enc : Encoder) :
  (forall a enc1, f a enc1 = g a enc1) -> bind m f enc = bind m g enc.
Proof. intros H. unfold bind. destruct (m enc); auto. Qed.

Lemma writeMapKeysLoop_app (rec : Key -> value -> M unit) (key : Key)
    (rv : value) (l1 l2 : list string) (enc : Encoder) :
  writeMapKeysLoop rec key rv (l1 ++ l2) enc =
    (writeMapKeysLoop rec key rv l1 ;; writeMapKeysLoop rec key rv l2)%enc enc.
Proof.
  revert enc. induction l1 as [|k l1 IH]; intros enc;
    cbn [List.app writeMapKeysLoop].
  - reflexivity.
  - symmetry. etransitivity; [apply bind_assoc|].
    apply bind_ext. intros _ enc1. symmetry. apply IH.
Qed.


End MapFacts.

(** ** Structs: embedded fields *)

Module StructFacts.

Lemma res_rel_bind {A B : Type} (R : A -> A -> Prop) (Q : B -> B -> Prop)
    (m m' : res A) (f f' : A -> res B) :
  res_rel R m m' ->
  (forall a a', R a a' -> res_rel Q (f a) (f' a')) ->
  res_rel Q (res_bind m f) (res_bind m' f').
Proof.
  destruct m, m'; cbn; intros H Hf; try contradiction; auto.
Qed.

Lemma res_rel_refl {A : Type} (R : A -> A -> Prop) (m : res A) :
  (forall a, R a a) -> res_rel R m m.
Proof. intros H. destruct m; cbn; auto. Qed.


(** The loop of [addFields] over two lists is the loop over the first, then
    over the second. *)
Lemma addFieldsLoop_app (fuel : nat)
    (rec : value -> list nat -> fieldLists -> res fieldLists)
    (l1 l2 : list (StructField * value)) (i : nat) (start : list nat)
    (acc : fieldLists) :
  addFieldsLoop fuel rec (l1 ++ l2) i start acc =
    (acc1 <- addFieldsLoop fuel rec l1 i start acc ;;
     addFieldsLoop fuel rec l2 (i + List.length l1) start acc1)%res.
Proof.
  revert i acc. induction l1 as [|[f frv] l1 IH]; intros i acc;
    cbn [List.app addFieldsLoop List.length res_bind].
  - now rewrite Nat.add_0_r.
  - replace (i + S (List.length l1)) with (S i + List.length l1) by lia.
    destruct (negb (String.eqb (PkgPath f) "")); [apply IH|].
    destruct (Anonymous f).
    + destruct (negb (IsValid (eindirect frv))); [reflexivity|].
      destruct (negb (reflect.Kind_eqb _ _)); [reflexivity|].
      destruct (rec (eindirect frv) [i] acc); cbn [res_bind];
        [apply IH | reflexivity | reflexivity].
    + destruct (tomlTypeOfGo fuel frv) as [t| |]; cbn [res_bind];
        [|reflexivity|reflexivity].
      destruct (typeIsHash t); apply IH.
Qed.

Section Related.

(** Two structs, and the index paths that name the same field in both. *)
Variables rootL rootR : value.

Let same (idxL idxR : list nat) : Prop :=
  FieldByIndex rootL idxL = FieldByIndex rootR idxR.

Let sameLists (a b : fieldLists) : Prop :=
  Forall2 same (fst a) (fst b) /\ Forall2 same (snd a) (snd b).



End Related.


End StructFacts.

Module EmbeddedFacts.

Import StructFacts.


Lemma Field_struct (l : list (StructField * value)) (i : nat)
    (fv : StructField * value) :
  List.nth_error l i = Some fv -> Field (VStruct l) i = Ret fv.
Proof. intros H. unfold Field. cbn. now rewrite H. Qed.

Lemma FieldByIndex_one (v : value) (x : nat) : FieldByIndex v [x] = Field v x.
Proof. reflexivity. Qed.


Lemma addFields_S (fuel depth : nat) (rv : value) (start : list nat)
    (acc : fieldLists) :
  addFields fuel (S depth) rv start acc =
    addFieldsLoop fuel (addFields fuel depth) (Fields rv) 0 start acc.
Proof. reflexivity. Qed.






Section Splice.

Variable fuel : nat.
Variable depth : nat.
Variable recR : value -> list nat -> fieldLists -> res fieldLists.
Variable all : list (StructField * value).

Let rootL : value := VStruct all.
Let rootR : value := VStruct (splice all).

Let same (idxL idxR : list nat) : Prop :=
  FieldByIndex rootL idxL = FieldByIndex rootR idxR.

Let sameLists (a b : fieldLists) : Prop :=
  Forall2 same (fst a) (fst b) /\ Forall2 same (snd a) (snd b).


End Splice.









End EmbeddedFacts.




(** ** The model against the source: [eindirect] and the float format *)

Module ModelFacts.

(** [eindirect] has the equation of the source. *)
Lemma eindirect_eq (v : value) :
  eindirect v =
    match Kind_of v with
    | reflect.Ptr | reflect.Interface => eindirect (Elem v)
    | _ => v
    end.
Proof.
  induction v as [| | | | | | | | [x|] | [x|] | | | | text x IH | ];
    try reflexivity.
  - destruct k; reflexivity.
  - destruct k; reflexivity.
  - destruct k; reflexivity.
  - cbn [eindirect Kind_of]. unfold Elem. cbn [plain]. fold (Elem x).
    destruct (Kind_of x); try reflexivity; exact IH.
  - destruct k; reflexivity.
Qed.

Example FormatFloat_1_5 :
  strconv.FormatFloat (strconv.Finite false (D1 (D5 Nil)) 1) = "1.5".
Proof. reflexivity. Qed.

Example FormatFloat_300 :
  strconv.FormatFloat (strconv.Finite true (D3 Nil) 3) = "-300".
Proof. reflexivity. Qed.

Example FormatFloat_small :
  strconv.FormatFloat (strconv.Finite false (D2 (D5 Nil)) (-2)) = "0.0025".
Proof. reflexivity. Qed.

Example FormatFloat_zero :
  strconv.FormatFloat (strconv.Finite false Nil 0) = "0".
Proof. reflexivity. Qed.

Example floatAddDecimal_300 :
  floatAddDecimal (strconv.FormatFloat (strconv.Finite true (D3 Nil) 3)) =
  "-300.0".
Proof. reflexivity. Qed.

(** A format with a percent sign is interpreted: the raw block of the
    string 100% loses its space to the verb. *)
Example Sprintf0_percent : fmt.Sprintf0 ("100%" ++ " ") = "100%!(NOVERB)".
Proof. reflexivity. Qed.

End ModelFacts.

(** ** The classification returns or panics when it has fuel enough *)

Module FuelFacts.

Import ArrayFacts.

Lemma depth_plain (rv : value) : depth (plain rv) = depth rv.
Proof. induction rv; cbn [plain depth]; auto. Qed.

Lemma depth_Elems (rv elem : value) :
  In elem (Elems rv) -> depth elem < depth rv.
Proof.
  unfold Elems. rewrite <- (depth_plain rv).
  assert (H : forall l, In elem l ->
            depth elem <=
            (fix depths (l : list value) : nat :=
               match l with
               | [] => 0
               | x :: r => Nat.max (depth x) (depths r)
               end) l).
  { induction l as [|x l IH]; intros Hin; [contradiction|].
    destruct Hin as [->|Hin]; [lia|]. specialize (IH Hin). lia. }
  destruct (plain rv) as [| | | | | | l | [l|] | | | | | | |];
    try contradiction; intros Hin; cbn [depth]; specialize (H l Hin); lia.
Qed.

Lemma depth_Elem (rv : value) :
  Kind_of rv = reflect.Ptr \/ Kind_of rv = reflect.Interface ->
  isNil rv = false ->
  depth (Elem rv) < depth rv.
Proof.
  intros Hk Hn. unfold isNil, IsNil in Hn. unfold Elem.
  rewrite <- (depth_plain rv). rewrite <- Kind_of_plain in Hk, Hn.
  pose proof (plain_not_marshaler rv) as Hm.
  destruct (plain rv) as [| | | | | | | | [x|] | [x|] | | | | |];
    cbn in Hk, Hn |- *; try lia; try discriminate;
    try (destruct Hk; discriminate).
  - destruct k; destruct Hk; discriminate.
  - destruct k; destruct Hk; discriminate.
  - destruct k; destruct Hk; discriminate.
  - exfalso. eapply Hm. reflexivity.
  - destruct k; destruct Hk; discriminate.
Qed.

Lemma depth_eindirect_bounded (n : nat) (v : value) :
  depth v <= n -> depth (eindirect v) <= depth v.
Proof.
  revert v. induction n as [|n IHn]; intros v; induction v as
    [| | | | | | | | [x|] | [x|] | | | | text x IH | ];
    cbn [eindirect depth]; intros Hd; try lia.
  - destruct (Kind_of x); cbn [depth]; try lia; exact (IH Hd).
  - specialize (IHn x). lia.
  - specialize (IHn x). lia.
  - destruct (Kind_of x); cbn [depth]; try lia; exact (IH Hd).
Qed.

Lemma depth_eindirect (v : value) : depth (eindirect v) <= depth v.
Proof. exact (depth_eindirect_bounded (depth v) v (le_n _)). Qed.

(** An array or a slice that is not nil has elements, or none, below it. *)
Lemma depth_arrayKind (rv : value) :
  arrayKind rv -> isNil rv = false -> 0 < depth rv.
Proof.
  intros Hk Hn. unfold isNil, IsNil in Hn. rewrite <- (depth_plain rv).
  unfold arrayKind in Hk. rewrite <- Kind_of_plain in Hk, Hn.
  pose proof (plain_not_marshaler rv) as Hm.
  destruct (plain rv) as [| | | | | | l | [l|] | | | | | | |];
    cbn in Hk, Hn |- *; try lia; try discriminate;
    try (destruct Hk; discriminate).
  - destruct k; destruct Hk; discriminate.
  - destruct k; destruct Hk; discriminate.
  - destruct k; destruct Hk; discriminate.
  - exfalso. eapply Hm. reflexivity.
  - destruct k; destruct Hk; discriminate.
Qed.

Lemma checkElems_fuel (classify : value -> res tomlType) (t : tomlType)
    (l : list value) :
  (forall x, In x l -> classify x <> NoFuel) ->
  checkElems classify t l <> NoFuel.
Proof.
  induction l as [|x l IH]; intros H; cbn [checkElems]; [discriminate|].
  pose proof (H x (or_introl eq_refl)) as Hx.
  destruct (classify x) as [[u|]| |]; cbn [res_bind]; try discriminate;
    [|contradiction].
  destruct (negb (typeEqual t (Some u))); [discriminate|].
  apply IH. intros y Hy. apply H. now right.
Qed.

(** A value that classifies as an array is, under its pointers and
    interfaces, an array or a slice. *)
Lemma tomlTypeOfGo_arrayKind (fuel : nat) (v : value) (t : tomlBaseType) :
  tomlTypeOfGo fuel v = Ret (Some t) ->
  t = tomlArray \/ t = tomlArrayHash ->
  arrayKind (eindirect v).
Proof.
  revert v. induction fuel as [|fuel IH]; intros v; [discriminate|].
  cbn [tomlTypeOfGo]. rewrite (ModelFacts.eindirect_eq v).
  destruct (isNil v || negb (IsValid v))%bool;
    [discriminate|].
  destruct (Kind_of v) eqn:Hk; intros H Ht;
    try (injection H as <-; destruct Ht; discriminate);
    try discriminate;
    try (now apply IH);
    try (now left); try (now right).
  destruct (Interface_type v); injection H as <-; destruct Ht; discriminate.
Qed.

Lemma classification_fuel (fuel : nat) (rv : value) :
  (2 * depth rv < fuel -> tomlTypeOfGo fuel rv <> NoFuel) /\
  (arrayKind rv -> 2 * depth rv <= fuel -> 0 < fuel ->
   tomlArrayType fuel rv <> NoFuel).
Proof.
  revert rv. induction fuel as [|fuel IH]; intros rv; [split; lia|].
  split.
  - intros Hd. cbn [tomlTypeOfGo].
    destruct (isNil rv || negb (IsValid rv))%bool eqn:E; [discriminate|].
    apply orb_false_iff in E as [Hn _].
    destruct (Kind_of rv) eqn:Hk; try discriminate.
    + assert (Ha : arrayKind rv) by (now left).
      pose proof (depth_arrayKind rv Ha Hn) as Hpos.
      pose proof (proj2 (IH rv) Ha ltac:(lia) ltac:(lia)) as Hf.
      destruct (tomlArrayType fuel rv) as [t| |]; cbn [res_bind];
        [destruct (typeEqual _ t)|..]; try discriminate; contradiction.
    + pose proof (depth_Elem rv (or_intror Hk) Hn) as Hlt.
      apply (proj1 (IH (Elem rv))). lia.
    + pose proof (depth_Elem rv (or_introl Hk) Hn) as Hlt.
      apply (proj1 (IH (Elem rv))). lia.
    + assert (Ha : arrayKind rv) by (now right).
      pose proof (depth_arrayKind rv Ha Hn) as Hpos.
      pose proof (proj2 (IH rv) Ha ltac:(lia) ltac:(lia)) as Hf.
      destruct (tomlArrayType fuel rv) as [t| |]; cbn [res_bind];
        [destruct (typeEqual _ t)|..]; try discriminate; contradiction.
    + destruct (Interface_type rv); discriminate.
  - intros Ha Hd _. cbn [tomlArrayType].
    destruct (isNil rv || negb (IsValid rv))%bool eqn:E; [discriminate|].
    apply orb_false_iff in E as [Hn _].
    pose proof (depth_arrayKind rv Ha Hn) as Hpos.
    rewrite (proj2 (array_like rv Ha Hn)). unfold Index.
    pose proof (depth_Elems rv) as Hel.
    destruct (Elems rv) as [|e0 rest]; [discriminate|].
    cbn [List.length List.nth List.tl].
    assert (He0 : 2 * depth e0 < fuel)
      by (specialize (Hel e0 (or_introl eq_refl)); lia).
    pose proof (proj1 (IH e0) He0) as H0.
    destruct (tomlTypeOfGo fuel e0) as [[t0|]| |] eqn:Ht0; cbn [res_bind];
      try discriminate; [|contradiction].
    assert (Hc : checkElems (tomlTypeOfGo fuel) (Some t0) rest <> NoFuel).
    { apply checkElems_fuel. intros x Hx. apply (proj1 (IH x)).
      specialize (Hel x (or_intror Hx)). lia. }
    destruct (checkElems (tomlTypeOfGo fuel) (Some t0) rest) as [[]| |];
      cbn [res_bind]; try discriminate; [|contradiction].
    destruct (typeEqual (Some t0) (Some tomlArray) ||
              typeEqual (Some t0) (Some tomlArrayHash))%bool eqn:Et;
      [|discriminate].
    assert (Hk0 : arrayKind (eindirect e0)).
    { apply (tomlTypeOfGo_arrayKind fuel e0 t0 Ht0).
      destruct t0; cbn in Et; try discriminate; auto. }
    pose proof (depth_eindirect e0) as Hde.
    specialize (Hel e0 (or_introl eq_refl)).
    pose proof (proj2 (IH (eindirect e0)) Hk0 ltac:(lia) ltac:(lia)) as Hn0.
    destruct (tomlArrayType fuel (eindirect e0)) as [nest| |];
      cbn [res_bind]; try discriminate; [|contradiction].
    destruct (typeEqual nest (Some tomlHash) ||
              typeEqual nest (Some tomlArrayHash))%bool; discriminate.
Qed.

(** With more fuel than twice the depth of the value, the classification of
    the value returns a kind or panics. *)
Lemma tomlTypeOfGo_total (fuel : nat) (rv : value) :
  2 * depth rv < fuel ->
  exists r, tomlTypeOfGo fuel rv = r /\ r <> NoFuel.
Proof.
  intros H. exists (tomlTypeOfGo fuel rv). split; [reflexivity|].
  now apply classification_fuel.
Qed.

Lemma tomlTypeOfGo_S (fuel : nat) (rv : value) :
  tomlTypeOfGo (S fuel) rv =
    if (isNil rv || negb (IsValid rv))%bool then Ret None
    else
      match Kind_of rv with
      | reflect.Bool => Ret (Some tomlBool)
      | reflect.Int | reflect.Int8 | reflect.Int16 | reflect.Int32
      | reflect.Int64
      | reflect.Uint | reflect.Uint8 | reflect.Uint16 | reflect.Uint32
      | reflect.Uint64 => Ret (Some tomlInteger)
      | reflect.Float32 | reflect.Float64 => Ret (Some tomlFloat)
      | reflect.Array | reflect.Slice =>
          (t <- tomlArrayType fuel rv ;;
           if typeEqual (Some tomlHash) t then Ret (Some tomlArrayHash)
           else Ret (Some tomlArray))%res
      | reflect.Ptr | reflect.Interface => tomlTypeOfGo fuel (Elem rv)
      | reflect.String => Ret (Some tomlString)
      | reflect.Map => Ret (Some tomlHash)
      | reflect.Struct =>
          match Interface_type rv with
          | IsTime _ => Ret (Some tomlDatetime)
          | IsTextMarshaler _ => Ret (Some tomlString)
          | IsPlain => Ret (Some tomlHash)
          end
      | k => Throw (panicString
                      ("unexpected reflect.Kind: " ++ reflect.Kind_String k))
      end.
Proof. reflexivity. Qed.

Lemma tomlArrayType_S (fuel : nat) (rv : value) :
  tomlArrayType (S fuel) rv =
    if (isNil rv || negb (IsValid rv))%bool then Ret None
    else
      match Len rv with
      | None => lenPanic rv
      | Some O => Ret None
      | Some (S _) =>
          (firstType <- tomlTypeOfGo fuel (Index rv 0) ;;
           match firstType with
           | None => encPanicR errArrayNilElement
           | Some _ =>
               _ <- checkElems (tomlTypeOfGo fuel) firstType
                      (List.tl (Elems rv)) ;;
               if (typeEqual firstType (Some tomlArray) ||
                   typeEqual firstType (Some tomlArrayHash))%bool
               then
                 nest <- tomlArrayType fuel (eindirect (Index rv 0)) ;;
                 if (typeEqual nest (Some tomlHash) ||
                     typeEqual nest (Some tomlArrayHash))%bool
                 then encPanicR errArrayNoTable
                 else Ret firstType
               else Ret firstType
           end)%res
      end.
Proof. reflexivity. Qed.

Lemma checkElems_mono (classify classify' : value -> res tomlType)
    (t : tomlType) (l : list value) :
  (forall x, classify x <> NoFuel -> classify' x = classify x) ->
  checkElems classify t l <> NoFuel ->
  checkElems classify' t l = checkElems classify t l.
Proof.
  intros H. induction l as [|x l IH]; cbn [checkElems]; [reflexivity|].
  intros Hn.
  destruct (classify x) as [[u|]| |] eqn:Hx; cbn [res_bind] in Hn |- *;
    try (rewrite (H x), Hx by (rewrite Hx; discriminate); reflexivity);
    [|contradiction].
  rewrite (H x), Hx by (rewrite Hx; discriminate). cbn [res_bind].
  destruct (negb (typeEqual t (Some u))); [reflexivity | now apply IH].
Qed.

(** What the classification returns or panics with does not change when it
    is given more fuel. *)
Lemma classification_mono (fuel : nat) (rv : value) :
  (tomlTypeOfGo fuel rv <> NoFuel ->
   tomlTypeOfGo (S fuel) rv = tomlTypeOfGo fuel rv) /\
  (tomlArrayType fuel rv <> NoFuel ->
   tomlArrayType (S fuel) rv = tomlArrayType fuel rv).
Proof.
  revert rv. induction fuel as [|fuel IH]; intros rv;
    [split; intros H; now contradiction H|].
  split.
  - rewrite (tomlTypeOfGo_S (S fuel)), (tomlTypeOfGo_S fuel).
    destruct (isNil rv || negb (IsValid rv))%bool; [reflexivity|].
    destruct (Kind_of rv); try reflexivity; intros Hn;
      try (now apply (proj1 (IH (Elem rv))));
      (destruct (tomlArrayType fuel rv) as [t| |] eqn:Ha;
       cbn [res_bind] in Hn; [| |contradiction];
       rewrite (proj2 (IH rv)), Ha by (rewrite Ha; discriminate);
       reflexivity).
  - rewrite (tomlArrayType_S (S fuel)), (tomlArrayType_S fuel).
    destruct (isNil rv || negb (IsValid rv))%bool; [reflexivity|].
    destruct (Len rv) as [[|n]|]; try reflexivity. intros Hn.
    destruct (tomlTypeOfGo fuel (Index rv 0)) as [[t0|]| |] eqn:H0;
      cbn [res_bind] in Hn;
      try (rewrite (proj1 (IH (Index rv 0))), H0 by (rewrite H0; discriminate);
           reflexivity);
      [|contradiction].
    rewrite (proj1 (IH (Index rv 0))), H0 by (rewrite H0; discriminate).
    cbn [res_bind].
    destruct (checkElems (tomlTypeOfGo fuel) (Some t0) (List.tl (Elems rv)))
      as [[]| |] eqn:Hc; cbn [res_bind] in Hn; [| |now contradiction Hn];
      (rewrite (checkElems_mono (tomlTypeOfGo fuel) (tomlTypeOfGo (S fuel)))
         by (try (intros x Hx; now apply (proj1 (IH x)));
             rewrite Hc; discriminate));
      rewrite Hc; cbn [res_bind]; try reflexivity.
    destruct (typeEqual (Some t0) (Some tomlArray) ||
              typeEqual (Some t0) (Some tomlArrayHash))%bool; [|reflexivity].
    destruct (tomlArrayType fuel (eindirect (Index rv 0)))
      as [nest| |] eqn:Hnest;
      cbn [res_bind] in Hn; [| |contradiction];
      rewrite (proj2 (IH (eindirect (Index rv 0)))), Hnest
        by (rewrite Hnest; discriminate);
      reflexivity.
Qed.

Lemma tomlTypeOfGo_more_fuel (fuel extra : nat) (rv : value) :
  tomlTypeOfGo fuel rv <> NoFuel ->
  tomlTypeOfGo (extra + fuel) rv = tomlTypeOfGo fuel rv.
Proof.
  intros H. induction extra as [|extra IH]; [reflexivity|].
  cbn [Nat.add]. rewrite (proj1 (classification_mono _ rv)); rewrite IH; auto.
Qed.

End FuelFacts.

(** ** What is written for an entry, and its kind *)

Module FormFacts.

Import FuelFacts.

Lemma Kind_eqb_true (a b : Kind) : reflect.Kind_eqb a b = true -> a = b.
Proof. destruct a, b; cbn; congruence. Qed.

(** A value marked as a [TextMarshaler] that is a struct is valid, is not
    nil, and is seen as a [TextMarshaler] by both switches. *)
Lemma struct_kind_valid (rv : value) :
  Kind_of rv = reflect.Struct -> IsValid rv = true /\ isNil rv = false.
Proof.
  intros Hk. split.
  - unfold IsValid. rewrite <- ArrayFacts.Kind_of_plain in Hk.
    destruct (plain rv); try reflexivity. discriminate.
  - unfold isNil. now rewrite Hk.
Qed.

(** Under an interface [encode] does what it does with the value inside. *)
Lemma writtenAs_interface (fuel : nat) (x : value) :
  marshalsAsStruct x = true ->
  writtenAs (S (S fuel)) (VInterface (Some x)) = writtenAs (S fuel) x.
Proof.
  intros Hm. destruct x; try reflexivity.
  cbn [marshalsAsStruct] in Hm. apply Kind_eqb_true in Hm.
  destruct (struct_kind_valid (VMarshaler text x) Hm) as [Hv _].
  transitivity (Some Line); [reflexivity|].
  cbn [writtenAs]. now rewrite Hv.
Qed.

(** The kind that [eMap] and [eStruct] sort an entry by is the kind it is
    written as, when its [TextMarshaler]s are structs: the entry is written
    as a table or an array of tables exactly when its type is a table or an
    array of tables. *)
Lemma isTable_typeIsHash (fuel : nat) (v : value) (t : tomlType) :
  marshalsAsStruct v = true ->
  tomlTypeOfGo fuel v = Ret t ->
  isTable (writtenAs (S fuel) v) = typeIsHash t.
Proof.
  revert v t. induction fuel as [|fuel IH]; intros v t Hm Ht;
    [discriminate|].
  pose proof Ht as Ht0. rewrite tomlTypeOfGo_S in Ht.
  destruct v as [| b | k i | k u | k f | s | l | [l|] | [x|] | [x|]
                 | keys [m|] | fs | utc | text x | k].
  18: { cbn [marshalsAsStruct] in Hm. apply Kind_eqb_true in Hm.
        destruct (struct_kind_valid (VMarshaler text x) Hm) as [Hv Hn].
        rewrite Hn, Hv in Ht. cbn [orb negb] in Ht.
        change (Kind_of (VMarshaler text x)) with (Kind_of x) in Ht.
        rewrite Hm in Ht. cbn in Ht. injection Ht as <-.
        cbn [writtenAs]. rewrite Hv. reflexivity. }
  all: cbn in Ht.
  all: try (injection Ht as <-; reflexivity).
  all: try (destruct k; injection Ht as <-; reflexivity).
  all: try (destruct k; discriminate Ht).
  - cbn [writtenAs IsValid plain negb Interface_type Kind_of]. rewrite Ht0.
    destruct (tomlArrayType fuel (VArray l)) as [t0| |]; cbn in Ht;
      try discriminate.
    destruct t0 as [[]|]; cbn in Ht; injection Ht as <-; reflexivity.
  - cbn [writtenAs IsValid plain negb Interface_type Kind_of]. rewrite Ht0.
    destruct (tomlArrayType fuel (VSlice (Some l))) as [t0| |]; cbn in Ht;
      try discriminate.
    destruct t0 as [[]|]; cbn in Ht; injection Ht as <-; reflexivity.
  - rewrite writtenAs_interface by exact Hm. now apply IH.
  - change (writtenAs (S (S fuel)) (VPtr (Some x)))
      with (writtenAs (S fuel) x).
    now apply IH.
Qed.

(** [writtenAs] names what [encode] does. *)
Lemma encode_writtenAs (fuel : nat) (key : Key) (rv : value) (s : form) :
  writtenAs fuel rv = Some s -> does s fuel key rv.
Proof.
  unfold does. revert rv s.
  induction fuel as [|fuel IH]; intros rv s; [discriminate|].
  cbn [writtenAs encode]. unfold encode_body.
  destruct (negb (IsValid rv)).
  { intros [= <-]. eexists. intros enc. reflexivity. }
  destruct (Interface_type rv) as [utc|text|].
  1, 2: intros [= <-]; exists fuel, rv; reflexivity.
  destruct (Kind_of rv);
    try (intros [= <-]; first [ exists fuel, rv; reflexivity
                              | eexists; intros enc; reflexivity ]).
  - destruct (tomlTypeOfGo fuel rv) as [t|p|]; [| |discriminate].
    + destruct (typeEqual (Some tomlArrayHash) t) eqn:E; intros [= <-];
        exists fuel, rv; intros enc; unfold bind, lift; now rewrite E.
    + intros [= <-]. exists p. reflexivity.
  - destruct (IsNil rv); [intros [= <-]; reflexivity | apply IH].
  - destruct (IsNil rv); intros [= <-]; [reflexivity|].
    exists fuel, rv. reflexivity.
  - destruct (IsNil rv); [intros [= <-]; reflexivity | apply IH].
  - destruct (tomlTypeOfGo fuel rv) as [t|p|]; [| |discriminate].
    + destruct (typeEqual (Some tomlArrayHash) t) eqn:E; intros [= <-];
        exists fuel, rv; intros enc; unfold bind, lift; now rewrite E.
    + intros [= <-]. exists p. reflexivity.
Qed.

End FormFacts.

(** ** Maps: the entries in the order of the document *)

Module EntryFacts.

Import SortFacts MapFacts FuelFacts FormFacts.




Lemma assoc_entry (m : list (string * value)) (k : string) :
  In k (List.map fst m) -> In (k, assoc m k) m.
Proof.
  induction m as [|[x v] m IH]; cbn [List.map fst In assoc]; [tauto|].
  destruct (String.eqb_spec x k) as [->|Hx]; [now left|].
  intros [E|Hin]; [contradiction | right; now apply IH].
Qed.




Section Entries.

Variable fuel : nat.
Variable m : list (string * value).

Hypothesis Hclass :
  Forall (fun kv => exists t, tomlTypeOfGo fuel (snd kv) = Ret t) m.
Hypothesis Hmarsh : Forall (fun kv => marshalsAsStruct (snd kv) = true) m.




End Entries.




End EntryFacts.




(** ** The encoder returns or panics when it has fuel enough *)

Module TotalFacts.

Import ArrayFacts FuelFacts.

Lemma finishes_ret {A : Type} (a : A) : finishes (ret a).
Proof. intros enc. discriminate. Qed.

Lemma finishes_bind {A B : Type} (m : M A) (f : A -> M B) :
  finishes m -> (forall a, finishes (f a)) -> finishes (bind m f).
Proof.
  intros Hm Hf enc. unfold bind. specialize (Hm enc).
  destruct (m enc) as [a enc1| |]; [apply Hf | discriminate | contradiction].
Qed.

Lemma finishes_lift {A : Type} (r : res A) : r <> NoFuel -> finishes (lift r).
Proof. intros H enc. destruct r; cbn; [discriminate..|contradiction]. Qed.

Lemma finishes_raise {A : Type} (p : panic) : finishes (@raise A p).
Proof. intros enc. discriminate. Qed.

Lemma finishes_encPanic {A : Type} (err : error) : finishes (@encPanic A err).
Proof. apply finishes_raise. Qed.

Lemma finishes_get {A : Type} (f : Encoder -> A) : finishes (get f).
Proof. intros enc. discriminate. Qed.

Lemma finishes_wf (text : string) : finishes (wf text).
Proof. intros enc. discriminate. Qed.

Lemma finishes_wf0 (format : string) : finishes (wf0 format).
Proof. apply finishes_wf. Qed.

Lemma finishes_set_modifier (m : Modifier) : finishes (set_modifier m).
Proof. intros enc. discriminate. Qed.

Lemma finishes_newline : finishes newline.
Proof.
  apply finishes_bind; [apply finishes_get|].
  intros []; [apply finishes_wf0 | apply finishes_ret].
Qed.

Lemma finishes_indentStr (key : Key) : finishes (indentStr key).
Proof.
  destruct key; [apply finishes_raise|].
  apply finishes_bind; [apply finishes_get | intros; apply finishes_ret].
Qed.

Lemma finishes_writeQuoted (s : string) : finishes (writeQuoted s).
Proof. apply finishes_wf. Qed.

Lemma finishes_writeMultiLineString (s : string) (raw : bool) :
  finishes (writeMultiLineString s raw).
Proof.
  unfold writeMultiLineString.
  apply finishes_bind; [apply finishes_wf0|]. intros _.
  apply finishes_bind; [destruct raw; apply finishes_wf0|]. intros _.
  apply finishes_wf0.
Qed.

Lemma lastSegment_fuel (key : Key) : lastSegment key <> NoFuel.
Proof. unfold lastSegment. destruct (List.rev key); discriminate. Qed.

Lemma panicIfInvalidKey_fuel (key : Key) (hash : bool) :
  panicIfInvalidKey key hash <> NoFuel.
Proof.
  unfold panicIfInvalidKey. destruct hash.
  - destruct (List.forallb _ key); discriminate.
  - pose proof (lastSegment_fuel key) as H.
    destruct (lastSegment key) as [k| |]; cbn [res_bind];
      [destruct (isValidKeyName k)|..]; try discriminate; contradiction.
Qed.

Create HintDb finishes.

#[local] Hint Resolve finishes_ret finishes_raise finishes_encPanic
  finishes_get finishes_wf finishes_wf0 finishes_set_modifier
  finishes_newline finishes_indentStr finishes_writeQuoted
  finishes_writeMultiLineString : finishes.

(** The value inside a pointer or an interface lies less deep. *)
Lemma depth_Elem_lt (rv : value) :
  Kind_of rv = reflect.Ptr \/ Kind_of rv = reflect.Interface ->
  depth (Elem rv) < depth rv.
Proof.
  intros Hk. unfold Elem.
  rewrite <- (depth_plain rv). rewrite <- Kind_of_plain in Hk.
  pose proof (plain_not_marshaler rv) as Hm.
  destruct (plain rv) as [| | | | | | | | [x|] | [x|] | | | | |];
    cbn in Hk |- *; try lia; try (destruct Hk; discriminate).
  - destruct k; destruct Hk; discriminate.
  - destruct k; destruct Hk; discriminate.
  - destruct k; destruct Hk; discriminate.
  - exfalso. eapply Hm. reflexivity.
  - destruct k; destruct Hk; discriminate.
Qed.

Lemma depth_pairs {A : Type} (l : list (A * value)) (p : A * value) :
  In p l ->
  depth (snd p) <=
  (fix depthsOf (l : list (A * value)) : nat :=
     match l with
     | [] => 0
     | p :: r => Nat.max (depth (snd p)) (depthsOf r)
     end) l.
Proof.
  induction l as [|q l IH]; intros Hin; [contradiction|].
  destruct Hin as [->|Hin]; [lia|]. specialize (IH Hin). lia.
Qed.

Lemma depth_Fields (rv : value) (fv : StructField * value) :
  In fv (Fields rv) -> depth (snd fv) < depth rv.
Proof.
  unfold Fields. rewrite <- (depth_plain rv).
  destruct (plain rv) as [| | | | | | | | | | | fs | | |];
    try contradiction.
  intros Hin. pose proof (depth_pairs fs fv Hin). cbn [depth]. lia.
Qed.

Lemma assoc_In (m : list (string * value)) (k : string) :
  assoc m k = Zero \/ In (k, assoc m k) m.
Proof.
  induction m as [|[x v] m IH]; cbn [assoc]; [now left|].
  destruct (String.eqb_spec x k) as [->|_]; [right; now left|].
  destruct IH as [IH|IH]; [now left | right; now right].
Qed.

Lemma depth_MapIndex (rv : value) (k : string) :
  Kind_of rv = reflect.Map -> depth (MapIndex rv k) < depth rv.
Proof.
  intros Hk. unfold MapIndex, MapEntries.
  rewrite <- (depth_plain rv). rewrite <- Kind_of_plain in Hk.
  pose proof (plain_not_marshaler rv) as Hm.
  destruct (plain rv) as [| | | | | | | | | | b [m|] | | | |];
    cbn in Hk; try discriminate.
  - destruct k0; discriminate.
  - destruct k0; discriminate.
  - destruct k0; discriminate.
  - destruct (assoc_In m k) as [->|Hin]; [cbn; lia|].
    pose proof (depth_pairs m _ Hin). cbn [depth snd] in *. lia.
  - cbn. lia.
  - exfalso. eapply Hm. reflexivity.
  - destruct k0; discriminate.
Qed.

Lemma finishes_eArrayLoop (rec : value -> M unit) (elems : list value) :
  (forall x, In x elems -> finishes (rec x)) ->
  finishes (eArrayLoop rec elems).
Proof.
  induction elems as [|elem rest IH]; intros H; cbn [eArrayLoop].
  - apply finishes_ret.
  - apply finishes_bind; [apply H; now left|]. intros _.
    apply finishes_bind; [destruct rest; auto with finishes|]. intros _.
    apply IH. intros x Hx. apply H. now right.
Qed.

Lemma finishes_eElement (fuel : nat) (rv : value) :
  depth rv < fuel -> finishes (eElement fuel rv).
Proof.
  revert rv. induction fuel as [|fuel IH]; intros rv Hd; [lia|].
  cbn [eElement]. unfold eElement_body.
  destruct (negb (IsValid rv)); [apply finishes_raise|].
  destruct (Interface_type rv) as [utc|[s|err]|]; auto with finishes.
  destruct (Kind_of rv) eqn:Hk; auto with finishes.
  - unfold eArrayOrSliceElement.
    apply finishes_bind; [apply finishes_wf0|]. intros _.
    apply finishes_bind; [|intros _; apply finishes_wf0].
    apply finishes_eArrayLoop. intros x Hx. apply IH.
    pose proof (depth_Elems rv x Hx). lia.
  - apply IH. pose proof (depth_Elem_lt rv (or_intror Hk)). lia.
  - unfold eArrayOrSliceElement.
    apply finishes_bind; [apply finishes_wf0|]. intros _.
    apply finishes_bind; [|intros _; apply finishes_wf0].
    apply finishes_eArrayLoop. intros x Hx. apply IH.
    pose proof (depth_Elems rv x Hx). lia.
Qed.

Lemma finishes_keyEqElement (fuel : nat) (key : Key) (val : value) :
  depth val < fuel -> finishes (keyEqElement fuel key val).
Proof.
  intros Hd. unfold keyEqElement. destruct key as [|x key].
  - apply finishes_encPanic.
  - apply finishes_bind; [apply finishes_lift, panicIfInvalidKey_fuel|].
    intros _. apply finishes_bind; [apply finishes_indentStr|]. intros indent.
    apply finishes_bind; [apply finishes_lift, lastSegment_fuel|]. intros k.
    apply finishes_bind; [apply finishes_wf|]. intros _.
    apply finishes_bind.
    { unfold modifiedElement. apply finishes_bind; [apply finishes_get|].
      intros m.
      destruct (String.eqb m _); [apply finishes_writeMultiLineString|].
      destruct (String.eqb m _); [apply finishes_writeMultiLineString|].
      now apply finishes_eElement. }
    intros _. apply finishes_bind; [apply finishes_newline|]. intros _.
    apply finishes_set_modifier.
Qed.

Lemma Field_depth (v : value) (i : nat) (fv : StructField * value) :
  Field v i = Ret fv -> depth (snd fv) < depth v.
Proof.
  unfold Field. destruct (Kind_of v); try discriminate.
  destruct (List.nth_error (Fields v) i) as [x|] eqn:E; [|discriminate].
  intros [= ->]. apply depth_Fields. eapply List.nth_error_In. exact E.
Qed.

Lemma Field_fuel (v : value) (i : nat) : Field v i <> NoFuel.
Proof.
  unfold Field. destruct (Kind_of v); try discriminate.
  destruct (List.nth_error (Fields v) i); discriminate.
Qed.

Lemma FieldByIndex_depth (index : list nat) (v : value)
    (fv : StructField * value) :
  FieldByIndex v index = Ret fv -> depth (snd fv) < depth v.
Proof.
  revert v. induction index as [|x rest IH]; intros v; [discriminate|].
  cbn [FieldByIndex]. destruct rest as [|y rest]; [apply Field_depth|].
  destruct (Field v x) as [next| |] eqn:Hf; cbn [res_bind]; try discriminate.
  pose proof (Field_depth v x next Hf) as Hn.
  destruct (Kind_of (snd next)) eqn:Hk;
    try (intros H; specialize (IH _ H); lia).
  destruct (IsNil (snd next)); [discriminate|].
  pose proof (depth_Elem_lt (snd next) (or_introl Hk)) as He.
  destruct (Kind_of (Elem (snd next)));
    intros H; specialize (IH _ H); lia.
Qed.

Lemma FieldByIndex_fuel (index : list nat) (v : value) :
  FieldByIndex v index <> NoFuel.
Proof.
  revert v. induction index as [|x rest IH]; intros v; [discriminate|].
  cbn [FieldByIndex]. destruct rest as [|y rest]; [apply Field_fuel|].
  pose proof (Field_fuel v x) as Hf.
  destruct (Field v x) as [next| |]; cbn [res_bind];
    [|discriminate|contradiction].
  destruct (Kind_of (snd next)); try apply IH.
  destruct (IsNil (snd next)); [discriminate|].
  destruct (Kind_of (Elem (snd next))); apply IH.
Qed.

Lemma addFieldsLoop_fuel (fuel : nat)
    (rec : value -> list nat -> fieldLists -> res fieldLists)
    (l : list (StructField * value)) (i : nat) (start : list nat)
    (acc : fieldLists) :
  (forall fv, In fv l -> tomlTypeOfGo fuel (snd fv) <> NoFuel) ->
  (forall fv s a, In fv l -> rec (eindirect (snd fv)) s a <> NoFuel) ->
  addFieldsLoop fuel rec l i start acc <> NoFuel.
Proof.
  revert i acc. induction l as [|[f frv] l IH]; intros i acc Ht Hr;
    cbn [addFieldsLoop]; [discriminate|].
  assert (IH' : forall i acc, addFieldsLoop fuel rec l i start acc <> NoFuel).
  { intros j a. apply IH; intros; [apply Ht | apply Hr]; now right. }
  destruct (negb (String.eqb (PkgPath f) "")); [apply IH'|].
  destruct (Anonymous f).
  - destruct (negb (IsValid (eindirect frv))); [discriminate|].
    destruct (negb (reflect.Kind_eqb _ _)); [discriminate|].
    pose proof (Hr (f, frv) [i] acc (or_introl eq_refl)) as H. cbn [snd] in H.
    destruct (rec (eindirect frv) [i] acc); cbn [res_bind];
      [apply IH' | discriminate | contradiction].
  - pose proof (Ht (f, frv) (or_introl eq_refl)) as H. cbn [snd] in H.
    destruct (tomlTypeOfGo fuel frv) as [t| |]; cbn [res_bind];
      [destruct (typeIsHash t); apply IH' | discriminate | contradiction].
Qed.

Lemma addFields_fuel (fuel k : nat) (rv : value) (start : list nat)
    (acc : fieldLists) :
  depth rv < k -> 2 * depth rv <= S fuel ->
  addFields fuel k rv start acc <> NoFuel.
Proof.
  revert rv start acc. induction k as [|k IH]; intros rv start acc Hk Hf;
    [lia|].
  cbn [addFields]. apply addFieldsLoop_fuel.
  - intros fv Hin. pose proof (depth_Fields rv fv Hin).
    apply classification_fuel. lia.
  - intros fv s a Hin. pose proof (depth_Fields rv fv Hin).
    pose proof (depth_eindirect (snd fv)). apply IH; lia.
Qed.

Section Finishes.

Variable fuel : nat.
Variable rec : Key -> value -> M unit.

Lemma splitMapKeys_fuel (rv : value) (mapKeys direct sub : list string) :
  (forall k, tomlTypeOfGo fuel (MapIndex rv k) <> NoFuel) ->
  splitMapKeys fuel rv mapKeys direct sub <> NoFuel.
Proof.
  intros H. revert direct sub.
  induction mapKeys as [|k rest IH]; intros direct sub; cbn [splitMapKeys];
    [discriminate|].
  specialize (H k).
  destruct (tomlTypeOfGo fuel (MapIndex rv k)) as [t| |]; cbn [res_bind];
    [destruct (typeIsHash t); apply IH | discriminate | contradiction].
Qed.

Lemma finishes_writeMapKeysLoop (key : Key) (rv : value)
    (mapKeys : list string) :
  (forall k v, depth v < depth rv -> finishes (rec k v)) ->
  Kind_of rv = reflect.Map ->
  finishes (writeMapKeysLoop rec key rv mapKeys).
Proof.
  intros H Hk. induction mapKeys as [|mapKey rest IH]; cbn [writeMapKeysLoop].
  - apply finishes_ret.
  - apply finishes_bind; [|intros _; exact IH].
    destruct (MapFacts.MapIndexOfString_cases rv mapKey) as [->|[p ->]].
    + change (finishes (if isNil (MapIndex rv mapKey) then ret tt
                        else rec (Key_add key mapKey) (MapIndex rv mapKey))).
      destruct (isNil _); [apply finishes_ret|].
      apply H. now apply depth_MapIndex.
    + intros enc. discriminate.
Qed.

Lemma finishes_eMap (key : Key) (rv : value) :
  (forall k v, depth v < depth rv -> finishes (rec k v)) ->
  Kind_of rv = reflect.Map ->
  2 * depth rv <= S fuel ->
  finishes (eMap fuel rec key rv).
Proof.
  intros H Hk Hd. unfold eMap.
  destruct (negb _); [apply finishes_encPanic|].
  apply finishes_bind.
  { apply finishes_lift, splitMapKeys_fuel. intros k.
    pose proof (depth_MapIndex rv k Hk). apply classification_fuel. lia. }
  intros ks. unfold writeMapKeys.
  apply finishes_bind; [now apply finishes_writeMapKeysLoop|]. intros _.
  now apply finishes_writeMapKeysLoop.
Qed.

Lemma finishes_writeFields (key : Key) (rv : value)
    (fields : list (list nat)) :
  (forall k v, depth v < depth rv -> finishes (rec k v)) ->
  finishes (writeFields rec key rv fields).
Proof.
  intros H. induction fields as [|fieldIndex rest IH]; cbn [writeFields].
  - apply finishes_ret.
  - apply finishes_bind; [|intros _; exact IH].
    unfold writeField. intros enc. unfold bind at 1, lift.
    pose proof (FieldByIndex_fuel fieldIndex rv) as Hf.
    destruct (FieldByIndex rv fieldIndex) as [[sft sf]| |] eqn:E;
      [|discriminate|contradiction].
    cbn [fst snd]. destruct (isNil sf); [discriminate|].
    destruct (String.eqb _ "-"); [discriminate|].
    apply finishes_bind; [apply finishes_set_modifier|]. intros _.
    apply H. exact (FieldByIndex_depth fieldIndex rv _ E).
Qed.

Lemma finishes_eStruct (key : Key) (rv : value) :
  (forall k v, depth v < depth rv -> finishes (rec k v)) ->
  2 * depth rv < fuel ->
  finishes (eStruct fuel rec key rv).
Proof.
  intros H Hd. unfold eStruct.
  apply finishes_bind; [apply finishes_lift, addFields_fuel; lia|].
  intros fs.
  apply finishes_bind; [now apply finishes_writeFields|]. intros _.
  now apply finishes_writeFields.
Qed.

Lemma finishes_eMapOrStruct (key : Key) (rv : value) :
  (forall k v, depth v < depth rv -> finishes (rec k v)) ->
  2 * depth rv < fuel ->
  finishes (eMapOrStruct fuel rec key rv).
Proof.
  intros H Hd. unfold eMapOrStruct.
  pose proof (depth_eindirect rv) as He.
  assert (H' : forall k v, depth v < depth (eindirect rv) -> finishes (rec k v))
    by (intros k v Hv; apply H; lia).
  destruct (Kind_of (eindirect rv)) eqn:Hk; try apply finishes_raise.
  - apply finishes_eMap; auto; lia.
  - apply finishes_eStruct; auto; lia.
Qed.

Lemma finishes_eTable (key : Key) (rv : value) :
  (forall k v, depth v < depth rv -> finishes (rec k v)) ->
  2 * depth rv < fuel ->
  finishes (eTable fuel rec key rv).
Proof.
  intros H Hd. unfold eTable.
  apply finishes_bind.
  { destruct (Nat.eqb _ 1); auto with finishes. }
  intros _. apply finishes_bind; [|intros _; now apply finishes_eMapOrStruct].
  destruct (Nat.ltb 0 _); [|apply finishes_ret].
  apply finishes_bind; [apply finishes_lift, panicIfInvalidKey_fuel|].
  intros _. apply finishes_bind; [apply finishes_indentStr|]. intros indent.
  apply finishes_bind; [apply finishes_wf|]. intros _.
  apply finishes_newline.
Qed.

Lemma finishes_eArrayOfTables (key : Key) (rv : value) :
  (forall k v, depth v < depth rv -> finishes (rec k v)) ->
  2 * depth rv < fuel ->
  finishes (eArrayOfTables fuel rec key rv).
Proof.
  intros H Hd. unfold eArrayOfTables.
  destruct (Nat.eqb _ 0); [apply finishes_encPanic|].
  apply finishes_bind; [apply finishes_lift, panicIfInvalidKey_fuel|].
  intros _. pose proof (depth_Elems rv) as Hel.
  induction (Elems rv) as [|trv rest IH]; cbn [eArrayOfTablesLoop].
  - apply finishes_ret.
  - apply finishes_bind;
      [|intros _; apply IH; intros x Hx; apply Hel; now right].
    destruct (isNil trv); [apply finishes_ret|].
    specialize (Hel trv (or_introl eq_refl)).
    apply finishes_bind; [apply finishes_newline|]. intros _.
    apply finishes_bind; [apply finishes_indentStr|]. intros indent.
    apply finishes_bind; [apply finishes_wf|]. intros _.
    apply finishes_bind; [apply finishes_newline|]. intros _.
    apply finishes_eMapOrStruct; [|lia].
    intros k v Hv. apply H. lia.
Qed.

Lemma finishes_encode_body (key : Key) (rv : value) :
  (forall k v, depth v < depth rv -> finishes (rec k v)) ->
  2 * depth rv < fuel ->
  finishes (encode_body fuel rec key rv).
Proof.
  intros H Hd. unfold encode_body.
  assert (Hkey : finishes (keyEqElement fuel key rv))
    by (apply finishes_keyEqElement; lia).
  destruct (negb (IsValid rv)); [apply finishes_raise|].
  destruct (Interface_type rv); try exact Hkey.
  destruct (Kind_of rv) eqn:Hk; try exact Hkey; try apply finishes_raise;
    try (destruct (IsNil rv); [apply finishes_ret|]);
    first [ apply finishes_eTable; assumption
          | apply H; apply depth_Elem_lt; auto
          | apply finishes_bind;
            [apply finishes_lift, classification_fuel; lia|];
            intros t; destruct (typeEqual _ t);
            [now apply finishes_eArrayOfTables | exact Hkey] ].
Qed.

End Finishes.

Lemma finishes_encode (fuel : nat) (key : Key) (rv : value) :
  2 * depth rv + 1 < fuel -> finishes (encode fuel key rv).
Proof.
  revert key rv. induction fuel as [|fuel IH]; intros key rv Hd; [lia|].
  cbn [encode]. apply finishes_encode_body; [|lia].
  intros k v Hv. apply IH. lia.
Qed.

(** [Encode] with more fuel than twice the depth of the value, and two,
    returns or panics. *)
Lemma Encode_finishes (fuel : nat) (v : value) :
  2 * depth v + 1 < fuel -> finishes (Encode fuel v).
Proof.
  intros Hd. unfold Encode.
  apply finishes_bind; [|intros [err|]; apply finishes_ret].
  intros enc. unfold safeEncode.
  pose proof (depth_eindirect v) as He.
  pose proof (finishes_encode fuel [] (eindirect v) ltac:(lia) enc) as H.
  destruct (encode fuel [] (eindirect v) enc) as [a e1|[err|err|msg] e1|];
    try discriminate. contradiction.
Qed.

End TotalFacts.

(** ** Quoted strings: the escapes can be read back *)

Module QuoteFacts.

Import BytesFacts.

(** What the replacer writes for a byte reads back as that byte. *)
Lemma unquote_lookup (c : ascii) (r : string) :
  unquote (strings.lookup quotedReplacer c ++ r) = String c (unquote r).
Proof.
  unfold quotedReplacer. cbn [strings.lookup].
  destruct (Ascii.eqb_spec c Bytes.tab) as [->|_]; [reflexivity|].
  destruct (Ascii.eqb_spec c Bytes.lf) as [->|_]; [reflexivity|].
  destruct (Ascii.eqb_spec c Bytes.cr) as [->|_]; [reflexivity|].
  destruct (Ascii.eqb_spec c Bytes.dquote) as [->|_]; [reflexivity|].
  destruct (Ascii.eqb_spec c Bytes.backslash) as [->|Hb]; [reflexivity|].
  unfold Bytes.str. cbn [append unquote].
  destruct (Ascii.eqb_spec c Bytes.backslash); [contradiction | reflexivity].
Qed.

Lemma unquote_Replace (s : string) :
  unquote (strings.Replace quotedReplacer s) = s.
Proof.
  unfold strings.Replace. induction s as [|c s IH]; [reflexivity|].
  cbn [Bytes.flat_map]. now rewrite unquote_lookup, IH.
Qed.

(** The replacer writes none of the three control bytes it escapes, and a
    double quote only behind a backslash. *)
Lemma lookup_controls (c0 c : ascii) :
  c0 = Bytes.tab \/ c0 = Bytes.lf \/ c0 = Bytes.cr ->
  Bytes.occurs c0 (strings.lookup quotedReplacer c) = false.
Proof.
  intros H0. unfold quotedReplacer. cbn [strings.lookup].
  destruct (Ascii.eqb_spec c Bytes.tab);
    [destruct H0 as [->|[->| ->]]; reflexivity|].
  destruct (Ascii.eqb_spec c Bytes.lf);
    [destruct H0 as [->|[->| ->]]; reflexivity|].
  destruct (Ascii.eqb_spec c Bytes.cr);
    [destruct H0 as [->|[->| ->]]; reflexivity|].
  destruct (Ascii.eqb_spec c Bytes.dquote);
    [destruct H0 as [->|[->| ->]]; reflexivity|].
  destruct (Ascii.eqb_spec c Bytes.backslash);
    [destruct H0 as [->|[->| ->]]; reflexivity|].
  unfold Bytes.str. cbn [Bytes.occurs].
  destruct (Ascii.eqb_spec c0 c) as [<-|]; [|reflexivity].
  destruct H0 as [->|[->| ->]]; contradiction.
Qed.

Lemma Replace_controls (c0 : ascii) (s : string) :
  c0 = Bytes.tab \/ c0 = Bytes.lf \/ c0 = Bytes.cr ->
  Bytes.occurs c0 (strings.Replace quotedReplacer s) = false.
Proof.
  intros H0. unfold strings.Replace. induction s as [|c s IH]; [reflexivity|].
  cbn [Bytes.flat_map]. now rewrite occurs_append, IH, lookup_controls.
Qed.

End QuoteFacts.

(** X1.  The escaping of [quotedReplacer], which [writeQuoted] puts between
    two double quotes, loses nothing: reading every backslash pair back as
    the byte it stands for returns the string, so two strings with the same
    escaped form are the same string; and the escaped form holds no tab, no
    line feed and no carriage return, so that the literal stays on its
    line. *)
Theorem quoted_escapes_read_back (s : string) :
  unquote (strings.Replace quotedReplacer s) = s /\
  (forall s' : string,
     strings.Replace quotedReplacer s' = strings.Replace quotedReplacer s ->
     s' = s) /\
  Bytes.occurs Bytes.tab (strings.Replace quotedReplacer s) = false /\
  Bytes.occurs Bytes.lf (strings.Replace quotedReplacer s) = false /\
  Bytes.occurs Bytes.cr (strings.Replace quotedReplacer s) = false.
Proof.
  split; [apply QuoteFacts.unquote_Replace|]. split.
  - intros s' H. rewrite <- (QuoteFacts.unquote_Replace s'), H.
    apply QuoteFacts.unquote_Replace.
  - repeat split; apply QuoteFacts.Replace_controls; auto.
Qed.

(** ** Array literals *)

Module LiteralFacts.

Import BytesFacts LineFacts ArrayFacts.

Lemma IsValid_kind (rv : value) :
  Kind_of rv <> reflect.Invalid -> IsValid rv = true.
Proof.
  unfold IsValid. rewrite <- Kind_of_plain.
  destruct (plain rv); cbn; intros H; congruence.
Qed.

Lemma IsValid_arrayKind (rv : value) : arrayKind rv -> IsValid rv = true.
Proof. intros [H|H]; apply IsValid_kind; rewrite H; discriminate. Qed.

(** The loop writes the texts of the elements with a comma and a space
    between two of them. *)
Lemma eArrayLoop_texts (rec : value -> M unit) (text : value -> string)
    (elems : list value) :
  (forall x, In x elems ->
     forall enc, rec x enc = Done tt (written enc (text x))) ->
  forall (enc : Encoder) (a : string),
    eArrayLoop rec elems (written enc a) =
      Done tt (written enc (a ++ strings.Join (List.map text elems) ", ")).
Proof.
  induction elems as [|x rest IH]; intros H enc a.
  - cbn. now rewrite append_nil_r.
  - cbn [eArrayLoop]. unfold bind at 1.
    rewrite (H x (or_introl eq_refl)), written_written.
    destruct rest as [|y rest].
    + reflexivity.
    + unfold bind at 1. unfold wf0, wf.
      change (fmt.Sprintf0 ", ") with ", ". rewrite written_written.
      rewrite IH by (intros z Hz; apply H; now right).
      unfold strings.Join. cbn [List.map String.concat].
      now rewrite !append_assoc.
Qed.

End LiteralFacts.

(** X2.  An array or a slice is written as a bracketed list on one line:
    when every element is written as its text, whatever has been written
    before it, the array is written as an opening bracket, the texts of the
    elements in their order with a comma and a space between two of them,
    and a closing bracket; an array without elements (or a nil slice) is
    [[]]. *)
Theorem array_literal_brackets_and_commas (fuel : nat) (rv : value)
    (text : value -> string) :
  Interface_type rv = IsPlain ->
  arrayKind rv ->
  (forall x, In x (Elems rv) ->
     forall enc, eElement fuel x enc = Done tt (written enc (text x))) ->
  forall enc : Encoder,
    eElement (S fuel) rv enc =
      Done tt (written enc
                 ("[" ++ strings.Join (List.map text (Elems rv)) ", " ++ "]")).
Proof.
  intros Ht Hk Hx enc. cbn [eElement]. unfold eElement_body.
  rewrite (LiteralFacts.IsValid_arrayKind rv Hk), Ht. cbn [negb].
  destruct Hk as [Hk|Hk]; rewrite Hk;
    unfold eArrayOrSliceElement; unfold bind at 1; unfold wf0 at 1, wf;
    change (fmt.Sprintf0 "[") with "["; unfold bind;
    rewrite (LiteralFacts.eArrayLoop_texts _ text _ Hx);
    unfold wf0, wf; change (fmt.Sprintf0 "]") with "]";
    rewrite LineFacts.written_written;
    now rewrite BytesFacts.append_assoc.
Qed.

Lemma array_literal_brackets_and_commas_witness :
  eElement 2 (VSlice (Some [VInt KInt 1; VInt KInt 22; VInt KInt (-3)]))
    NewEncoder = Done tt (written NewEncoder "[1, 22, -3]").
Proof.
  apply (array_literal_brackets_and_commas 1
           (VSlice (Some [VInt KInt 1; VInt KInt 22; VInt KInt (-3)]))
           (fun x => strconv.FormatInt (Int_of x))).
  - reflexivity.
  - right. reflexivity.
  - intros x [<-|[<-|[<-|[]]]] enc; reflexivity.
Defined.

(** ** The value given to [Encode] *)

Module TopFacts.

(** [Encode] is [encode] at the empty key, with a [tomlEncodeError] turned
    into the error returned. *)
Lemma Encode_encode (fuel : nat) (v : value) (enc : Encoder) :
  Encode fuel v enc =
    match encode fuel [] (eindirect v) enc with
    | Done _ enc' => Done None enc'
    | Panicked (tomlEncodeError err) enc' => Done (Some err) enc'
    | Panicked p enc' => Panicked p enc'
    | Exhausted => Exhausted
    end.
Proof.
  unfold Encode, bind, safeEncode.
  destruct (encode fuel [] (eindirect v) enc) as [a e1|[err|err|msg] e1|];
    reflexivity.
Qed.

(** The first loop of [eMap] panics with what the classification of the
    first entry it cannot classify panics with. *)
Lemma splitMapKeys_Throw (fuel : nat) (rv : value) (pre post : list string)
    (k : string) (p : panic) :
  Forall (fun k' => exists t, tomlTypeOfGo fuel (MapIndex rv k') = Ret t)
         pre ->
  tomlTypeOfGo fuel (MapIndex rv k) = Throw p ->
  forall d s : list string,
    splitMapKeys fuel rv (pre ++ k :: post)%list d s = Throw p.
Proof.
  intros Hpre Hk. induction Hpre as [|k' pre [t Ht] _ IH]; intros d s;
    cbn [List.app splitMapKeys].
  - now rewrite Hk.
  - rewrite Ht. cbn [res_bind]. destruct (typeIsHash t); apply IH.
Qed.

End TopFacts.

(** X3.  [Encode] encodes the value it is given with the pointers and
    interfaces taken off by [eindirect], and that value must be a table.
    When it is a boolean, an integer, a float, a string, a [time.Time], a
    value that implements [TextMarshaler] itself, or an array or slice that
    the classification accepts (of tables or not), it has no key to be
    written under: [Encode] returns [errNoKey] and has written nothing.  (A
    pointer that implements [TextMarshaler] is taken off by [eindirect] like
    any pointer; what is said here is said of the value behind it.) *)
Theorem top_level_value_needs_a_key (fuel : nat) (v : value) (enc : Encoder) :
  IsValid (eindirect v) = true ->
  Interface_type (eindirect v) <> IsPlain \/
  leafKind (Kind_of (eindirect v)) = true \/
  (arrayKind (eindirect v) /\
   exists t, tomlTypeOfGo fuel (eindirect v) = Ret t) ->
  Encode (S fuel) v enc = Done (Some errNoKey) enc.
Proof.
  intros Hv H. rewrite TopFacts.Encode_encode. cbn [encode].
  unfold encode_body. rewrite Hv. cbn [negb].
  destruct (Interface_type (eindirect v)) eqn:Ht; try reflexivity.
  destruct H as [H|[H|[Hk [t Hc]]]]; [now contradiction H| |].
  - destruct (Kind_of (eindirect v)); try discriminate H; reflexivity.
  - destruct Hk as [Hk|Hk]; rewrite Hk; unfold bind; rewrite Hc; cbn [lift];
      destruct (typeEqual (Some tomlArrayHash) t); reflexivity.
Qed.

Lemma top_level_value_needs_a_key_witness :
  Encode 1 (VPtr (Some (VInt KInt 5))) NewEncoder =
    Done (Some errNoKey) NewEncoder.
Proof.
  apply (top_level_value_needs_a_key 0 (VPtr (Some (VInt KInt 5))) NewEncoder).
  - reflexivity.
  - right. left. reflexivity.
Defined.

(** X4.  [Encode] of nil, of a nil pointer or of a pointer to a nil
    interface panics: [eindirect] ends on the zero Value, on which
    [rv.Interface()] panics, and the panic is not a [tomlEncodeError], so
    that [safeEncode] does not turn it into an error.  Nothing is
    written. *)
Theorem Encode_nil_panics (fuel : nat) (v : value) (enc : Encoder) :
  eindirect v = Zero ->
  Encode (S fuel) v enc =
    Panicked
      (panicString "reflect: call of reflect.Value.Interface on zero Value")
      enc.
Proof. intros H. rewrite TopFacts.Encode_encode, H. reflexivity. Qed.

Lemma Encode_nil_panics_witness :
  Encode 1 (VPtr (Some (VInterface None))) NewEncoder =
    Panicked
      (panicString "reflect: call of reflect.Value.Interface on zero Value")
      NewEncoder.
Proof.
  apply (Encode_nil_panics 0 (VPtr (Some (VInterface None))) NewEncoder).
  reflexivity.
Defined.

(** X5.  A value of a kind the encoder has no case for (uintptr, a complex
    number, a channel, a function, an unsafe pointer) makes [Encode] panic;
    no error is returned.  Given to [Encode] itself, the panic is the error
    made by [e], which is not wrapped in a [tomlEncodeError]; as an entry of
    the map given to [Encode], it is the string panic of [tomlTypeOfGo],
    raised while the entries are classified, before anything is written,
    when the entries before it in the order of [MapKeys] are classified. *)
Theorem unsupported_kind_panics (fuel : nat) (k : other_kind)
    (enc : Encoder) :
  (forall v : value,
     eindirect v = VOther k ->
     Encode (S fuel) v enc =
       Panicked
         (panicError
            (e ("Unsupported type for key '': " ++
                reflect.Kind_String (Kind_of_other k))))
         enc) /\
  (forall (m : list (string * value)) (pre post : list string)
          (key : string),
     List.map fst m = (pre ++ key :: post)%list ->
     Forall (fun k' => exists t, tomlTypeOfGo (S fuel) (assoc m k') = Ret t)
            pre ->
     assoc m key = VOther k ->
     Encode (S (S fuel)) (VMap StringKey (Some m)) enc =
       Panicked
         (panicString
            ("unexpected reflect.Kind: " ++
             reflect.Kind_String (Kind_of_other k)))
         enc).
Proof.
  split.
  - intros v H. rewrite TopFacts.Encode_encode, H. cbn [encode].
    destruct k; reflexivity.
  - intros m pre post key Hm Hpre Hk. rewrite TopFacts.Encode_encode.
    cbn [eindirect encode]. unfold encode_body.
    cbn [IsValid plain negb Interface_type Kind_of IsNil].
    unfold eTable. cbn [List.length Nat.eqb Nat.ltb Nat.leb].
    unfold bind at 1. cbn [ret]. unfold bind at 1. cbn [ret].
    unfold eMapOrStruct. cbn [eindirect Kind_of]. unfold eMap.
    cbn [MapKeyIsString plain negb]. unfold bind at 1.
    change (MapKeys (VMap StringKey (Some m))) with (List.map fst m).
    rewrite Hm.
    rewrite (TopFacts.splitMapKeys_Throw (S fuel) (VMap StringKey (Some m))
               pre post key
               (panicString
                  ("unexpected reflect.Kind: " ++
                   reflect.Kind_String (Kind_of_other k)))).
    + reflexivity.
    + exact Hpre.
    + change (MapIndex (VMap StringKey (Some m)) key) with (assoc m key).
      rewrite Hk. destruct k; reflexivity.
Qed.

Lemma unsupported_kind_panics_witness :
  Encode 2 (VMap StringKey (Some [("a", VInt KInt 1); ("c", VOther KChan)]))
    NewEncoder =
    Panicked (panicString "unexpected reflect.Kind: chan") NewEncoder.
Proof.
  apply (proj2 (unsupported_kind_panics 0 KChan NewEncoder)
           [("a", VInt KInt 1); ("c", VOther KChan)] ["a"] [] "c").
  - reflexivity.
  - constructor; [|constructor]. exists (Some tomlInteger). reflexivity.
  - reflexivity.
Defined.

(** ** The classification of pointers and of arrays *)

Module ClassFacts.

Import ArrayFacts FuelFacts.

Lemma IsNil_Elem (rv : value) : IsNil rv = true -> Elem rv = Zero.
Proof.
  unfold IsNil, Elem.
  destruct (plain rv) as [| | | | | | | [l|] | [x|] | [x|] | b [m|] | | | |];
    intros H; try discriminate H; reflexivity.
Qed.

(** [eindirect] ends on a value that is neither a pointer nor an
    interface. *)
Lemma eindirect_kind_bounded (n : nat) (v : value) :
  depth v < n ->
  Kind_of (eindirect v) <> reflect.Ptr /\
  Kind_of (eindirect v) <> reflect.Interface.
Proof.
  revert v. induction n as [|n IH]; intros v Hd; [lia|].
  rewrite ModelFacts.eindirect_eq.
  destruct (Kind_of v) eqn:Hk; cbv iota;
    try (rewrite Hk; split; discriminate);
    apply IH;
    (assert (Hlt : depth (Elem v) < depth v)
       by (apply TotalFacts.depth_Elem_lt; rewrite Hk; auto));
    lia.
Qed.

Lemma eindirect_kind (v : value) :
  Kind_of (eindirect v) <> reflect.Ptr /\
  Kind_of (eindirect v) <> reflect.Interface.
Proof.
  exact (eindirect_kind_bounded (S (depth v)) v (Nat.lt_succ_diag_r _)).
Qed.

(** The classification of a value is the classification of what
    [eindirect] finds behind it. *)
Lemma tomlTypeOfGo_eindirect (fuel : nat) (rv : value) :
  tomlTypeOfGo fuel rv <> NoFuel ->
  tomlTypeOfGo fuel (eindirect rv) = tomlTypeOfGo fuel rv.
Proof.
  revert rv. induction fuel as [|fuel IH]; intros rv Hn;
    [now contradiction Hn|].
  rewrite (ModelFacts.eindirect_eq rv).
  destruct (Kind_of rv) eqn:Hk; try reflexivity.
  - (* Interface *)
    rewrite (tomlTypeOfGo_S fuel rv) in Hn |- *. unfold isNil in Hn |- *.
    rewrite Hk in Hn |- *.
    destruct (IsNil rv) eqn:Hnil; cbn [orb] in Hn |- *.
    + rewrite (IsNil_Elem rv Hnil). reflexivity.
    + destruct (negb (IsValid rv)) eqn:Hv.
      * unfold IsValid, Elem in *. rewrite <- Kind_of_plain in Hk.
        destruct (plain rv); cbn in Hk, Hv; try discriminate; reflexivity.
      * rewrite <- (IH (Elem rv) Hn).
        apply (proj1 (classification_mono fuel (eindirect (Elem rv)))).
        now rewrite (IH (Elem rv) Hn).
  - (* Ptr *)
    rewrite (tomlTypeOfGo_S fuel rv) in Hn |- *. unfold isNil in Hn |- *.
    rewrite Hk in Hn |- *.
    destruct (IsNil rv) eqn:Hnil; cbn [orb] in Hn |- *.
    + rewrite (IsNil_Elem rv Hnil). reflexivity.
    + destruct (negb (IsValid rv)) eqn:Hv.
      * unfold IsValid, Elem in *. rewrite <- Kind_of_plain in Hk.
        destruct (plain rv); cbn in Hk, Hv; try discriminate; reflexivity.
      * rewrite <- (IH (Elem rv) Hn).
        apply (proj1 (classification_mono fuel (eindirect (Elem rv)))).
        now rewrite (IH (Elem rv) Hn).
Qed.

(** What [tomlArrayType] returned for a value that is classified as an
    array. *)
Lemma tomlTypeOfGo_array_inv (fuel : nat) (x : value) (t : tomlBaseType) :
  Kind_of x <> reflect.Ptr -> Kind_of x <> reflect.Interface ->
  tomlTypeOfGo (S fuel) x = Ret (Some t) ->
  t = tomlArray \/ t = tomlArrayHash ->
  exists u : tomlType,
    tomlArrayType fuel x = Ret u /\
    typeEqual (Some tomlHash) u =
      tomlBaseType_eqb t tomlArrayHash.
Proof.
  intros Hp Hi. rewrite tomlTypeOfGo_S.
  destruct (isNil x || negb (IsValid x))%bool; [discriminate|].
  assert (Ha : (t0 <- tomlArrayType fuel x ;;
                if typeEqual (Some tomlHash) t0 then Ret (Some tomlArrayHash)
                else Ret (Some tomlArray))%res = Ret (Some t) ->
               t = tomlArray \/ t = tomlArrayHash ->
               exists u : tomlType,
                 tomlArrayType fuel x = Ret u /\
                 typeEqual (Some tomlHash) u =
                   tomlBaseType_eqb t tomlArrayHash).
  { destruct (tomlArrayType fuel x) as [u| |]; cbn [res_bind];
      try discriminate.
    destruct (typeEqual (Some tomlHash) u) eqn:E; intros H _;
      injection H as <-; exists u; split; auto. }
  destruct (Kind_of x); try exact Ha; try contradiction;
    try (intros H [-> | ->]; discriminate H).
  destruct (Interface_type x); intros H [-> | ->]; discriminate H.
Qed.

(** The array type of what an element classified as an array holds. *)
Lemma nest_of_array (fuel : nat) (e0 : value) (t : tomlBaseType) :
  tomlTypeOfGo fuel e0 = Ret (Some t) ->
  t = tomlArray \/ t = tomlArrayHash ->
  exists u : tomlType,
    tomlArrayType fuel (eindirect e0) = Ret u /\
    typeEqual (Some tomlHash) u = tomlBaseType_eqb t tomlArrayHash.
Proof.
  intros H Ht. destruct fuel as [|fuel]; [discriminate|].
  assert (He : tomlTypeOfGo (S fuel) (eindirect e0) = Ret (Some t)).
  { rewrite tomlTypeOfGo_eindirect; [exact H | rewrite H; discriminate]. }
  destruct (eindirect_kind e0) as [Hp Hi].
  destruct (tomlTypeOfGo_array_inv fuel (eindirect e0) t Hp Hi He Ht)
    as [u [Hu Hh]].
  exists u. split; [|exact Hh].
  rewrite (proj2 (classification_mono fuel (eindirect e0))); [exact Hu|].
  rewrite Hu. discriminate.
Qed.

Lemma typeEqual_sym (a b : tomlType) : typeEqual a b = typeEqual b a.
Proof. destruct a as [[]|], b as [[]|]; reflexivity. Qed.

Lemma checkElems_all (classify : value -> res tomlType) (t : tomlBaseType)
    (l : list value) :
  Forall (fun x => classify x = Ret (Some t)) l ->
  checkElems classify (Some t) l = Ret tt.
Proof.
  induction 1 as [|x l Hx _ IH]; cbn [checkElems]; [reflexivity|].
  rewrite Hx. cbn [res_bind]. rewrite typeEqual_same. exact IH.
Qed.

(** [tomlArrayType] never answers that the elements are arrays of tables:
    it panics on such an array. *)
Lemma tomlArrayType_not_arrayHash (fuel : nat) (rv : value) :
  tomlArrayType fuel rv <> Ret (Some tomlArrayHash).
Proof.
  destruct fuel as [|fuel]; [discriminate|]. rewrite tomlArrayType_S.
  destruct (isNil rv || negb (IsValid rv))%bool; [discriminate|].
  destruct (Len rv) as [[|n]|]; try discriminate.
  destruct (tomlTypeOfGo fuel (Index rv 0)) as [[t0|]| |] eqn:H0;
    cbn [res_bind]; try discriminate.
  destruct (checkElems (tomlTypeOfGo fuel) (Some t0) (List.tl (Elems rv)))
    as [[]| |]; cbn [res_bind]; try discriminate.
  destruct t0; cbn [typeEqual tomlBaseType_eqb orb]; try discriminate.
  - destruct (tomlArrayType fuel (eindirect (Index rv 0))) as [nest| |];
      cbn [res_bind]; try discriminate.
    destruct (typeEqual nest (Some tomlHash) ||
              typeEqual nest (Some tomlArrayHash))%bool; discriminate.
  - destruct (nest_of_array fuel (Index rv 0) tomlArrayHash H0
                (or_intror eq_refl)) as [u [Hu Hh]].
    rewrite Hu. cbn [res_bind]. rewrite (typeEqual_sym u), Hh.
    discriminate.
Qed.

(** [tomlTypeOfGo] on an array or a slice that is not nil. *)
Lemma tomlTypeOfGo_array (fuel : nat) (rv : value) :
  arrayKind rv -> isNil rv = false ->
  tomlTypeOfGo (S fuel) rv =
    (t <- tomlArrayType fuel rv ;;
     if typeEqual (Some tomlHash) t then Ret (Some tomlArrayHash)
     else Ret (Some tomlArray))%res.
Proof.
  intros Hk Hn. destruct (array_like rv Hk Hn) as [Hv _].
  rewrite tomlTypeOfGo_S, Hn, Hv. cbn [orb negb].
  destruct Hk as [Hk|Hk]; rewrite Hk; reflexivity.
Qed.

End ClassFacts.

(** X6.  The classification looks through pointers and interfaces: when it
    has fuel for a value, it gives the value the type, or the panic, that
    it gives the value [eindirect] finds behind the pointers and
    interfaces; a nil pointer or interface has no type, like the zero Value
    that [eindirect] finds behind it. *)
Theorem classification_looks_through_pointers (fuel : nat) (rv : value) :
  tomlTypeOfGo fuel rv <> NoFuel ->
  tomlTypeOfGo fuel (eindirect rv) = tomlTypeOfGo fuel rv.
Proof. apply ClassFacts.tomlTypeOfGo_eindirect. Qed.

Lemma classification_looks_through_pointers_witness :
  tomlTypeOfGo 3
    (eindirect (VPtr (Some (VInterface (Some (VString "a")))))) =
  tomlTypeOfGo 3 (VPtr (Some (VInterface (Some (VString "a"))))).
Proof.
  apply (classification_looks_through_pointers 3
           (VPtr (Some (VInterface (Some (VString "a")))))).
  discriminate.
Defined.

(** X7.  An array or a slice whose elements all have the same type [t] (the
    classification gives each of them [t]).  [tomlArrayType] returns [t],
    for arrays of arrays as well, and the value is an array of tables when
    [t] is the table type and a plain array otherwise; except when [t] is
    the array of tables: an array of arrays of tables always panics with
    [errArrayNoTable]. *)
Theorem homogeneous_array_type (fuel : nat) (rv : value) (t : tomlBaseType)
    (e0 : value) (rest : list value) :
  arrayKind rv ->
  isNil rv = false ->
  Elems rv = e0 :: rest ->
  Forall (fun x => tomlTypeOfGo fuel x = Ret (Some t)) (e0 :: rest) ->
  tomlArrayType (S fuel) rv =
    (if tomlBaseType_eqb t tomlArrayHash
     then encPanicR errArrayNoTable else Ret (Some t)) /\
  tomlTypeOfGo (S (S fuel)) rv =
    (if tomlBaseType_eqb t tomlArrayHash
     then encPanicR errArrayNoTable
     else if tomlBaseType_eqb t tomlHash then Ret (Some tomlArrayHash)
     else Ret (Some tomlArray)).
Proof.
  intros Hk Hn He Hall.
  assert (Ha : tomlArrayType (S fuel) rv =
               if tomlBaseType_eqb t tomlArrayHash
               then encPanicR errArrayNoTable else Ret (Some t)).
  { rewrite (ArrayFacts.tomlArrayType_step fuel rv e0 rest Hk Hn He).
    inversion Hall as [|? ? H0 Hrest]; subst.
    rewrite H0. cbn [res_bind].
    rewrite (ClassFacts.checkElems_all _ t rest Hrest). cbn [res_bind].
    assert (Hb : (typeEqual (Some t) (Some tomlArray) ||
                  typeEqual (Some t) (Some tomlArrayHash))%bool =
                 (tomlBaseType_eqb t tomlArray ||
                  tomlBaseType_eqb t tomlArrayHash)%bool) by reflexivity.
    rewrite Hb. clear Hb.
    destruct t; cbn [tomlBaseType_eqb orb]; try reflexivity.
    - destruct (ClassFacts.nest_of_array fuel e0 tomlArray H0
                  (or_introl eq_refl)) as [u [Hu Hh]].
      rewrite Hu. cbn [res_bind].
      rewrite (ClassFacts.typeEqual_sym u (Some tomlHash)), Hh.
      cbn [tomlBaseType_eqb orb].
      destruct (typeEqual u (Some tomlArrayHash)) eqn:Eu; [|reflexivity].
      exfalso. destruct u as [u|]; [|discriminate Eu].
      cbn [typeEqual] in Eu.
      apply ArrayFacts.tomlBaseType_eqb_eq in Eu. subst u.
      exact (ClassFacts.tomlArrayType_not_arrayHash _ _ Hu).
    - destruct (ClassFacts.nest_of_array fuel e0 tomlArrayHash H0
                  (or_intror eq_refl)) as [u [Hu Hh]].
      rewrite Hu. cbn [res_bind].
      rewrite (ClassFacts.typeEqual_sym u (Some tomlHash)), Hh.
      reflexivity. }
  split; [exact Ha|].
  rewrite (ClassFacts.tomlTypeOfGo_array _ rv Hk Hn), Ha.
  destruct t; reflexivity.
Qed.

Lemma homogeneous_array_type_witness :
  tomlArrayType 4
    (VSlice (Some [VArray [VInt KInt 1]; VPtr (Some (VSlice (Some [])))])) =
    Ret (Some tomlArray) /\
  tomlTypeOfGo 5
    (VSlice (Some [VArray [VInt KInt 1]; VPtr (Some (VSlice (Some [])))])) =
    Ret (Some tomlArray).
Proof.
  apply (homogeneous_array_type 3
           (VSlice (Some [VArray [VInt KInt 1];
                          VPtr (Some (VSlice (Some [])))]))
           tomlArray (VArray [VInt KInt 1])
           [VPtr (Some (VSlice (Some [])))]).
  - right. reflexivity.
  - reflexivity.
  - reflexivity.
  - constructor; [reflexivity|].
    constructor; [reflexivity | constructor].
Defined.

(** ** Table headers *)

Module HeaderFacts.

Import BytesFacts LineFacts.

(** A segment without a dot ends where the text has its first dot, or
    where the text ends. *)
Lemma segment_split (x1 x2 t1 t2 : string) :
  Bytes.occurs Bytes.dot x1 = false ->
  Bytes.occurs Bytes.dot x2 = false ->
  (t1 = "" \/ exists r, t1 = String Bytes.dot r) ->
  (t2 = "" \/ exists r, t2 = String Bytes.dot r) ->
  x1 ++ t1 = x2 ++ t2 ->
  x1 = x2 /\ t1 = t2.
Proof.
  revert x2. induction x1 as [|a x1 IH]; intros [|b x2] H1 H2 Ht1 Ht2;
    cbn [append Bytes.occurs] in *.
  - auto.
  - intros ->. exfalso. destruct Ht1 as [Ht1|[r Ht1]]; [discriminate|].
    injection Ht1 as -> _. now rewrite Ascii.eqb_refl in H2.
  - intros <-. exfalso. destruct Ht2 as [Ht2|[r Ht2]]; [discriminate|].
    injection Ht2 as -> _. now rewrite Ascii.eqb_refl in H1.
  - intros H. injection H as <- H.
    destruct (Ascii.eqb Bytes.dot a); [discriminate|].
    destruct (IH x2 H1 H2 Ht1 Ht2 H) as [<- <-]. auto.
Qed.

Lemma isValidTableName_inv (s : string) :
  isValidTableName s = true -> s <> "" /\ Bytes.occurs Bytes.dot s = false.
Proof.
  unfold isValidTableName. destruct s as [|c s]; [discriminate|].
  cbn [String.length Nat.eqb]. intros H. split; [discriminate|].
  apply negb_true_iff in H. apply orb_false_iff in H as [_ H]. exact H.
Qed.

Lemma Key_String_cons (x y : string) (l : list string) :
  Key_String (x :: y :: l) = x ++ String Bytes.dot (Key_String (y :: l)).
Proof. reflexivity. Qed.

(** Two paths of valid table names with the same dotted text are the same
    path. *)
Lemma Key_String_inj (k1 k2 : Key) :
  List.forallb isValidTableName k1 = true ->
  List.forallb isValidTableName k2 = true ->
  Key_String k1 = Key_String k2 -> k1 = k2.
Proof.
  revert k2. induction k1 as [|x l1 IH]; intros [|y l2] H1 H2 H.
  - reflexivity.
  - exfalso. cbn [List.forallb] in H2. apply andb_true_iff in H2 as [Hy _].
    apply isValidTableName_inv in Hy as [Hy _].
    destruct l2; [cbn in H; congruence|].
    rewrite Key_String_cons in H. destruct y; [congruence | discriminate H].
  - exfalso. cbn [List.forallb] in H1. apply andb_true_iff in H1 as [Hx _].
    apply isValidTableName_inv in Hx as [Hx _].
    destruct l1; [cbn in H; congruence|].
    rewrite Key_String_cons in H. destruct x; [congruence | discriminate H].
  - cbn [List.forallb] in H1, H2.
    apply andb_true_iff in H1 as [Hx H1]. apply andb_true_iff in H2 as [Hy H2].
    apply isValidTableName_inv in Hx as [_ Hx].
    apply isValidTableName_inv in Hy as [_ Hy].
    destruct l1 as [|x' l1], l2 as [|y' l2].
    + cbn in H. now subst.
    + exfalso. rewrite Key_String_cons in H.
      change (Key_String [x]) with x in H. rewrite <- (append_nil_r x) in H.
      destruct (segment_split _ _ _ _ Hx Hy (or_introl eq_refl)
                  (or_intror (ex_intro _ _ eq_refl)) H) as [_ Hd].
      discriminate Hd.
    + exfalso. rewrite Key_String_cons in H.
      change (Key_String [y]) with y in H. rewrite <- (append_nil_r y) in H.
      destruct (segment_split _ _ _ _ Hx Hy
                  (or_intror (ex_intro _ _ eq_refl)) (or_introl eq_refl) H)
        as [_ Hd].
      discriminate Hd.
    + rewrite !Key_String_cons in H.
      destruct (segment_split _ _ _ _ Hx Hy
                  (or_intror (ex_intro _ _ eq_refl))
                  (or_intror (ex_intro _ _ eq_refl)) H) as [<- Hd].
      injection Hd as Hd. f_equal. now apply IH.
Qed.

Lemma panicIfInvalidKey_table (key : Key) :
  panicIfInvalidKey key true = Ret tt <->
  List.forallb isValidTableName key = true.
Proof.
  unfold panicIfInvalidKey.
  destruct (List.forallb isValidTableName key); split; auto; discriminate.
Qed.

End HeaderFacts.

(** X8.  The header of a table names one table: two key paths that pass
    the validation of table names ([panicIfInvalidKey] with [hash = true]:
    no segment is empty or holds a bracket or a dot) and have the same
    dotted text in the header are the same path. *)
Theorem table_header_names_one_path (k1 k2 : Key) :
  panicIfInvalidKey k1 true = Ret tt ->
  panicIfInvalidKey k2 true = Ret tt ->
  Key_String k1 = Key_String k2 ->
  k1 = k2.
Proof.
  intros H1 H2. apply HeaderFacts.panicIfInvalidKey_table in H1, H2.
  now apply HeaderFacts.Key_String_inj.
Qed.

Lemma table_header_names_one_path_witness :
  ["servers"; "alpha"] = ["servers"; "alpha"].
Proof.
  apply (table_header_names_one_path ["servers"; "alpha"]
           ["servers"; "alpha"]); reflexivity.
Defined.

(** X9.  What [eTable] writes before the entries of a table whose key path
    is not empty and passes the validation: the indentation (one [Indent]
    for each segment above the last), the dotted path between brackets and
    a line feed.  A blank line goes before the header only when the path
    has one segment and something has been written; the header of a
    nested table follows the line before it directly. *)
Theorem table_header_line (fuel : nat) (rec : Key -> value -> M unit)
    (key : Key) (rv : value) (enc : Encoder) :
  key <> [] ->
  panicIfInvalidKey key true = Ret tt ->
  eTable fuel rec key rv enc =
    eMapOrStruct fuel rec key rv
      (written enc
         ((if (Nat.eqb (List.length key) 1 && hasWritten enc)%bool
           then Bytes.str Bytes.lf else "") ++
          strings.Repeat (Indent enc) (List.length key - 1) ++
          "[" ++ Key_String key ++ "]" ++ Bytes.str Bytes.lf)).
Proof.
  intros Hk Hv. unfold eTable. destruct key as [|k0 rest]; [contradiction|].
  assert (Hh : forall (e0 : Encoder),
            ((if Nat.ltb 0 (List.length (k0 :: rest)) then
                lift (panicIfInvalidKey (k0 :: rest) true) ;;
                indent <- indentStr (k0 :: rest) ;;
                wf (indent ++ "[" ++ Key_String (k0 :: rest) ++ "]") ;;
                newline
              else ret tt) ;;
             eMapOrStruct fuel rec (k0 :: rest) rv)%enc e0 =
            eMapOrStruct fuel rec (k0 :: rest) rv
              (written e0
                 (strings.Repeat (Indent e0) (List.length rest) ++
                  "[" ++ Key_String (k0 :: rest) ++ "]" ++
                  Bytes.str Bytes.lf))).
  { intros e0. cbn [List.length Nat.ltb Nat.leb]. rewrite Hv.
    unfold bind at 1. unfold bind at 1. cbn [lift].
    unfold bind at 1. cbn [indentStr]. unfold bind at 1. cbn [get].
    cbn [ret]. unfold bind at 1. unfold wf at 1.
    rewrite LineFacts.newline_written.
    now rewrite !BytesFacts.append_assoc. }
  unfold bind at 1. cbn [List.length Nat.sub]. rewrite Nat.sub_0_r.
  destruct rest as [|k1 rest].
  - cbn [List.length Nat.eqb andb]. unfold newline, bind at 1, get.
    destruct (hasWritten enc) eqn:Hw.
    + unfold wf0, wf.
      change (fmt.Sprintf0 (Bytes.str Bytes.lf)) with (Bytes.str Bytes.lf).
      rewrite Hh. rewrite LineFacts.written_written. reflexivity.
    + cbn [ret]. rewrite Hh. reflexivity.
  - cbn [List.length Nat.eqb andb ret]. rewrite Hh. reflexivity.
Qed.

Lemma table_header_line_witness :
  eTable 0 (fun _ _ => ret tt) ["a"; "b"] (VMap StringKey None)
    (written NewEncoder "x = 1") =
  eMapOrStruct 0 (fun _ _ => ret tt) ["a"; "b"] (VMap StringKey None)
    (written (written NewEncoder "x = 1")
       ("" ++ strings.Repeat "  " 1 ++ "[" ++ "a.b" ++ "]" ++
        Bytes.str Bytes.lf)).
Proof.
  apply (table_header_line 0 (fun _ _ => ret tt) ["a"; "b"]
           (VMap StringKey None)
           (written NewEncoder "x = 1")).
  - discriminate.
  - reflexivity.
Defined.

(** ** The output only grows *)

Module OutputFacts.

Import BytesFacts.

Lemma extends_refl (enc : Encoder) : extends enc enc.
Proof.
  split; [reflexivity|]. split; [|auto].
  exists "". now rewrite append_nil_r.
Qed.

Lemma extends_trans (e1 e2 e3 : Encoder) :
  extends e1 e2 -> extends e2 e3 -> extends e1 e3.
Proof.
  intros (Hi1 & [t1 Hw1] & Hh1) (Hi2 & [t2 Hw2] & Hh2).
  split; [congruence|]. split; [|auto].
  exists (t1 ++ t2). now rewrite Hw2, Hw1, append_assoc.
Qed.

Lemma extends_written (enc : Encoder) (text : string) :
  extends enc (written enc text).
Proof.
  split; [reflexivity|]. split; [|reflexivity]. now exists text.
Qed.

Lemma extends_with_modifier (enc : Encoder) (m : Modifier) :
  extends enc (with_modifier enc m).
Proof.
  split; [reflexivity|]. split; [|auto].
  exists "". cbn. now rewrite append_nil_r.
Qed.

Lemma appends_ret {A : Type} (a : A) : appends (ret a).
Proof. intros enc. apply extends_refl. Qed.

Lemma appends_bind {A B : Type} (m : M A) (f : A -> M B) :
  appends m -> (forall a, appends (f a)) -> appends (bind m f).
Proof.
  intros Hm Hf enc. unfold bind. specialize (Hm enc).
  destruct (m enc) as [a e1|p e1|]; [|exact Hm|exact I].
  specialize (Hf a e1).
  destruct (f a e1) as [b e2|p e2|]; [| |exact I];
    exact (extends_trans _ _ _ Hm Hf).
Qed.

Lemma appends_lift {A : Type} (r : res A) : appends (lift r).
Proof. intros enc. destruct r; cbn; try exact I; apply extends_refl. Qed.

Lemma appends_raise {A : Type} (p : panic) : appends (@raise A p).
Proof. intros enc. apply extends_refl. Qed.

Lemma appends_get {A : Type} (f : Encoder -> A) : appends (get f).
Proof. intros enc. apply extends_refl. Qed.

Lemma appends_wf (text : string) : appends (wf text).
Proof. intros enc. apply extends_written. Qed.

Lemma appends_set_modifier (m : Modifier) : appends (set_modifier m).
Proof. intros enc. apply extends_with_modifier. Qed.

Lemma appends_newline : appends newline.
Proof.
  apply appends_bind; [apply appends_get|].
  intros []; [apply appends_wf | apply appends_ret].
Qed.

Lemma appends_indentStr (key : Key) : appends (indentStr key).
Proof.
  destruct key; [apply appends_raise|].
  apply appends_bind; [apply appends_get | intros; apply appends_ret].
Qed.

Lemma appends_writeMultiLineString (s : string) (raw : bool) :
  appends (writeMultiLineString s raw).
Proof.
  unfold writeMultiLineString.
  apply appends_bind; [apply appends_wf|]. intros _.
  apply appends_bind; [destruct raw; apply appends_wf|]. intros _.
  apply appends_wf.
Qed.

Lemma appends_eArrayLoop (rec : value -> M unit) (elems : list value) :
  (forall v, appends (rec v)) -> appends (eArrayLoop rec elems).
Proof.
  intros Hrec. induction elems as [|elem rest IH]; cbn [eArrayLoop].
  - apply appends_ret.
  - apply appends_bind; [apply Hrec|]. intros _.
    apply appends_bind;
      [destruct rest; [apply appends_ret | apply appends_wf]|].
    intros _. exact IH.
Qed.

Lemma appends_eElement_body (rec : value -> M unit) (rv : value) :
  (forall v, appends (rec v)) -> appends (eElement_body rec rv).
Proof.
  intros Hrec. unfold eElement_body.
  destruct (negb (IsValid rv)); [apply appends_raise|].
  destruct (Interface_type rv) as [utc|[s|err]|];
    [apply appends_wf | apply appends_wf | apply appends_raise |].
  unfold eArrayOrSliceElement.
  destruct (Kind_of rv);
    first [ apply appends_wf
          | apply appends_raise
          | apply Hrec
          | apply appends_bind; [apply appends_wf|]; intros _;
            apply appends_bind; [|intros _; apply appends_wf];
            apply appends_eArrayLoop; exact Hrec ].
Qed.

Lemma appends_eElement (fuel : nat) (rv : value) :
  appends (eElement fuel rv).
Proof.
  revert rv. induction fuel as [|fuel IH]; intros rv; cbn [eElement].
  - intros enc. exact I.
  - apply appends_eElement_body. exact IH.
Qed.

Lemma appends_modifiedElement (fuel : nat) (val : value) :
  appends (modifiedElement fuel val).
Proof.
  unfold modifiedElement.
  apply appends_bind; [apply appends_get|]. intros m.
  destruct (String.eqb m MOD_MULTILINE_STRING);
    [apply appends_writeMultiLineString|].
  destruct (String.eqb m MOD_MULTILINE_RAWSTRING);
    [apply appends_writeMultiLineString | apply appends_eElement].
Qed.

Lemma appends_keyEqElement (fuel : nat) (key : Key) (val : value) :
  appends (keyEqElement fuel key val).
Proof.
  unfold keyEqElement. destruct key as [|x key]; [apply appends_raise|].
  apply appends_bind; [apply appends_lift|]. intros _.
  apply appends_bind; [apply appends_indentStr|]. intros indent.
  apply appends_bind; [apply appends_lift|]. intros k.
  apply appends_bind; [apply appends_wf|]. intros _.
  apply appends_bind; [apply appends_modifiedElement|]. intros _.
  apply appends_bind; [apply appends_newline|]. intros _.
  apply appends_set_modifier.
Qed.

Section Appends.

Variable fuel : nat.
Variable rec : Key -> value -> M unit.
Hypothesis Hrec : forall (key : Key) (rv : value), appends (rec key rv).

Lemma appends_writeMapKeysLoop (key : Key) (rv : value)
    (mapKeys : list string) :
  appends (writeMapKeysLoop rec key rv mapKeys).
Proof.
  induction mapKeys as [|mapKey rest IH]; cbn [writeMapKeysLoop].
  - apply appends_ret.
  - apply appends_bind; [|intros _; exact IH].
    apply appends_bind; [apply appends_lift|]. intros mrv.
    destruct (isNil mrv); [apply appends_ret | apply Hrec].
Qed.

Lemma appends_eMap (key : Key) (rv : value) : appends (eMap fuel rec key rv).
Proof.
  unfold eMap. destruct (negb _); [apply appends_raise|].
  apply appends_bind; [apply appends_lift|]. intros ks.
  apply appends_bind; [apply appends_writeMapKeysLoop|]. intros _.
  apply appends_writeMapKeysLoop.
Qed.

Lemma appends_writeField (key : Key) (rv : value) (fieldIndex : list nat) :
  appends (writeField rec key rv fieldIndex).
Proof.
  unfold writeField.
  apply appends_bind; [apply appends_lift|]. intros [sft sf].
  cbn [fst snd].
  destruct (isNil sf); [apply appends_ret|].
  destruct (String.eqb _ "-"); [apply appends_ret|].
  apply appends_bind; [apply appends_set_modifier | intros _; apply Hrec].
Qed.

Lemma appends_writeFields (key : Key) (rv : value)
    (fields : list (list nat)) :
  appends (writeFields rec key rv fields).
Proof.
  induction fields as [|fieldIndex rest IH]; cbn [writeFields].
  - apply appends_ret.
  - apply appends_bind; [apply appends_writeField | intros _; exact IH].
Qed.

Lemma appends_eStruct (key : Key) (rv : value) :
  appends (eStruct fuel rec key rv).
Proof.
  unfold eStruct.
  apply appends_bind; [apply appends_lift|]. intros fs.
  apply appends_bind; [apply appends_writeFields|]. intros _.
  apply appends_writeFields.
Qed.

Lemma appends_eMapOrStruct (key : Key) (rv : value) :
  appends (eMapOrStruct fuel rec key rv).
Proof.
  unfold eMapOrStruct.
  destruct (Kind_of (eindirect rv)); try apply appends_raise.
  - apply appends_eMap.
  - apply appends_eStruct.
Qed.

Lemma appends_eTable (key : Key) (rv : value) :
  appends (eTable fuel rec key rv).
Proof.
  unfold eTable.
  apply appends_bind.
  { destruct (Nat.eqb _ 1); [apply appends_newline | apply appends_ret]. }
  intros _. apply appends_bind; [|intros _; apply appends_eMapOrStruct].
  destruct (Nat.ltb 0 _); [|apply appends_ret].
  apply appends_bind; [apply appends_lift|]. intros _.
  apply appends_bind; [apply appends_indentStr|]. intros indent.
  apply appends_bind; [apply appends_wf|]. intros _.
  apply appends_newline.
Qed.

Lemma appends_eArrayOfTablesLoop (key : Key) (elems : list value) :
  appends (eArrayOfTablesLoop fuel rec key elems).
Proof.
  induction elems as [|trv rest IH]; cbn [eArrayOfTablesLoop].
  - apply appends_ret.
  - apply appends_bind; [|intros _; exact IH].
    destruct (isNil trv); [apply appends_ret|].
    apply appends_bind; [apply appends_newline|]. intros _.
    apply appends_bind; [apply appends_indentStr|]. intros indent.
    apply appends_bind; [apply appends_wf|]. intros _.
    apply appends_bind; [apply appends_newline|]. intros _.
    apply appends_eMapOrStruct.
Qed.

Lemma appends_eArrayOfTables (key : Key) (rv : value) :
  appends (eArrayOfTables fuel rec key rv).
Proof.
  unfold eArrayOfTables.
  destruct (Nat.eqb _ 0); [apply appends_raise|].
  apply appends_bind; [apply appends_lift|]. intros _.
  apply appends_eArrayOfTablesLoop.
Qed.

Lemma appends_encode_body (key : Key) (rv : value) :
  appends (encode_body fuel rec key rv).
Proof.
  unfold encode_body.
  destruct (negb (IsValid rv)); [apply appends_raise|].
  destruct (Interface_type rv) as [utc|text|];
    try apply appends_keyEqElement.
  destruct (Kind_of rv); try apply appends_keyEqElement;
    try apply appends_raise;
    try (destruct (IsNil rv); [apply appends_ret|]);
    first [ apply Hrec
          | apply appends_eTable
          | apply appends_bind; [apply appends_lift|];
            intros t; destruct (typeEqual _ t);
            [apply appends_eArrayOfTables | apply appends_keyEqElement] ].
Qed.

End Appends.

Lemma appends_encode (fuel : nat) (key : Key) (rv : value) :
  appends (encode fuel key rv).
Proof.
  revert key rv. induction fuel as [|fuel IH]; intros key rv; cbn [encode].
  - intros enc. exact I.
  - apply appends_encode_body. exact IH.
Qed.

End OutputFacts.

(** X10.  [Encode] only appends to the output.  Whether it returns nil,
    returns an error or panics, the encoder then holds what had been
    written before the call followed by what the call wrote (after an
    error that may be a part of a document), the indentation string is the
    one it had, and an encoder that had written something is still marked
    so. *)
Theorem Encode_only_appends (fuel : nat) (v : value) :
  appends (Encode fuel v).
Proof.
  intros enc. rewrite TopFacts.Encode_encode.
  pose proof (OutputFacts.appends_encode fuel [] (eindirect v) enc) as H.
  destruct (encode fuel [] (eindirect v) enc) as [a e1|[err|err|msg] e1|];
    exact H.
Qed.

(** ** Maps: entries that are nil *)

Module NilEntryFacts.

Import SortFacts MapFacts StructFacts.

Lemma assoc_other (m1 m2 : list (string * value)) (k k' : string)
    (v : value) :
  k' <> k ->
  assoc (m1 ++ (k, v) :: m2) k' = assoc (m1 ++ m2) k'.
Proof.
  intros Hk. induction m1 as [|[x u] m1 IH]; cbn [List.app assoc].
  - destruct (String.eqb_spec k k'); [congruence | reflexivity].
  - now rewrite IH.
Qed.

Lemma assoc_hit (m1 m2 : list (string * value)) (k : string) (v : value) :
  ~ In k (List.map fst m1) ->
  assoc (m1 ++ (k, v) :: m2) k = v.
Proof.
  induction m1 as [|[x u] m1 IH]; cbn [List.app assoc List.map fst In].
  - now rewrite String.eqb_refl.
  - intros H. destruct (String.eqb_spec x k) as [->|_].
    + exfalso. apply H. now left.
    + apply IH. intros Hin. apply H. now right.
Qed.

(** A value that is nil has no type. *)
Lemma tomlTypeOfGo_nil (fuel : nat) (v : value) :
  isNil v = true -> tomlTypeOfGo (S fuel) v = Ret None.
Proof. intros H. rewrite FuelFacts.tomlTypeOfGo_S, H. reflexivity. Qed.

(** The loop of [writeMapKeys] passes a key whose value is nil. *)
Lemma writeMapKeysLoop_insert (rec : Key -> value -> M unit) (key : Key)
    (rv : value) (k : string) (l : list string) (enc : Encoder) :
  MapIndexOfString rv k = Ret (MapIndex rv k) ->
  isNil (MapIndex rv k) = true ->
  writeMapKeysLoop rec key rv (sort.insert k l) enc =
    writeMapKeysLoop rec key rv l enc.
Proof.
  intros Hs Hk. revert enc. induction l as [|y l IH]; intros enc;
    cbn [sort.insert].
  - rewrite writeMapKeysLoop_cons by exact Hs. rewrite Hk. reflexivity.
  - destruct (String.leb k y).
    + rewrite writeMapKeysLoop_cons by exact Hs. rewrite Hk. reflexivity.
    + cbn [writeMapKeysLoop]. apply bind_ext. intros _ enc1. apply IH.
Qed.

Lemma writeMapKeysLoop_agree (rec : Key -> value -> M unit) (key : Key)
    (rv rv' : value) (l : list string) (enc : Encoder) :
  (forall k, In k l -> MapIndexOfString rv' k = MapIndexOfString rv k) ->
  writeMapKeysLoop rec key rv' l enc = writeMapKeysLoop rec key rv l enc.
Proof.
  revert enc. induction l as [|k l IH]; intros enc H;
    cbn [writeMapKeysLoop]; [reflexivity|].
  rewrite (H k (or_introl eq_refl)). apply bind_ext. intros _ enc1.
  apply IH. intros k' Hk'. apply H. now right.
Qed.

Section Omitted.

Variable fuel : nat.
Variable k : string.
Variables rvL rvR : value.

Hypothesis HstrL : forall k', MapIndexOfString rvL k' = Ret (MapIndex rvL k').
Hypothesis HstrR : forall k', MapIndexOfString rvR k' = Ret (MapIndex rvR k').
Hypothesis Hother : forall k', k' <> k -> MapIndex rvL k' = MapIndex rvR k'.
Hypothesis Hnil : isNil (MapIndex rvL k) = true.

(** The two lists of keys of the map with the entry are those of the map
    without it, with the key among the direct ones. *)
Let withKey (a b : list string * list string) : Prop :=
  Permutation (fst a) (k :: fst b) /\ snd a = snd b /\
  ~ In k (fst b) /\ ~ In k (snd b).

Lemma splitMapKeys_after (l dL dR s : list string) :
  ~ In k l ->
  withKey (dL, s) (dR, s) ->
  res_rel withKey (splitMapKeys (S fuel) rvL l dL s)
                  (splitMapKeys (S fuel) rvR l dR s).
Proof.
  revert dL dR s. induction l as [|x l IH]; intros dL dR s Hl Hw;
    cbn [splitMapKeys].
  - exact Hw.
  - assert (Hx : x <> k) by (intros ->; apply Hl; now left).
    assert (Hl' : ~ In k l) by (intros Hin; apply Hl; now right).
    rewrite (Hother x Hx).
    destruct (tomlTypeOfGo (S fuel) (MapIndex rvR x)) as [t| |];
      cbn [res_bind res_rel]; auto.
    destruct Hw as (Hp & _ & Hd & Hs). cbn [fst snd] in *.
    destruct (typeIsHash t); apply IH; auto; repeat split; cbn [fst snd];
      auto.
    + intros Hin. apply in_app_or in Hin as [Hin|[Hin|[]]]; auto.
    + rewrite Hp. change (k :: dR ++ [x])%list with ((k :: dR) ++ [x])%list.
      reflexivity.
    + intros Hin. apply in_app_or in Hin as [Hin|[Hin|[]]]; auto.
Qed.

Lemma splitMapKeys_omitted (l1 l2 d s : list string) :
  ~ In k (l1 ++ l2) -> ~ In k d -> ~ In k s ->
  res_rel withKey (splitMapKeys (S fuel) rvL (l1 ++ k :: l2) d s)
                  (splitMapKeys (S fuel) rvR (l1 ++ l2) d s).
Proof.
  revert d s. induction l1 as [|x l1 IH]; intros d s Hl Hd Hs;
    cbn [List.app splitMapKeys].
  - rewrite (tomlTypeOfGo_nil fuel _ Hnil).
    cbn [res_bind typeIsHash typeEqual orb].
    apply splitMapKeys_after; [exact Hl|].
    repeat split; cbn [fst snd]; auto.
    rewrite Permutation_app_comm. reflexivity.
  - cbn [List.app] in Hl.
    assert (Hx : x <> k) by (intros ->; apply Hl; now left).
    assert (Hl' : ~ In k (l1 ++ l2)) by (intros Hin; apply Hl; now right).
    rewrite (Hother x Hx).
    destruct (tomlTypeOfGo (S fuel) (MapIndex rvR x)) as [t| |];
      cbn [res_bind res_rel]; auto.
    destruct (typeIsHash t); apply IH; auto;
      intros Hin; apply in_app_or in Hin as [Hin|[Hin|[]]]; auto.
Qed.

Lemma writeMapKeys_omitted (rec : Key -> value -> M unit) (key : Key)
    (a b : list string * list string) (enc : Encoder) :
  withKey a b ->
  (writeMapKeys rec key rvL (fst a) ;; writeMapKeys rec key rvL (snd a))%enc
    enc =
  (writeMapKeys rec key rvR (fst b) ;; writeMapKeys rec key rvR (snd b))%enc
    enc.
Proof.
  intros (Hp & Hs & Hd & Hns). unfold writeMapKeys.
  rewrite (Strings_perm_eq _ _ Hp), Hs. cbn [sort.Strings].
  unfold bind. rewrite (writeMapKeysLoop_insert _ _ _ _ _ _ (HstrL k) Hnil).
  assert (Hagree : forall (l : list string) (e0 : Encoder),
            ~ In k l ->
            writeMapKeysLoop rec key rvL (sort.Strings l) e0 =
            writeMapKeysLoop rec key rvR (sort.Strings l) e0).
  { intros l e0 Hl. apply writeMapKeysLoop_agree. intros k' Hk'.
    rewrite HstrL, HstrR. f_equal. apply Hother. intros ->. apply Hl.
    apply (Permutation_in _ (Strings_perm l)). exact Hk'. }
  rewrite (Hagree _ enc Hd).
  destruct (writeMapKeysLoop rec key rvR (sort.Strings (fst b)) enc);
    try reflexivity.
  apply Hagree. exact Hns.
Qed.

End Omitted.

Lemma eMap_omitted (fuel : nat) (rec : Key -> value -> M unit) (key : Key)
    (m1 m2 : list (string * value)) (k : string) (v : value)
    (enc : Encoder) :
  isNil v = true ->
  ~ In k (List.map fst (m1 ++ m2)) ->
  eMap (S fuel) rec key (VMap StringKey (Some (m1 ++ (k, v) :: m2)%list)) enc =
    eMap (S fuel) rec key (VMap StringKey (Some (m1 ++ m2)%list)) enc.
Proof.
  intros Hv Hk. unfold eMap. cbn [MapKeyIsString plain negb].
  set (rvL := VMap StringKey (Some (m1 ++ (k, v) :: m2)%list)).
  set (rvR := VMap StringKey (Some (m1 ++ m2)%list)).
  assert (Hother : forall k', k' <> k -> MapIndex rvL k' = MapIndex rvR k').
  { intros k' Hk'. apply assoc_other. exact Hk'. }
  assert (Hk1 : ~ In k (List.map fst m1)).
  { intros Hin. apply Hk. rewrite List.map_app. apply in_or_app. now left. }
  assert (Hnil : isNil (MapIndex rvL k) = true).
  { unfold rvL, MapIndex. cbn [MapEntries plain].
    now rewrite (assoc_hit m1 m2 k v Hk1). }
  assert (HkL : MapKeys rvL =
                (List.map fst m1 ++ k :: List.map fst m2)%list).
  { unfold rvL, MapKeys. cbn [MapEntries plain].
    now rewrite List.map_app. }
  assert (HkR : MapKeys rvR = (List.map fst m1 ++ List.map fst m2)%list).
  { unfold rvR, MapKeys. cbn [MapEntries plain]. now rewrite List.map_app. }
  rewrite HkL, HkR. rewrite List.map_app in Hk.
  pose proof (splitMapKeys_omitted fuel k rvL rvR Hother Hnil
                (List.map fst m1) (List.map fst m2) [] [] Hk
                (fun H => H) (fun H => H)) as Hsplit.
  unfold bind at 1 3.
  destruct (splitMapKeys (S fuel) rvL
              (List.map fst m1 ++ k :: List.map fst m2) [] []) as [a|p|];
    destruct (splitMapKeys (S fuel) rvR
                (List.map fst m1 ++ List.map fst m2) [] []) as [b|q|];
    cbn [res_rel] in Hsplit; try contradiction; cbn [lift].
  - apply (writeMapKeys_omitted k rvL rvR (fun _ => eq_refl)
             (fun _ => eq_refl) Hother Hnil rec key a b enc Hsplit).
  - now subst.
  - reflexivity.
Qed.

End NilEntryFacts.

(** X11.  In a map whose keys are of the type [string], an entry whose
    value is nil (a nil pointer, interface, slice or map) is left out: the
    map with the entry is encoded exactly as the map without it, whatever
    the other entries are and wherever the entry stands in the order of
    [MapKeys], in [eMap] for every key path and in [Encode].  (On a map
    whose key type is a defined string type [writeMapKeys] panics at the
    first key.) *)
Theorem nil_map_entry_is_omitted (fuel : nat) (m1 m2 : list (string * value))
    (k : string) (v : value) :
  isNil v = true ->
  ~ In k (List.map fst (m1 ++ m2)) ->
  (forall (rec : Key -> value -> M unit) (key : Key) (enc : Encoder),
     eMap (S fuel) rec key
       (VMap StringKey (Some (m1 ++ (k, v) :: m2)%list)) enc =
       eMap (S fuel) rec key (VMap StringKey (Some (m1 ++ m2)%list)) enc) /\
  (forall enc : Encoder,
     Encode (S (S fuel)) (VMap StringKey (Some (m1 ++ (k, v) :: m2)%list)) enc =
       Encode (S (S fuel)) (VMap StringKey (Some (m1 ++ m2)%list)) enc).
Proof.
  intros Hv Hk. split.
  - intros rec key enc. now apply NilEntryFacts.eMap_omitted.
  - intros enc. rewrite !TopFacts.Encode_encode.
    cbn [eindirect encode]. unfold encode_body.
    cbn [IsValid plain negb Interface_type Kind_of IsNil].
    unfold eTable. cbn [List.length Nat.eqb Nat.ltb Nat.leb].
    unfold bind at 1 2 4 5. cbn [ret].
    unfold eMapOrStruct. cbn [eindirect Kind_of].
    now rewrite NilEntryFacts.eMap_omitted.
Qed.

Lemma nil_map_entry_is_omitted_witness :
  (forall (rec : Key -> value -> M unit) (key : Key) (enc : Encoder),
     eMap 1 rec key
       (VMap StringKey (Some ([("a", VInt KInt 1)] ++
                         ("n", VPtr None) :: [("z", VBool true)])%list)) enc =
     eMap 1 rec key
       (VMap StringKey
          (Some ([("a", VInt KInt 1)] ++ [("z", VBool true)])%list))
       enc) /\
  (forall enc : Encoder,
     Encode 2
       (VMap StringKey (Some ([("a", VInt KInt 1)] ++
                         ("n", VPtr None) :: [("z", VBool true)])%list)) enc =
     Encode 2
       (VMap StringKey
          (Some ([("a", VInt KInt 1)] ++ [("z", VBool true)])%list))
       enc).
Proof.
  apply (nil_map_entry_is_omitted 0 [("a", VInt KInt 1)] [("z", VBool true)]
           "n" (VPtr None)).
  - reflexivity.
  - cbn. intros [H|[H|[]]]; discriminate H.
Defined.

(** ** Structs: the fields that are written, their keys and their order *)

Module FieldFacts.

Import StructFacts EmbeddedFacts.

Lemma writeFields_app (rec : Key -> value -> M unit) (key : Key) (rv : value)
    (a b : list (list nat)) (enc : Encoder) :
  writeFields rec key rv (a ++ b) enc =
    (writeFields rec key rv a ;; writeFields rec key rv b)%enc enc.
Proof.
  revert enc. induction a as [|x a IH]; intros enc;
    cbn [List.app writeFields]; [reflexivity|].
  rewrite MapFacts.bind_assoc. apply MapFacts.bind_ext. intros _ enc1.
  apply IH.
Qed.

Section Alike.

Variable rec : Key -> value -> M unit.
Variable key : Key.
Variables rootL rootR : value.

Lemma fieldAlike_same (x y : list nat) :
  FieldByIndex rootL x = FieldByIndex rootR y ->
  fieldAlike rec key rootL rootR x y.
Proof. intros H enc. unfold writeField. now rewrite H. Qed.

Lemma fieldsAlike_nil : fieldsAlike rec key rootL rootR [] [].
Proof. intros enc. reflexivity. Qed.

Lemma fieldsAlike_snoc (a b : list (list nat)) (x y : list nat) :
  fieldsAlike rec key rootL rootR a b ->
  fieldAlike rec key rootL rootR x y ->
  fieldsAlike rec key rootL rootR (a ++ [x]) (b ++ [y]).
Proof.
  intros H Hxy enc. rewrite !writeFields_app. unfold bind.
  rewrite H. destruct (writeFields rec key rootR b enc); try reflexivity.
  cbn [writeFields]. unfold bind. now rewrite Hxy.
Qed.

Lemma fieldsAlike_noop (a b : list (list nat)) (x : list nat) :
  fieldsAlike rec key rootL rootR a b ->
  (forall enc, writeField rec key rootL x enc = Done tt enc) ->
  fieldsAlike rec key rootL rootR (a ++ [x]) b.
Proof.
  intros H Hx enc. rewrite writeFields_app. unfold bind at 1.
  rewrite H. destruct (writeFields rec key rootR b enc) as [[] e1|p e1|];
    try reflexivity.
  cbn [writeFields]. unfold bind. now rewrite Hx.
Qed.

(** On fields that are not embedded the loop of [addFields] collects, under
    two numberings that name fields written alike, lists that are written
    alike. *)
Lemma addFieldsLoop_alike (fuel : nat)
    (recL recR : value -> list nat -> fieldLists -> res fieldLists)
    (l : list (StructField * value)) (iL iR : nat) (accL accR : fieldLists) :
  Forall plainField l ->
  (forall q, q < List.length l ->
             fieldAlike rec key rootL rootR [iL + q] [iR + q]) ->
  listsAlike rec key rootL rootR accL accR ->
  res_rel (listsAlike rec key rootL rootR)
    (addFieldsLoop fuel recL l iL [] accL)
    (addFieldsLoop fuel recR l iR [] accR).
Proof.
  intros Hp. revert iL iR accL accR.
  induction Hp as [|[g frv] l Hg _ IH]; intros iL iR accL accR Hq Hacc;
    cbn [addFieldsLoop].
  - exact Hacc.
  - assert (Hq' : forall q, q < List.length l ->
                    fieldAlike rec key rootL rootR [S iL + q] [S iR + q]).
    { intros q Hlt. specialize (Hq (S q)). cbn [List.length] in Hq.
      replace (S iL + q) with (iL + S q) by lia.
      replace (S iR + q) with (iR + S q) by lia. apply Hq. lia. }
    assert (H0 : fieldAlike rec key rootL rootR [iL] [iR]).
    { specialize (Hq 0). rewrite !Nat.add_0_r in Hq. apply Hq.
      cbn [List.length]. lia. }
    unfold plainField in Hg. cbn [fst] in Hg. rewrite Hg.
    destruct (negb (String.eqb (PkgPath g) "")); [now apply IH|].
    destruct (tomlTypeOfGo fuel frv) as [t| |]; cbn [res_bind res_rel]; auto.
    destruct Hacc as [Hd Hs]. cbn [List.app].
    destruct (typeIsHash t); apply IH; auto; split; cbn [fst snd]; auto;
      now apply fieldsAlike_snoc.
Qed.

Lemma eStruct_alike (F : nat) :
  res_rel (listsAlike rec key rootL rootR)
    (addFields F F rootL [] ([], [])) (addFields F F rootR [] ([], [])) ->
  forall enc : Encoder,
    eStruct F rec key rootL enc = eStruct F rec key rootR enc.
Proof.
  intros H enc. unfold eStruct.
  destruct (addFields F F rootL [] ([], [])) as [[dL sL]|pL|];
    destruct (addFields F F rootR [] ([], [])) as [[dR sR]|pR|];
    cbn in H; try contradiction.
  - destruct H as [Hd Hs]. cbn [fst snd] in Hd, Hs.
    unfold bind at 1 3. cbn [lift fst snd]. unfold bind. rewrite Hd.
    destruct (writeFields rec key rootR dR enc) as [[] enc1| |]; auto.
  - subst pR. reflexivity.
  - reflexivity.
Qed.

End Alike.

Lemma Field_before (pre l : list (StructField * value)) (q : nat) :
  q < List.length pre ->
  FieldByIndex (VStruct (pre ++ l)) [q] =
    match List.nth_error pre q with
    | Some fv => Ret fv
    | None => Throw (panicString "reflect: Field index out of range")
    end.
Proof.
  intros Hq. rewrite FieldByIndex_one. unfold Field.
  cbn [Kind_of Fields plain]. now rewrite List.nth_error_app1.
Qed.

Lemma Field_after (pre l : list (StructField * value)) (q : nat) :
  FieldByIndex (VStruct (pre ++ l)) [List.length pre + q] =
    match List.nth_error l q with
    | Some fv => Ret fv
    | None => Throw (panicString "reflect: Field index out of range")
    end.
Proof.
  rewrite FieldByIndex_one. unfold Field. cbn [Kind_of Fields plain].
  rewrite List.nth_error_app2 by lia.
  now replace (List.length pre + q - List.length pre) with q by lia.
Qed.

Section Omit.

Variable fuel : nat.
Variables pre post : list (StructField * value).
Variable f : StructField.
Variable v : value.
Variable rec : Key -> value -> M unit.
Variable key : Key.

Hypothesis Hpre : Forall plainField pre.
Hypothesis Hpost : Forall plainField post.

Let rootL : value := VStruct (pre ++ (f, v) :: post).
Let rootR : value := VStruct (pre ++ post).

Lemma alike_before (q : nat) :
  q < List.length pre -> fieldAlike rec key rootL rootR [0 + q] [0 + q].
Proof.
  intros Hq. apply fieldAlike_same. unfold rootL, rootR. cbn [Nat.add].
  now rewrite !Field_before.
Qed.

Lemma alike_after (q : nat) :
  q < List.length post ->
  fieldAlike rec key rootL rootR
    [S (0 + List.length pre) + q] [0 + List.length pre + q].
Proof.
  intros Hq. apply fieldAlike_same. unfold rootL, rootR. cbn [Nat.add].
  replace (S (List.length pre + q)) with (List.length pre + S q) by lia.
  now rewrite !Field_after.
Qed.

Lemma Field_omitted :
  FieldByIndex rootL [0 + List.length pre] = Ret (f, v).
Proof.
  unfold rootL. cbn [Nat.add].
  rewrite <- (Nat.add_0_r (List.length pre)). now rewrite Field_after.
Qed.

(** The lists [addFields] collects when the field is passed over. *)
Lemma addFields_unexported (depth : nat) :
  PkgPath f <> "" ->
  res_rel (listsAlike rec key rootL rootR)
    (addFields fuel depth rootL [] ([], []))
    (addFields fuel depth rootR [] ([], [])).
Proof.
  intros Hf. destruct depth as [|depth]; [exact I|].
  rewrite !addFields_S.
  change (Fields rootL) with (pre ++ (f, v) :: post)%list.
  change (Fields rootR) with (pre ++ post)%list.
  rewrite !addFieldsLoop_app.
  apply res_rel_bind with (R := listsAlike rec key rootL rootR).
  { apply addFieldsLoop_alike; [exact Hpre | exact alike_before |].
    split; apply fieldsAlike_nil. }
  intros a1 a1' H1. cbn [addFieldsLoop].
  destruct (String.eqb_spec (PkgPath f) "") as [E|_]; [contradiction|].
  cbn [negb].
  apply addFieldsLoop_alike; [exact Hpost | exact alike_after | exact H1].
Qed.

(** The lists [addFields] collects when the field is collected and
    [writeField] writes nothing for it. *)
Lemma addFields_skipped (depth : nat) (t : tomlType) :
  PkgPath f = "" ->
  Anonymous f = false ->
  tomlTypeOfGo fuel v = Ret t ->
  Tag_Get (Tag f) "toml" = "-" \/ isNil v = true ->
  res_rel (listsAlike rec key rootL rootR)
    (addFields fuel depth rootL [] ([], []))
    (addFields fuel depth rootR [] ([], [])).
Proof.
  intros He Ha Ht Hs. destruct depth as [|depth]; [exact I|].
  rewrite !addFields_S.
  change (Fields rootL) with (pre ++ (f, v) :: post)%list.
  change (Fields rootR) with (pre ++ post)%list.
  rewrite !addFieldsLoop_app.
  apply res_rel_bind with (R := listsAlike rec key rootL rootR).
  { apply addFieldsLoop_alike; [exact Hpre | exact alike_before |].
    split; apply fieldsAlike_nil. }
  intros a1 a1' [Hd1 Hs1]. cbn [addFieldsLoop].
  rewrite He, Ha, Ht. cbn [String.eqb negb res_bind List.app].
  assert (Hnoop : forall enc,
            writeField rec key rootL [0 + List.length pre] enc = Done tt enc).
  { intros enc. unfold writeField, bind. rewrite Field_omitted.
    cbn [lift fst snd].
    destruct (isNil v) eqn:Hn; [reflexivity|].
    destruct Hs as [-> | Hs]; [reflexivity | discriminate Hs]. }
  destruct (typeIsHash t);
    (apply addFieldsLoop_alike; [exact Hpost | exact alike_after |]);
    split; cbn [fst snd]; auto; now apply fieldsAlike_noop.
Qed.

End Omit.

Section Rename.

Variable fuel : nat.
Variables pre post : list (StructField * value).
Variables f f' : StructField.
Variable v : value.
Variable rec : Key -> value -> M unit.
Variable key : Key.

Hypothesis Hpre : Forall plainField pre.
Hypothesis Hpost : Forall plainField post.
Hypothesis Hexported : PkgPath f = "" /\ PkgPath f' = "".
Hypothesis Hplain : Anonymous f = false /\ Anonymous f' = false.
Hypothesis Htag :
  Tag_Get (Tag f) "toml" <> "" /\ Tag_Get (Tag f) "toml" <> "-".
Hypothesis Hname : Name f' = Tag_Get (Tag f) "toml".
Hypothesis Huntagged : Tag_Get (Tag f') "toml" = "".
Hypothesis Hmodifier :
  Tag_Get (Tag f') "modifier" = Tag_Get (Tag f) "modifier".

Let rootL : value := VStruct (pre ++ (f, v) :: post).
Let rootR : value := VStruct (pre ++ (f', v) :: post).

Lemma alike_renamed :
  fieldAlike rec key rootL rootR [0 + List.length pre] [0 + List.length pre].
Proof.
  intros enc. unfold writeField, bind, rootL, rootR. cbn [Nat.add].
  rewrite <- (Nat.add_0_r (List.length pre)). rewrite !Field_after.
  cbn [List.nth_error lift fst snd].
  destruct (isNil v); [reflexivity|].
  rewrite Huntagged, Hname.
  destruct Htag as [Hne Hnd].
  destruct (String.eqb_spec (Tag_Get (Tag f) "toml") "-"); [contradiction|].
  destruct (String.eqb_spec (Tag_Get (Tag f) "toml") ""); [contradiction|].
  cbn [String.eqb]. unfold fieldModifier. now rewrite Hmodifier.
Qed.

Lemma addFields_renamed (depth : nat) :
  res_rel (listsAlike rec key rootL rootR)
    (addFields fuel depth rootL [] ([], []))
    (addFields fuel depth rootR [] ([], [])).
Proof.
  destruct depth as [|depth]; [exact I|].
  rewrite !addFields_S.
  change (Fields rootL) with (pre ++ (f, v) :: post)%list.
  change (Fields rootR) with (pre ++ (f', v) :: post)%list.
  rewrite !addFieldsLoop_app.
  apply res_rel_bind with (R := listsAlike rec key rootL rootR).
  { apply addFieldsLoop_alike; [exact Hpre | |split; apply fieldsAlike_nil].
    intros q Hq. apply fieldAlike_same. unfold rootL, rootR. cbn [Nat.add].
    now rewrite !Field_before. }
  intros a1 a1' [Hd1 Hs1]. cbn [addFieldsLoop].
  destruct Hexported as [-> ->]. destruct Hplain as [-> ->].
  cbn [String.eqb negb].
  destruct (tomlTypeOfGo fuel v) as [t| |]; cbn [res_bind res_rel]; auto.
  cbn [List.app].
  assert (Hpost' : forall q, q < List.length post ->
            fieldAlike rec key rootL rootR
              [S (0 + List.length pre) + q] [S (0 + List.length pre) + q]).
  { intros q Hq. apply fieldAlike_same. unfold rootL, rootR. cbn [Nat.add].
    replace (S (List.length pre + q)) with (List.length pre + S q) by lia.
    now rewrite !Field_after. }
  destruct (typeIsHash t);
    (apply addFieldsLoop_alike; [exact Hpost | exact Hpost' |]);
    split; cbn [fst snd]; auto; apply fieldsAlike_snoc; auto;
    exact alike_renamed.
Qed.

End Rename.

(** [Encode] of a struct is [eStruct] at the empty key. *)
Lemma Encode_struct (fuel : nat) (fields : list (StructField * value))
    (enc : Encoder) :
  encode (S fuel) [] (eindirect (VStruct fields)) enc =
    eStruct fuel (encode fuel) [] (VStruct fields) enc.
Proof. reflexivity. Qed.

End FieldFacts.

(** X12.  An unexported field of a struct is left out, and its value is not
    looked at: the struct with the field, whatever the field holds, is
    encoded exactly as the struct without it (the other fields are not
    embedded ones), in [eStruct] for every key path and in [Encode]. *)
Theorem unexported_field_is_omitted (fuel : nat)
    (pre post : list (StructField * value)) (f : StructField) (v : value) :
  PkgPath f <> "" ->
  Forall plainField pre ->
  Forall plainField post ->
  (forall (rec : Key -> value -> M unit) (key : Key) (enc : Encoder),
     eStruct fuel rec key (VStruct (pre ++ (f, v) :: post)%list) enc =
       eStruct fuel rec key (VStruct (pre ++ post)%list) enc) /\
  (forall enc : Encoder,
     Encode (S fuel) (VStruct (pre ++ (f, v) :: post)%list) enc =
       Encode (S fuel) (VStruct (pre ++ post)%list) enc).
Proof.
  intros Hf Hpre Hpost.
  assert (H : forall (rec : Key -> value -> M unit) (key : Key)
                     (enc : Encoder),
            eStruct fuel rec key (VStruct (pre ++ (f, v) :: post)%list) enc =
            eStruct fuel rec key (VStruct (pre ++ post)%list) enc).
  { intros rec key. apply FieldFacts.eStruct_alike.
    now apply FieldFacts.addFields_unexported. }
  split; [exact H|].
  intros enc. rewrite !TopFacts.Encode_encode, !FieldFacts.Encode_struct.
  now rewrite H.
Qed.

Lemma unexported_field_is_omitted_witness :
  (forall (rec : Key -> value -> M unit) (key : Key) (enc : Encoder),
     eStruct 2 rec key
       (VStruct ([(mkField "A" "" false [], VInt KInt 1)] ++
                 (mkField "b" "main" false [], VOther KChan) ::
                 [(mkField "C" "" false [], VBool true)])%list) enc =
     eStruct 2 rec key
       (VStruct ([(mkField "A" "" false [], VInt KInt 1)] ++
                 [(mkField "C" "" false [], VBool true)])%list) enc) /\
  (forall enc : Encoder,
     Encode 3
       (VStruct ([(mkField "A" "" false [], VInt KInt 1)] ++
                 (mkField "b" "main" false [], VOther KChan) ::
                 [(mkField "C" "" false [], VBool true)])%list) enc =
     Encode 3
       (VStruct ([(mkField "A" "" false [], VInt KInt 1)] ++
                 [(mkField "C" "" false [], VBool true)])%list) enc).
Proof.
  apply (unexported_field_is_omitted 2
           [(mkField "A" "" false [], VInt KInt 1)]
           [(mkField "C" "" false [], VBool true)]
           (mkField "b" "main" false []) (VOther KChan)).
  - discriminate.
  - constructor; [reflexivity | constructor].
  - constructor; [reflexivity | constructor].
Defined.

(** X13.  An exported field that is not embedded writes nothing when its
    tag names it [-] or when its value is nil; but the field is classified
    with the others before anything is written.  So, when the
    classification of its value returns, the struct with the field is
    encoded exactly as the struct without it (the other fields are not
    embedded ones), in [eStruct] for every key path and in [Encode]. *)
Theorem skipped_field_writes_nothing (fuel : nat)
    (pre post : list (StructField * value)) (f : StructField) (v : value) :
  PkgPath f = "" ->
  Anonymous f = false ->
  Tag_Get (Tag f) "toml" = "-" \/ isNil v = true ->
  (exists t, tomlTypeOfGo fuel v = Ret t) ->
  Forall plainField pre ->
  Forall plainField post ->
  (forall (rec : Key -> value -> M unit) (key : Key) (enc : Encoder),
     eStruct fuel rec key (VStruct (pre ++ (f, v) :: post)%list) enc =
       eStruct fuel rec key (VStruct (pre ++ post)%list) enc) /\
  (forall enc : Encoder,
     Encode (S fuel) (VStruct (pre ++ (f, v) :: post)%list) enc =
       Encode (S fuel) (VStruct (pre ++ post)%list) enc).
Proof.
  intros He Ha Hs [t Ht] Hpre Hpost.
  assert (H : forall (rec : Key -> value -> M unit) (key : Key)
                     (enc : Encoder),
            eStruct fuel rec key (VStruct (pre ++ (f, v) :: post)%list) enc =
            eStruct fuel rec key (VStruct (pre ++ post)%list) enc).
  { intros rec key. apply FieldFacts.eStruct_alike.
    now apply (FieldFacts.addFields_skipped fuel pre post f v rec key
                 Hpre Hpost fuel t). }
  split; [exact H|].
  intros enc. rewrite !TopFacts.Encode_encode, !FieldFacts.Encode_struct.
  now rewrite H.
Qed.

Lemma skipped_field_writes_nothing_witness :
  (forall (rec : Key -> value -> M unit) (key : Key) (enc : Encoder),
     eStruct 2 rec key
       (VStruct ([(mkField "A" "" false [], VInt KInt 1)] ++
                 (mkField "B" "" false [("toml", "-")], VString "x") ::
                 [(mkField "C" "" false [], VBool true)])%list) enc =
     eStruct 2 rec key
       (VStruct ([(mkField "A" "" false [], VInt KInt 1)] ++
                 [(mkField "C" "" false [], VBool true)])%list) enc) /\
  (forall enc : Encoder,
     Encode 3
       (VStruct ([(mkField "A" "" false [], VInt KInt 1)] ++
                 (mkField "B" "" false [("toml", "-")], VString "x") ::
                 [(mkField "C" "" false [], VBool true)])%list) enc =
     Encode 3
       (VStruct ([(mkField "A" "" false [], VInt KInt 1)] ++
                 [(mkField "C" "" false [], VBool true)])%list) enc).
Proof.
  apply (skipped_field_writes_nothing 2
           [(mkField "A" "" false [], VInt KInt 1)]
           [(mkField "C" "" false [], VBool true)]
           (mkField "B" "" false [("toml", "-")]) (VString "x")).
  - reflexivity.
  - reflexivity.
  - left. reflexivity.
  - exists (Some tomlString). reflexivity.
  - constructor; [reflexivity | constructor].
  - constructor; [reflexivity | constructor].
Defined.

(** X14.  The [toml] tag of a field names its key: an exported field that
    is not embedded and whose [toml] tag is neither empty nor [-] is
    encoded exactly as a field without that tag whose name is the tag (with
    the same value and the same [modifier] tag); the name of the tagged
    field is not used. *)
Theorem toml_tag_names_the_key (fuel : nat)
    (pre post : list (StructField * value)) (f f' : StructField) (v : value)
    (rec : Key -> value -> M unit) (key : Key) (enc : Encoder) :
  Forall plainField pre ->
  Forall plainField post ->
  PkgPath f = "" /\ PkgPath f' = "" ->
  Anonymous f = false /\ Anonymous f' = false ->
  Tag_Get (Tag f) "toml" <> "" /\ Tag_Get (Tag f) "toml" <> "-" ->
  Name f' = Tag_Get (Tag f) "toml" ->
  Tag_Get (Tag f') "toml" = "" ->
  Tag_Get (Tag f') "modifier" = Tag_Get (Tag f) "modifier" ->
  eStruct fuel rec key (VStruct (pre ++ (f, v) :: post)%list) enc =
    eStruct fuel rec key (VStruct (pre ++ (f', v) :: post)%list) enc.
Proof.
  intros Hpre Hpost He Ha Ht Hn Hu Hm.
  apply FieldFacts.eStruct_alike.
  now apply FieldFacts.addFields_renamed.
Qed.

Lemma toml_tag_names_the_key_witness :
  eStruct 2 (encode 2) []
    (VStruct ([] ++ (mkField "Addr" "" false [("toml", "address")],
                     VString "x") :: [])%list) NewEncoder =
  eStruct 2 (encode 2) []
    (VStruct ([] ++ (mkField "address" "" false [], VString "x") :: [])%list)
    NewEncoder.
Proof.
  apply (toml_tag_names_the_key 2 [] []
           (mkField "Addr" "" false [("toml", "address")])
           (mkField "address" "" false []) (VString "x") (encode 2) []
           NewEncoder).
  - constructor.
  - constructor.
  - split; reflexivity.
  - split; reflexivity.
  - split; discriminate.
  - reflexivity.
  - reflexivity.
  - reflexivity.
Defined.

(** ** Structs: the fields in the order of the document *)

Module OrderFacts.

Import MapFacts FuelFacts FormFacts.

Lemma emitFields_app (rec : Key -> value -> M unit) (key : Key)
    (l1 l2 : list (StructField * value)) (enc : Encoder) :
  emitFields rec key (l1 ++ l2) enc =
    (emitFields rec key l1 ;; emitFields rec key l2)%enc enc.
Proof.
  revert enc. induction l1 as [|fv l1 IH]; intros enc;
    cbn [List.app emitFields]; [reflexivity|].
  symmetry. etransitivity; [apply bind_assoc|].
  apply bind_ext. intros _ enc1. symmetry. apply IH.
Qed.

(** [writeField] on the path of an exported field: the field is given to
    [rec] when it is a written one. *)
Lemma writeField_at (rec : Key -> value -> M unit) (key : Key)
    (root : value) (path : list nat) (f : StructField) (v : value)
    (enc : Encoder) :
  FieldByIndex root path = Ret (f, v) ->
  PkgPath f = "" ->
  writeField rec key root path enc =
    if writtenField (f, v)
    then (set_modifier (fieldModifier f v) ;;
          rec (Key_add key (fieldKey f)) v)%enc enc
    else Done tt enc.
Proof.
  intros Hp He. unfold writeField, writtenField. rewrite Hp.
  unfold bind at 1. cbn [lift fst snd]. rewrite He. cbn [String.eqb andb].
  destruct (isNil v); cbn [negb andb]; [reflexivity|].
  destruct (String.eqb (Tag_Get (Tag f) "toml") "-"); reflexivity.
Qed.

Lemma bind_cong {A B : Type} (m m' : M A) (f g : A -> M B) (enc : Encoder) :
  (forall enc1, m enc1 = m' enc1) ->
  (forall a enc1, f a enc1 = g a enc1) ->
  bind m f enc = bind m' g enc.
Proof. intros Hm Hf. unfold bind. rewrite Hm. destruct (m' enc); auto. Qed.

Lemma lineFields_cons (fuel : nat) (fv : StructField * value)
    (l : list (StructField * value)) :
  lineFields fuel (fv :: l) =
    if writtenField fv && negb (isTable (writtenAs fuel (snd fv)))
    then fv :: lineFields fuel l else lineFields fuel l.
Proof. reflexivity. Qed.

Lemma tableFields_cons (fuel : nat) (fv : StructField * value)
    (l : list (StructField * value)) :
  tableFields fuel (fv :: l) =
    if writtenField fv && isTable (writtenAs fuel (snd fv))
    then fv :: tableFields fuel l else tableFields fuel l.
Proof. reflexivity. Qed.

(** [writeFields] on the path of an exported field and on further paths. *)
Lemma writeFields_at (rec : Key -> value -> M unit) (key : Key)
    (root : value) (path : list nat) (rest : list (list nat))
    (f : StructField) (v : value) (l : list (StructField * value)) :
  FieldByIndex root path = Ret (f, v) ->
  PkgPath f = "" ->
  (forall enc, writeFields rec key root rest enc = emitFields rec key l enc) ->
  forall enc,
    writeFields rec key root (path :: rest) enc =
      emitFields rec key (if writtenField (f, v) then (f, v) :: l else l) enc.
Proof.
  intros Hp He Hrest enc. cbn [writeFields].
  destruct (writtenField (f, v)) eqn:W.
  - cbn [emitFields fst snd]. apply bind_cong.
    + intros enc1. now rewrite (writeField_at rec key _ _ f v enc1 Hp He), W.
    + intros _ enc1. apply Hrest.
  - unfold bind. rewrite (writeField_at rec key _ _ f v enc Hp He), W.
    apply Hrest.
Qed.

Section Order.

Variable fuel : nat.
Variable rec : Key -> value -> M unit.
Variable key : Key.
Variable fields : list (StructField * value).
Variable recA : value -> list nat -> fieldLists -> res fieldLists.

(** The loop of [addFields] over fields that are not embedded adds, to the
    direct list, paths on which [writeFields] gives the written fields that
    are not tables to [rec], and to the other list paths on which it gives it
    the written fields that are tables. *)
Lemma addFieldsLoop_emit (l done : list (StructField * value))
    (acc : fieldLists) :
  fields = (done ++ l)%list ->
  Forall notEmbedded l ->
  Forall (fun fv => PkgPath (fst fv) = "" ->
                    exists t, tomlTypeOfGo fuel (snd fv) = Ret t) l ->
  Forall (fun fv => PkgPath (fst fv) = "" ->
                    marshalsAsStruct (snd fv) = true) l ->
  exists dl sl : list (list nat),
    addFieldsLoop (S fuel) recA l (List.length done) [] acc =
      Ret ((fst acc ++ dl)%list, (snd acc ++ sl)%list) /\
    (forall enc, writeFields rec key (VStruct fields) dl enc =
                 emitFields rec key (lineFields (S fuel) l) enc) /\
    (forall enc, writeFields rec key (VStruct fields) sl enc =
                 emitFields rec key (tableFields (S fuel) l) enc).
Proof.
  revert done acc. induction l as [|[f v] l IH]; intros done acc Hf Hn Hc Hm.
  - exists [], []. rewrite !List.app_nil_r. destruct acc. now repeat split.
  - inversion Hn as [|? ? Hn0 Hn1]; inversion Hc as [|? ? Hc0 Hc1];
      inversion Hm as [|? ? Hm0 Hm1]; subst.
    unfold notEmbedded in Hn0. cbn [fst snd] in Hn0, Hc0, Hm0.
    assert (Hf' : (done ++ (f, v) :: l)%list = ((done ++ [(f, v)]) ++ l)%list)
      by now rewrite <- List.app_assoc.
    assert (Hlen : List.length (done ++ [(f, v)]) = S (List.length done))
      by (rewrite List.length_app; cbn [List.length]; lia).
    assert (Hpath : FieldByIndex (VStruct (done ++ (f, v) :: l))
                      [List.length done] = Ret (f, v)).
    { apply EmbeddedFacts.Field_struct.
      rewrite List.nth_error_app2 by lia. now rewrite Nat.sub_diag. }
    pose proof (fun acc' =>
                  IH (done ++ [(f, v)])%list acc' Hf' Hn1 Hc1 Hm1) as IH'.
    rewrite Hlen in IH'.
    cbn [addFieldsLoop]. rewrite lineFields_cons, tableFields_cons.
    cbn [snd].
    destruct (String.eqb_spec (PkgPath f) "") as [He|He]; cbn [negb].
    + rewrite (Hn0 He).
      destruct (Hc0 He) as [t Ht].
      rewrite (proj1 (classification_mono fuel v))
        by (rewrite Ht; discriminate).
      rewrite Ht. cbn [res_bind List.app].
      rewrite <- (isTable_typeIsHash fuel v t (Hm0 He) Ht).
      destruct (isTable (writtenAs (S fuel) v)) eqn:Etab; cbn [negb];
        rewrite Bool.andb_false_r, Bool.andb_true_r.
      * destruct (IH' (fst acc, (snd acc ++ [[List.length done]])%list))
          as (dl & sl & Hloop & Hd & Hs).
        exists dl, ([List.length done] :: sl). cbn [fst snd] in Hloop.
        rewrite Hloop, <- List.app_assoc. split; [reflexivity|].
        split; [exact Hd|].
        now apply writeFields_at.
      * destruct (IH' ((fst acc ++ [[List.length done]])%list, snd acc))
          as (dl & sl & Hloop & Hd & Hs).
        exists ([List.length done] :: dl), sl. cbn [fst snd] in Hloop.
        rewrite Hloop, <- List.app_assoc. split; [reflexivity|].
        split; [|exact Hs].
        now apply writeFields_at.
    + assert (W : writtenField (f, v) = false).
      { unfold writtenField. cbn [fst].
        destruct (String.eqb_spec (PkgPath f) ""); [contradiction|].
        reflexivity. }
      rewrite W. cbn [andb]. apply IH'.
Qed.

End Order.

Lemma eStruct_emit (fuel : nat) (rec : Key -> value -> M unit) (key : Key)
    (fields : list (StructField * value)) (enc : Encoder) :
  Forall notEmbedded fields ->
  Forall (fun fv => PkgPath (fst fv) = "" ->
                    exists t, tomlTypeOfGo fuel (snd fv) = Ret t) fields ->
  Forall (fun fv => PkgPath (fst fv) = "" ->
                    marshalsAsStruct (snd fv) = true) fields ->
  eStruct (S fuel) rec key (VStruct fields) enc =
    emitFields rec key
      (lineFields (S fuel) fields ++ tableFields (S fuel) fields) enc.
Proof.
  intros Hn Hc Hm. unfold eStruct. rewrite EmbeddedFacts.addFields_S.
  change (Fields (VStruct fields)) with fields.
  destruct (addFieldsLoop_emit fuel rec key fields
              (addFields (S fuel) fuel) fields [] ([], []) eq_refl Hn Hc Hm)
    as (dl & sl & Hloop & Hd & Hs).
  cbn [List.length fst snd List.app] in Hloop. rewrite Hloop.
  unfold bind at 1. cbn [lift fst snd].
  rewrite emitFields_app. unfold bind. rewrite Hd.
  destruct (emitFields rec key (lineFields (S fuel) fields) enc);
    [apply Hs | reflexivity | reflexivity].
Qed.

End OrderFacts.

(** X15.  The fields of a struct are written in the order of their
    declaration, first those that are not tables and then the tables and
    arrays of tables.  When no exported field is embedded, and the values of
    the exported fields classify and implement [TextMarshaler] as structs
    only, [eStruct] gives the written fields (exported, not nil, not tagged
    [-]) to [encode] under their keys, each after its modifier is set: first
    the fields that are not written as a table or an array of tables, in the
    order of the declaration, then the fields that are, in that order.  What
    [encode] does with a field is what [writtenAs] names. *)
Theorem struct_fields_in_declaration_order (fuel : nat)
    (rec : Key -> value -> M unit) (key : Key)
    (fields : list (StructField * value)) :
  Forall notEmbedded fields ->
  Forall (fun fv => PkgPath (fst fv) = "" ->
                    exists t, tomlTypeOfGo fuel (snd fv) = Ret t) fields ->
  Forall (fun fv => PkgPath (fst fv) = "" ->
                    marshalsAsStruct (snd fv) = true) fields ->
  (forall enc : Encoder,
      eStruct (S fuel) rec key (VStruct fields) enc =
        emitFields rec key
          (lineFields (S fuel) fields ++ tableFields (S fuel) fields) enc) /\
  (forall (fv : StructField * value) (s : form),
      writtenAs (S fuel) (snd fv) = Some s ->
      does s (S fuel) (Key_add key (fieldKey (fst fv))) (snd fv)).
Proof.
  intros Hn Hc Hm. split.
  - intros enc. now apply OrderFacts.eStruct_emit.
  - intros fv s. apply FormFacts.encode_writtenAs.
Qed.

Lemma struct_fields_in_declaration_order_witness :
  eStruct 3 (encode 3) []
    (VStruct [(mkField "T" "" false [], Scenario.table [("x", VBool true)]);
              (mkField "B" "" false [("toml", "b")], VInt KInt 2);
              (mkField "s" "main" false [], VInt KInt 7);
              (mkField "N" "" false [], VPtr None);
              (mkField "A" "" false [], VInt KInt 1)]) NewEncoder =
  emitFields (encode 3) []
    ([(mkField "B" "" false [("toml", "b")], VInt KInt 2);
      (mkField "A" "" false [], VInt KInt 1)] ++
     [(mkField "T" "" false [], Scenario.table [("x", VBool true)])])
    NewEncoder.
Proof.
  refine (proj1
    (struct_fields_in_declaration_order 2 (encode 3) []
       [(mkField "T" "" false [], Scenario.table [("x", VBool true)]);
        (mkField "B" "" false [("toml", "b")], VInt KInt 2);
        (mkField "s" "main" false [], VInt KInt 7);
        (mkField "N" "" false [], VPtr None);
        (mkField "A" "" false [], VInt KInt 1)] _ _ _) NewEncoder).
  - repeat (constructor; [intros _; reflexivity|]). constructor.
  - repeat (constructor; [intros _; eexists; vm_compute; reflexivity|]).
    constructor.
  - repeat (constructor; [intros _; reflexivity|]). constructor.
Defined.

(** ** Values that marshal themselves *)

(** X16.  An entry whose value implements [TextMarshaler] (and is not a
    [time.Time]) is written, under a key path whose last segment is not
    empty and with no modifier active, as a key-value line with the text of
    [MarshalText] as a quoted string.  When [MarshalText] returns an error,
    [encode] panics with that error as a [tomlEncodeError], which [Encode]
    returns; the indentation, the key and the equals sign have been written
    by then and stay in the output. *)
Theorem text_marshaler_entry (fuel : nat) (key : Key) (k : string)
    (rv : value) (text : string + error) (enc : Encoder) :
  k <> "" ->
  IsValid rv = true ->
  Interface_type rv = IsTextMarshaler text ->
  modifier enc = MOD_NONE ->
  encode (S (S fuel)) (key ++ [k])%list rv enc =
    match text with
    | inl s =>
        Done tt
          (with_modifier
             (written enc
                (strings.Repeat (Indent enc) (List.length key) ++ k ++ " = " ++
                 Bytes.str Bytes.dquote ++ strings.Replace quotedReplacer s ++
                 Bytes.str Bytes.dquote ++ Bytes.str Bytes.lf))
             MOD_NONE)
    | inr err =>
        Panicked (tomlEncodeError err)
          (written enc
             (strings.Repeat (Indent enc) (List.length key) ++ k ++ " = "))
    end.
Proof.
  intros Hk Hv Ht Hm. cbn [encode]. unfold encode_body.
  rewrite Hv, Ht. cbn [negb].
  rewrite (LineFacts.keyEqElement_snoc (S fuel) key k rv enc Hk).
  unfold bind at 1. unfold wf at 1.
  unfold bind at 1. unfold modifiedElement, bind at 1, get.
  change (modifier (written enc ?a)) with (modifier enc). rewrite Hm.
  change (String.eqb MOD_NONE MOD_MULTILINE_STRING) with false.
  change (String.eqb MOD_NONE MOD_MULTILINE_RAWSTRING) with false.
  cbv iota. cbn [eElement]. unfold eElement_body. rewrite Hv, Ht.
  cbn [negb]. destruct text as [s|err].
  - unfold writeQuoted, wf. rewrite LineFacts.written_written.
    unfold bind at 1. rewrite LineFacts.newline_written.
    unfold set_modifier. now rewrite !BytesFacts.append_assoc.
  - reflexivity.
Qed.

Lemma text_marshaler_entry_witness :
  encode 2 ([] ++ ["ip"])%list
    (VMarshaler (inr (errorf "bad address")) (VStruct [])) NewEncoder =
    Panicked (tomlEncodeError (errorf "bad address"))
      (written NewEncoder
         (strings.Repeat (Indent NewEncoder) (List.length (@nil string)) ++
          "ip" ++ " = ")).
Proof.
  apply (text_marshaler_entry 0 [] "ip"
           (VMarshaler (inr (errorf "bad address")) (VStruct []))
           (inr (errorf "bad address")) NewEncoder).
  - discriminate.
  - reflexivity.
  - reflexivity.
  - reflexivity.
Defined.

(** ** Percent signs in multiline strings *)

Module PercentFacts.

Import BytesFacts.

(** [doPrintf] copies the text before the first percent sign. *)
Lemma doPrintf_app_plain (p rest : string) (fuel : nat) :
  Bytes.occurs fmt.percent p = false ->
  fmt.doPrintf (String.length p + fuel) (p ++ rest) =
    p ++ fmt.doPrintf fuel rest.
Proof.
  induction p as [|c p IH]; intros Hp; [reflexivity|].
  cbn [Bytes.occurs] in Hp. cbn [String.length Nat.add append fmt.doPrintf].
  rewrite Ascii.eqb_sym.
  destruct (Ascii.eqb fmt.percent c) eqn:E; [discriminate Hp|].
  now rewrite IH.
Qed.

Lemma Sprintf0_app_plain (p rest : string) :
  Bytes.occurs fmt.percent p = false ->
  fmt.Sprintf0 (p ++ rest) = p ++ fmt.Sprintf0 rest.
Proof.
  intros Hp. unfold fmt.Sprintf0. rewrite length_append.
  now apply doPrintf_app_plain.
Qed.

(** Two percent signs print as one. *)
Lemma Sprintf0_doubled (q : string) :
  Bytes.occurs fmt.percent q = false ->
  fmt.Sprintf0 (String fmt.percent (String fmt.percent q)) =
    String fmt.percent q.
Proof.
  intros Hq. unfold fmt.Sprintf0. cbn [String.length].
  change (fmt.doPrintf (S (S (String.length q)))
            (String fmt.percent (String fmt.percent q)))
    with (String fmt.percent (fmt.doPrintf (S (String.length q)) q)).
  rewrite fmtFacts.doPrintf_plain; auto.
Qed.

Lemma writeMultiLineString_raw (s : string) (enc : Encoder) :
  writeMultiLineString s true enc =
    Done tt
      (written enc (rawMarker ++ fmt.Sprintf0 (s ++ " ") ++ rawMarker)).
Proof.
  unfold writeMultiLineString, bind, wf0, wf.
  rewrite LineFacts.rawMarker_plain.
  now rewrite !LineFacts.written_written.
Qed.

End PercentFacts.

(** X17.  The text of a raw multiline string is given to [wf] as the
    format, so that a percent sign in it is read as a verb that has no
    operand.  For a text [p] without a percent sign: the string [p%] is
    written as [p%!(NOVERB)], and the space that ends the block is taken
    for a flag of the verb and lost; in the string [p%%q] the two percent
    signs are written as one. *)
Theorem raw_multiline_reads_percent_as_verb (p q : string) (enc : Encoder) :
  Bytes.occurs fmt.percent p = false ->
  Bytes.occurs fmt.percent q = false ->
  writeMultiLineString (p ++ "%") true enc =
    Done tt (written enc (rawMarker ++ (p ++ "%!(NOVERB)") ++ rawMarker)) /\
  writeMultiLineString (p ++ "%%" ++ q) true enc =
    Done tt (written enc (rawMarker ++ (p ++ "%" ++ q ++ " ") ++ rawMarker)).
Proof.
  intros Hp Hq. rewrite !PercentFacts.writeMultiLineString_raw.
  rewrite (BytesFacts.append_assoc p "%" " ").
  rewrite (BytesFacts.append_assoc p ("%%" ++ q) " ").
  rewrite !(PercentFacts.Sprintf0_app_plain p) by exact Hp.
  split.
  - reflexivity.
  - change (("%%" ++ q) ++ " ")
      with (String fmt.percent (String fmt.percent (q ++ " "))).
    rewrite PercentFacts.Sprintf0_doubled; [reflexivity|].
    rewrite BytesFacts.occurs_append, Hq. reflexivity.
Qed.

Lemma raw_multiline_reads_percent_as_verb_witness :
  writeMultiLineString ("100" ++ "%") true NewEncoder =
    Done tt
      (written NewEncoder (rawMarker ++ ("100" ++ "%!(NOVERB)") ++ rawMarker))
  /\
  writeMultiLineString ("100" ++ "%%" ++ " sure") true NewEncoder =
    Done tt
      (written NewEncoder
         (rawMarker ++ ("100" ++ "%" ++ " sure" ++ " ") ++ rawMarker)).
Proof.
  apply (raw_multiline_reads_percent_as_verb "100" " sure" NewEncoder);
    reflexivity.
Defined.

(** X18.  [Encode] returns or panics on every value, with more fuel than
    twice the depth of the value and one: the walk through the value ends.
    It returns nil or an error, or it panics with a value that is not a
    [tomlEncodeError]: [safeEncode] lets no [tomlEncodeError] through. *)
Theorem Encode_ends (fuel : nat) (v : value) (enc : Encoder) :
  2 * depth v + 1 < fuel ->
  (exists enc', Encode fuel v enc = Done None enc') \/
  (exists err enc', Encode fuel v enc = Done (Some err) enc') \/
  (exists p enc',
     Encode fuel v enc = Panicked p enc' /\
     forall err, p <> tomlEncodeError err).
Proof.
  intros Hd. pose proof (TotalFacts.Encode_finishes fuel v Hd enc) as Hf.
  rewrite TopFacts.Encode_encode in Hf |- *.
  destruct (encode fuel [] (eindirect v) enc) as [a e1|[err|err|msg] e1|].
  - left. now exists e1.
  - right. left. now exists err, e1.
  - right. right. exists (panicError err), e1. split; [reflexivity|].
    discriminate.
  - right. right. exists (panicString msg), e1. split; [reflexivity|].
    discriminate.
  - now contradiction Hf.
Qed.

Lemma Encode_ends_witness :
  (exists enc', Encode 20 Scenario.arr_of_tables NewEncoder = Done None enc') \/
  (exists err enc',
     Encode 20 Scenario.arr_of_tables NewEncoder = Done (Some err) enc') \/
  (exists p enc',
     Encode 20 Scenario.arr_of_tables NewEncoder = Panicked p enc' /\
     forall err, p <> tomlEncodeError err).
Proof.
  apply (Encode_ends 20 Scenario.arr_of_tables NewEncoder).
  vm_compute. lia.
Defined.

(** ** Every line is ended *)

Module LinesFacts.

Import BytesFacts LineFacts ModifierFacts OutputFacts.

Lemma terminated_ret {A : Type} (a : A) : terminated (ret a).
Proof. intros enc b enc' [= _ <-]. now left. Qed.

Lemma terminated_lift {A : Type} (r : res A) : terminated (lift r).
Proof.
  intros enc a enc'. destruct r; cbn; intros [= _ <-] || discriminate.
  now left.
Qed.

Lemma terminated_raise {A : Type} (p : panic) : terminated (@raise A p).
Proof. intros enc a enc'. discriminate. Qed.

Lemma terminated_get {A : Type} (f : Encoder -> A) : terminated (get f).
Proof. intros enc a enc' [= _ <-]. now left. Qed.

Lemma terminated_set_modifier (m : Modifier) : terminated (set_modifier m).
Proof. intros enc a enc' [= _ <-]. now left. Qed.

Lemma terminated_bind {A B : Type} (m : M A) (f : A -> M B) :
  terminated m -> (forall a, terminated (f a)) -> terminated (bind m f).
Proof.
  intros Hm Hf enc b enc' H.
  destruct (bind_Done _ _ _ _ _ H) as (a & enc1 & H1 & H2).
  destruct (Hf _ _ _ _ H2) as [E2|[t2 E2]].
  - rewrite E2. exact (Hm _ _ _ H1).
  - right. destruct (Hm _ _ _ H1) as [E1|[t1 E1]]; rewrite E2, E1.
    + now exists t2.
    + exists (t1 ++ Bytes.str Bytes.lf ++ t2). now rewrite !append_assoc.
Qed.

Lemma terminated_newline : terminated newline.
Proof.
  intros enc a enc'. unfold newline, bind, get.
  destruct (hasWritten enc).
  - unfold wf0, wf.
    change (fmt.Sprintf0 (Bytes.str Bytes.lf)) with (Bytes.str Bytes.lf).
    intros [= _ <-]. right. now exists "".
  - intros [= _ <-]. now left.
Qed.

Lemma terminated_indentStr (key : Key) : terminated (indentStr key).
Proof.
  destruct key; [apply terminated_raise|].
  apply terminated_bind; [apply terminated_get|].
  intros; apply terminated_ret.
Qed.

(** A header: a text and a line feed, and what follows it. *)
Lemma terminated_header (text : string) (m : M unit) :
  terminated m -> terminated (wf text ;; newline ;; m)%enc.
Proof.
  intros Hm enc a enc'. unfold bind at 1. unfold wf at 1.
  unfold bind at 1. rewrite newline_written. intros H.
  right. destruct (Hm _ _ _ H) as [E|[t E]]; rewrite E; cbn [w written].
  - now exists text.
  - exists (text ++ Bytes.str Bytes.lf ++ t). now rewrite !append_assoc.
Qed.

(** A key-value line: the key, what is written for the value, and a line
    feed. *)
Lemma terminated_line (text : string) (m : M unit) :
  appends m ->
  terminated (wf text ;; m ;; newline ;; set_modifier MOD_NONE)%enc.
Proof.
  intros Hm enc a enc'. unfold bind at 1. unfold wf at 1.
  unfold bind at 1. specialize (Hm (written enc text)).
  destruct (m (written enc text)) as [[] e2|p e2|]; try discriminate.
  destruct Hm as (_ & [t Ht] & Hh). specialize (Hh eq_refl).
  unfold bind, newline, bind, get. rewrite Hh. unfold wf0, wf.
  change (fmt.Sprintf0 (Bytes.str Bytes.lf)) with (Bytes.str Bytes.lf).
  unfold set_modifier. intros [= _ <-]. right. exists (text ++ t).
  cbn [w written with_modifier] in Ht |- *. rewrite Ht.
  now rewrite !append_assoc.
Qed.

Lemma terminated_keyEqElement (fuel : nat) (key : Key) (val : value) :
  terminated (keyEqElement fuel key val).
Proof.
  unfold keyEqElement. destruct key as [|x key]; [apply terminated_raise|].
  apply terminated_bind; [apply terminated_lift|]. intros _.
  apply terminated_bind; [apply terminated_indentStr|]. intros indent.
  apply terminated_bind; [apply terminated_lift|]. intros k.
  apply terminated_line. apply appends_modifiedElement.
Qed.

Section Terminated.

Variable fuel : nat.
Variable rec : Key -> value -> M unit.
Hypothesis Hrec : forall (key : Key) (rv : value), terminated (rec key rv).

Lemma terminated_writeMapKeysLoop (key : Key) (rv : value)
    (mapKeys : list string) :
  terminated (writeMapKeysLoop rec key rv mapKeys).
Proof.
  induction mapKeys as [|mapKey rest IH]; cbn [writeMapKeysLoop].
  - apply terminated_ret.
  - apply terminated_bind; [|intros _; exact IH].
    apply terminated_bind; [apply terminated_lift|]. intros mrv.
    destruct (isNil mrv); [apply terminated_ret | apply Hrec].
Qed.

Lemma terminated_eMap (key : Key) (rv : value) :
  terminated (eMap fuel rec key rv).
Proof.
  unfold eMap. destruct (negb _); [apply terminated_raise|].
  apply terminated_bind; [apply terminated_lift|]. intros ks.
  apply terminated_bind; [apply terminated_writeMapKeysLoop|]. intros _.
  apply terminated_writeMapKeysLoop.
Qed.

Lemma terminated_writeField (key : Key) (rv : value)
    (fieldIndex : list nat) :
  terminated (writeField rec key rv fieldIndex).
Proof.
  unfold writeField.
  apply terminated_bind; [apply terminated_lift|]. intros [sft sf].
  cbn [fst snd].
  destruct (isNil sf); [apply terminated_ret|].
  destruct (String.eqb _ "-"); [apply terminated_ret|].
  apply terminated_bind; [apply terminated_set_modifier|].
  intros _; apply Hrec.
Qed.

Lemma terminated_writeFields (key : Key) (rv : value)
    (fields : list (list nat)) :
  terminated (writeFields rec key rv fields).
Proof.
  induction fields as [|fieldIndex rest IH]; cbn [writeFields].
  - apply terminated_ret.
  - apply terminated_bind; [apply terminated_writeField | intros _; exact IH].
Qed.

Lemma terminated_eStruct (key : Key) (rv : value) :
  terminated (eStruct fuel rec key rv).
Proof.
  unfold eStruct.
  apply terminated_bind; [apply terminated_lift|]. intros fs.
  apply terminated_bind; [apply terminated_writeFields|]. intros _.
  apply terminated_writeFields.
Qed.

Lemma terminated_eMapOrStruct (key : Key) (rv : value) :
  terminated (eMapOrStruct fuel rec key rv).
Proof.
  unfold eMapOrStruct.
  destruct (Kind_of (eindirect rv)); try apply terminated_raise.
  - apply terminated_eMap.
  - apply terminated_eStruct.
Qed.

Lemma terminated_eTable (key : Key) (rv : value) :
  terminated (eTable fuel rec key rv).
Proof.
  unfold eTable.
  apply terminated_bind.
  { destruct (Nat.eqb _ 1); [apply terminated_newline | apply terminated_ret]. }
  intros _.
  apply terminated_bind; [|intros _; apply terminated_eMapOrStruct].
  destruct (Nat.ltb 0 _); [|apply terminated_ret].
  apply terminated_bind; [apply terminated_lift|]. intros _.
  apply terminated_bind; [apply terminated_indentStr|]. intros indent.
  intros enc a enc' H.
  apply (terminated_header (indent ++ "[" ++ Key_String key ++ "]") (ret tt)
           (terminated_ret tt) enc tt enc').
  unfold bind in H |- *. unfold wf in H |- *.
  destruct (newline _) as [[] e1|p e1|]; [|discriminate H..].
  injection H as _ <-. reflexivity.
Qed.

Lemma terminated_eArrayOfTablesLoop (key : Key) (elems : list value) :
  terminated (eArrayOfTablesLoop fuel rec key elems).
Proof.
  induction elems as [|trv rest IH]; cbn [eArrayOfTablesLoop].
  - apply terminated_ret.
  - apply terminated_bind; [|intros _; exact IH].
    destruct (isNil trv); [apply terminated_ret|].
    apply terminated_bind; [apply terminated_newline|]. intros _.
    apply terminated_bind; [apply terminated_indentStr|]. intros indent.
    apply terminated_header. apply terminated_eMapOrStruct.
Qed.

Lemma terminated_eArrayOfTables (key : Key) (rv : value) :
  terminated (eArrayOfTables fuel rec key rv).
Proof.
  unfold eArrayOfTables.
  destruct (Nat.eqb _ 0); [apply terminated_raise|].
  apply terminated_bind; [apply terminated_lift|]. intros _.
  apply terminated_eArrayOfTablesLoop.
Qed.

Lemma terminated_encode_body (key : Key) (rv : value) :
  terminated (encode_body fuel rec key rv).
Proof.
  unfold encode_body.
  destruct (negb (IsValid rv)); [apply terminated_raise|].
  destruct (Interface_type rv) as [utc|text|];
    try apply terminated_keyEqElement.
  destruct (Kind_of rv); try apply terminated_keyEqElement;
    try apply terminated_raise;
    try (destruct (IsNil rv); [apply terminated_ret|]);
    first [ apply Hrec
          | apply terminated_eTable
          | apply terminated_bind; [apply terminated_lift|];
            intros t; destruct (typeEqual _ t);
            [apply terminated_eArrayOfTables
            | apply terminated_keyEqElement] ].
Qed.

End Terminated.

Lemma terminated_encode (fuel : nat) (key : Key) (rv : value) :
  terminated (encode fuel key rv).
Proof.
  revert key rv. induction fuel as [|fuel IH]; intros key rv; cbn [encode].
  - intros enc a enc'. discriminate.
  - apply terminated_encode_body. exact IH.
Qed.

End LinesFacts.

(** X19.  Every line of a document is ended: when [Encode] returns nil,
    it has written nothing, or what it has written ends with a line
    feed. *)
Theorem document_lines_are_ended (fuel : nat) (v : value)
    (enc enc' : Encoder) :
  Encode fuel v enc = Done None enc' ->
  w enc' = w enc \/
  exists text, w enc' = w enc ++ text ++ Bytes.str Bytes.lf.
Proof.
  rewrite TopFacts.Encode_encode. intros H.
  pose proof (LinesFacts.terminated_encode fuel [] (eindirect v) enc) as Ht.
  destruct (encode fuel [] (eindirect v) enc) as [a e1|[err|err|msg] e1|];
    try discriminate H.
  injection H as <-. exact (Ht a e1 eq_refl).
Qed.

Lemma document_lines_are_ended_witness :
  w (written NewEncoder ("a = 1" ++ Bytes.str Bytes.lf)) = w NewEncoder \/
  exists text,
    w (written NewEncoder ("a = 1" ++ Bytes.str Bytes.lf)) =
      w NewEncoder ++ text ++ Bytes.str Bytes.lf.
Proof.
  apply (document_lines_are_ended 3 (VMap StringKey (Some [("a", VInt KInt 1)]))
           NewEncoder (written NewEncoder ("a = 1" ++ Bytes.str Bytes.lf))).
  reflexivity.
Defined.

(** ** Text marshalers that are not structs, and maps with named key types *)

(** X20.  A pointer whose type implements [TextMarshaler] is taken off by
    [eindirect] when it is the value given to [Encode]: the value behind it
    is encoded, and [MarshalText] is not called. *)
Theorem pointer_marshaler_is_taken_off (fuel : nat) (text : string + error)
    (x : value) (enc : Encoder) :
  eindirect (VMarshaler text (VPtr (Some x))) = eindirect x /\
  Encode fuel (VMarshaler text (VPtr (Some x))) enc = Encode fuel x enc.
Proof.
  split; [reflexivity|]. rewrite !TopFacts.Encode_encode. reflexivity.
Qed.

Module SlipFacts.

Import SortFacts MapFacts.

Lemma Strings_nil (l : list string) : sort.Strings l = [] -> l = [].
Proof.
  intros E. apply Permutation_nil. rewrite <- E. apply Strings_perm.
Qed.

(** The loop of [writeMapKeys] on a map whose key type is a defined type
    panics at the first key. *)
Lemma writeMapKeysLoop_named (rec : Key -> value -> M unit) (key : Key)
    (name : string) (m : option (list (string * value))) (k : string)
    (l : list string) (enc : Encoder) :
  writeMapKeysLoop rec key (VMap (NamedKey name) m) (k :: l) enc =
    Panicked
      (panicString
         ("reflect.Value.MapIndex: value of type string is not " ++
          "assignable to type " ++ name)) enc.
Proof. reflexivity. Qed.

Lemma eMap_named (fuel : nat) (rec : Key -> value -> M unit) (key : Key)
    (name : string) (m : list (string * value)) (enc : Encoder) :
  m <> [] ->
  Forall (fun kv => exists t, tomlTypeOfGo fuel (snd kv) = Ret t) m ->
  eMap fuel rec key (VMap (NamedKey name) (Some m)) enc =
    Panicked
      (panicString
         ("reflect.Value.MapIndex: value of type string is not " ++
          "assignable to type " ++ name)) enc.
Proof.
  intros Hm Hc. unfold eMap. cbn [MapKeyIsString plain negb].
  change (MapKeys (VMap (NamedKey name) (Some m))) with (List.map fst m).
  rewrite (splitMapKeys_classified fuel _ (List.map fst m) [] []).
  2: { apply Forall_forall. intros k Hk. apply EntryFacts.assoc_entry in Hk.
       exact (proj1 (Forall_forall _ _) Hc _ Hk). }
  unfold bind at 1. cbn [lift fst snd List.app]. unfold writeMapKeys, bind.
  destruct (sort.Strings
              (List.filter
                 (fun k => negb (subKey fuel (VMap (NamedKey name) (Some m)) k))
                 (List.map fst m))) as [|k1 l1] eqn:Ed.
  - cbn [writeMapKeysLoop ret].
    destruct (sort.Strings
                (List.filter (subKey fuel (VMap (NamedKey name) (Some m)))
                   (List.map fst m))) as [|k2 l2] eqn:Es.
    + exfalso. apply Strings_nil in Ed, Es.
      destruct m as [|[k0 v0] m']; [now apply Hm|].
      cbn [List.map fst List.filter] in Ed, Es.
      destruct (subKey fuel (VMap (NamedKey name) (Some ((k0, v0) :: m'))) k0);
        discriminate.
    + apply writeMapKeysLoop_named.
  - now rewrite writeMapKeysLoop_named.
Qed.

End SlipFacts.

(** X21.  A map whose key type is a defined string type ([type Name
    string]) passes the test of [eMap] on the kind of the key type, and its
    entries are classified; then [writeMapKeys] looks the first sorted key
    up as a [string], which [MapIndex] refuses.  When the map has an entry
    and its entries classify, [eMap] panics with the message of [MapIndex]
    and has written nothing, and so does [Encode] of the map: the panic is
    not a [tomlEncodeError], so that [safeEncode] lets it through. *)
Theorem defined_key_type_panics (fuel : nat) (name : string)
    (m : list (string * value)) :
  m <> [] ->
  Forall (fun kv => exists t, tomlTypeOfGo (S fuel) (snd kv) = Ret t) m ->
  (forall (rec : Key -> value -> M unit) (key : Key) (enc : Encoder),
      eMap (S fuel) rec key (VMap (NamedKey name) (Some m)) enc =
        Panicked
          (panicString
             ("reflect.Value.MapIndex: value of type string is not " ++
              "assignable to type " ++ name)) enc) /\
  (forall enc : Encoder,
      Encode (S (S fuel)) (VMap (NamedKey name) (Some m)) enc =
        Panicked
          (panicString
             ("reflect.Value.MapIndex: value of type string is not " ++
              "assignable to type " ++ name)) enc).
Proof.
  intros Hm Hc. split.
  - intros rec key enc. now apply SlipFacts.eMap_named.
  - intros enc. rewrite TopFacts.Encode_encode.
    cbn [eindirect encode]. unfold encode_body.
    cbn [IsValid plain negb Interface_type Kind_of IsNil].
    unfold eTable. cbn [List.length Nat.eqb Nat.ltb Nat.leb].
    unfold bind at 1 2. cbn [ret].
    unfold eMapOrStruct. cbn [eindirect Kind_of].
    now rewrite SlipFacts.eMap_named.
Qed.

Lemma defined_key_type_panics_witness :
  (forall (rec : Key -> value -> M unit) (key : Key) (enc : Encoder),
      eMap 1 rec key (VMap (NamedKey "main.Name") (Some [("a", VInt KInt 1)]))
        enc =
        Panicked
          (panicString
             ("reflect.Value.MapIndex: value of type string is not " ++
              "assignable to type " ++ "main.Name")) enc) /\
  (forall enc : Encoder,
      Encode 2 (VMap (NamedKey "main.Name") (Some [("a", VInt KInt 1)])) enc =
        Panicked
          (panicString
             ("reflect.Value.MapIndex: value of type string is not " ++
              "assignable to type " ++ "main.Name")) enc).
Proof.
  apply (defined_key_type_panics 0 "main.Name" [("a", VInt KInt 1)]).
  - discriminate.
  - constructor; [|constructor]. exists (Some tomlInteger). reflexivity.
Defined.

(** X22.  A value that implements [TextMarshaler] and is not a struct (a
    map type with the method, or a pointer whose type has it) is sorted by
    [eMap] and [eStruct] with the tables, because [tomlTypeOfGo] looks for
    the method among the structs only, and is written by [encode] as a
    key-value line with the text of [MarshalText].  So the line of the entry
    [z] of the map [{"t": {"x": 1}, "z": v}] comes after the table [t], for
    [v] a map or a pointer to a struct whose [MarshalText] returns [5]. *)
Theorem marshaler_not_struct_line_among_tables (fuel : nat)
    (text : string + error) (x : value) (key : Key) (k : string) :
  Kind_of x = reflect.Map \/ Kind_of x = reflect.Ptr ->
  isNil x = false ->
  tomlTypeOfGo (S fuel) x = Ret (Some tomlHash) ->
  tomlTypeOfGo (S fuel) (VMarshaler text x) = Ret (Some tomlHash) /\
  writtenAs (S fuel) (VMarshaler text x) = Some Line /\
  (forall enc : Encoder,
      encode (S fuel) (Key_add key k) (VMarshaler text x) enc =
        keyEqElement fuel (Key_add key k) (VMarshaler text x) enc) /\
  document
    (Encode 6
       (Scenario.table
          [("z", VMarshaler (inl "5") (Scenario.table [("k", Scenario.int 1)]));
           ("t", Scenario.table [("x", Scenario.int 1)])])
       NewEncoder) =
    Some ("[t]" ++ Scenario.lf ++ "  x = 1" ++ Scenario.lf ++
          "z = " ++ Bytes.str Bytes.dquote ++ "5" ++ Bytes.str Bytes.dquote ++
          Scenario.lf) /\
  document
    (Encode 6
       (Scenario.table
          [("z", VMarshaler (inl "5") (VPtr (Some (VStruct []))));
           ("t", Scenario.table [("x", Scenario.int 1)])])
       NewEncoder) =
    Some ("[t]" ++ Scenario.lf ++ "  x = 1" ++ Scenario.lf ++
          "z = " ++ Bytes.str Bytes.dquote ++ "5" ++ Bytes.str Bytes.dquote ++
          Scenario.lf).
Proof.
  intros Hk Hn Ht.
  assert (Hv : IsValid (VMarshaler text x) = true).
  { unfold IsValid. change (plain (VMarshaler text x)) with (plain x).
    rewrite <- ArrayFacts.Kind_of_plain in Hk.
    destruct (plain x); try reflexivity.
    destruct Hk as [Hk|Hk]; discriminate Hk. }
  split; [|split; [|split; [|split]]].
  - rewrite FuelFacts.tomlTypeOfGo_S in Ht |- *.
    change (isNil (VMarshaler text x)) with (isNil x).
    change (IsValid (VMarshaler text x)) with (IsValid x).
    change (Kind_of (VMarshaler text x)) with (Kind_of x).
    change (Elem (VMarshaler text x)) with (Elem x).
    destruct Hk as [Hk|Hk]; rewrite Hk in Ht |- *; exact Ht.
  - cbn [writtenAs]. now rewrite Hv.
  - intros enc. cbn [encode]. unfold encode_body. now rewrite Hv.
  - vm_compute. reflexivity.
  - vm_compute. reflexivity.
Qed.

Lemma marshaler_not_struct_line_among_tables_witness :
  tomlTypeOfGo 2 (VMarshaler (inl "5") (VPtr (Some (VStruct [])))) =
    Ret (Some tomlHash) /\
  writtenAs 2 (VMarshaler (inl "5") (VPtr (Some (VStruct [])))) = Some Line.
Proof.
  pose proof (marshaler_not_struct_line_among_tables 1 (inl "5")
                (VPtr (Some (VStruct []))) [] "z" (or_intror eq_refl)
                eq_refl eq_refl) as H.
  split; [exact (proj1 H) | exact (proj1 (proj2 H))].
Defined.
